(** * media-playable: the media state-synchronisation core

    A shallow embedding of [MediaMachine.ts], [MediaContext.tsx] and
    [MediaProvider.tsx], followed by the properties of the store, the
    selector layer and the media element binder.

    Layout of the development:
    - [JS]               the fragment of JavaScript numbers the binder uses;
    - [Lodash]           [clamp] and [isEqual];
    - [MediaMachine]     the snapshot record, partial updates, [updateMedia];
    - [Fsm]              the machine that @xstate/fsm builds from the
                         configuration: states, transition, context objects;
    - [MediaContext]     [useMediaContext]: selectors, consumers, the listener;
    - [Interpreter]      the service of @xstate/fsm: [send], [subscribe];
    - [HTMLMediaElement] and [Hls]: the two collaborators, as the binder
                         reads, writes and calls them;
    - [MediaProvider]    the binder: refs, timers, promises, event handlers,
                         and the event loop they run in;
    - [App]              the selector of the sample application;
    - [Spec]             the notions the properties are stated with;
    - [Utils]            [convertTimeRangesToSeconds];
    - [Session]          the invariants of a whole session.

    The properties follow, ordered by component: the store, the binder's
    methods, the selector layer, the debounce of LOADING, play and pause,
    and then what consumers, methods and the session as a whole keep. *)

From Stdlib Require Import String Bool ZArith QArith Qround Lqa Lia List.
Import ListNotations.
Open Scope Z_scope.

(** ** JavaScript numbers

    Every finite double is a rational, and the operations the binder applies
    to numbers (comparison, [Math.floor], [Math.round], [%], clamping) are
    exact on doubles, so finite values are carried as rationals.  The three
    non-finite values are kept apart because the code tests for them. *)
Module JS.

Inductive number : Type :=
| NaN
| PosInfinity
| NegInfinity
| Fin (q : Q).

Definition of_Z (z : Z) : number := Fin (inject_Z z).

(** [a <= b] *)
Definition le (a b : number) : bool :=
  match a, b with
  | NaN, _ | _, NaN => false
  | NegInfinity, _ => true
  | _, PosInfinity => true
  | Fin x, Fin y => Qle_bool x y
  | _, _ => false
  end.

(** [a >= b] *)
Definition ge (a b : number) : bool := le b a.

(** [a === b] on numbers: [NaN] differs from everything, itself included. *)
Definition strict_eq (a b : number) : bool :=
  match a, b with
  | PosInfinity, PosInfinity => true
  | NegInfinity, NegInfinity => true
  | Fin x, Fin y => Qeq_bool x y
  | _, _ => false
  end.

(** [a !== b] *)
Definition strict_neq (a b : number) : bool := negb (strict_eq a b).

(** SameValueZero, the comparison behind deep equality of numbers. *)
Definition same_value_zero (a b : number) : bool :=
  match a, b with
  | NaN, NaN => true
  | _, _ => strict_eq a b
  end.

(** [Math.floor] *)
Definition Math_floor (a : number) : number :=
  match a with
  | Fin x => of_Z (Qfloor x)
  | _ => a
  end.

(** [Math.round]: the nearest integer, ties towards positive infinity. *)
Definition Math_round (a : number) : number :=
  match a with
  | Fin x => of_Z (Qfloor (x + (1 # 2)))
  | _ => a
  end.

(** Truncation towards zero, as the remainder operator uses it. *)
Definition truncate (x : Q) : Z :=
  if Qle_bool 0 x then Qfloor x else Qceiling x.

(** [a % b]: the result has the sign of the dividend. *)
Definition rem (a b : number) : number :=
  match a, b with
  | Fin x, Fin y =>
      if Qeq_bool y 0 then NaN
      else Fin (Qred (x - y * inject_Z (truncate (x / y))))
  | Fin x, PosInfinity | Fin x, NegInfinity => Fin x
  | _, _ => NaN
  end.

(** [lo <= a <= hi] for a finite [a]. *)
Definition within (lo hi : Q) (a : number) : Prop :=
  exists q, a = Fin q /\ (lo <= q)%Q /\ (q <= hi)%Q.

(** [lo <= a < hi] for a finite [a]. *)
Definition within_open (lo hi : Q) (a : number) : Prop :=
  exists q, a = Fin q /\ (lo <= q)%Q /\ (q < hi)%Q.

End JS.

(** ** lodash *)
Module Lodash.
Import JS.

(** [baseClamp]: a [NaN] argument is returned as it is. *)
Definition baseClamp (n lower upper : number) : number :=
  if strict_eq n n then
    let n1 := if le n upper then n else upper in
    if ge n1 lower then n1 else lower
  else n.

(** [clamp(number, lower, upper)] with both bounds given: a bound that is
    [NaN] counts as 0. *)
Definition clamp (n lower upper : number) : number :=
  let upper' := if strict_eq upper upper then upper else of_Z 0 in
  let lower' := if strict_eq lower lower then lower else of_Z 0 in
  baseClamp n lower' upper'.

(** [isEqual]: deep equality, one instance per shape of value. *)
Class IsEqual (T : Type) : Type := { isEqual : T -> T -> bool }.

#[export] Instance IsEqual_number : IsEqual number :=
  {| isEqual := same_value_zero |}.

#[export] Instance IsEqual_bool : IsEqual bool :=
  {| isEqual := Bool.eqb |}.

#[export] Instance IsEqual_string : IsEqual string :=
  {| isEqual := String.eqb |}.

Fixpoint isEqual_list {T} (eq : T -> T -> bool) (a b : list T) : bool :=
  match a, b with
  | [], [] => true
  | x :: a', y :: b' => eq x y && isEqual_list eq a' b'
  | _, _ => false
  end.

#[export] Instance IsEqual_list {T} `{IsEqual T} : IsEqual (list T) :=
  {| isEqual := isEqual_list isEqual |}.

#[export] Instance IsEqual_option {T} `{IsEqual T} : IsEqual (option T) :=
  {| isEqual := fun a b =>
       match a, b with
       | Some x, Some y => isEqual x y
       | None, None => true
       | _, _ => false
       end |}.

#[export] Instance IsEqual_pair {A B} `{IsEqual A} `{IsEqual B} : IsEqual (A * B) :=
  {| isEqual := fun a b => isEqual (fst a) (fst b) && isEqual (snd a) (snd b) |}.

End Lodash.

(** ** MediaMachine.ts and constants.ts *)
Module MediaMachine.
Import JS.

Inductive MediaStatus : Type := LOADING | CAN_PLAY | RECOVERING | ERROR.

Definition DEFAULT_AUTO_BITRATE_INDEX : number := of_Z (-1).

Record BitrateInfo : Type := mkBitrateInfo {
  bitrate : number;
  width : number;
  height : number
}.

(** The content of a [TimeRanges] object: its [start(i)] and [end(i)]. *)
Definition TimeRanges : Type := list (number * number).

Record MediaValuesContext : Type := mkContext {
  currentTime : number;
  seeking : bool;
  duration : number;
  volume : number;
  playbackRate : number;
  paused : bool;
  muted : bool;
  ended : bool;
  status : MediaStatus;
  rotate : number;
  error : string;
  buffered : option TimeRanges;
  autoBitrateEnabled : bool;
  bitrateInfos : list BitrateInfo;
  currentBirateIndex : number
}.

(** One property of an object literal of type [Partial<MediaValuesContext>]. *)
Inductive Property : Type :=
| P_currentTime (v : number)
| P_seeking (v : bool)
| P_duration (v : number)
| P_volume (v : number)
| P_playbackRate (v : number)
| P_paused (v : bool)
| P_muted (v : bool)
| P_ended (v : bool)
| P_status (v : MediaStatus)
| P_rotate (v : number)
| P_error (v : string)
| P_buffered (v : option TimeRanges)
| P_autoBitrateEnabled (v : bool)
| P_bitrateInfos (v : list BitrateInfo)
| P_currentBirateIndex (v : number).

(** A [Partial<MediaValuesContext>]: its own properties, in insertion order. *)
Definition Partial : Type := list Property.

Inductive Key : Type :=
| K_currentTime | K_seeking | K_duration | K_volume | K_playbackRate
| K_paused | K_muted | K_ended | K_status | K_rotate | K_error | K_buffered
| K_autoBitrateEnabled | K_bitrateInfos | K_currentBirateIndex.

Definition key_of (p : Property) : Key :=
  match p with
  | P_currentTime _ => K_currentTime
  | P_seeking _ => K_seeking
  | P_duration _ => K_duration
  | P_volume _ => K_volume
  | P_playbackRate _ => K_playbackRate
  | P_paused _ => K_paused
  | P_muted _ => K_muted
  | P_ended _ => K_ended
  | P_status _ => K_status
  | P_rotate _ => K_rotate
  | P_error _ => K_error
  | P_buffered _ => K_buffered
  | P_autoBitrateEnabled _ => K_autoBitrateEnabled
  | P_bitrateInfos _ => K_bitrateInfos
  | P_currentBirateIndex _ => K_currentBirateIndex
  end.

Definition Key_eqb (a b : Key) : bool :=
  match a, b with
  | K_currentTime, K_currentTime | K_seeking, K_seeking
  | K_duration, K_duration | K_volume, K_volume
  | K_playbackRate, K_playbackRate | K_paused, K_paused
  | K_muted, K_muted | K_ended, K_ended | K_status, K_status
  | K_rotate, K_rotate | K_error, K_error | K_buffered, K_buffered
  | K_autoBitrateEnabled, K_autoBitrateEnabled
  | K_bitrateInfos, K_bitrateInfos
  | K_currentBirateIndex, K_currentBirateIndex => true
  | _, _ => false
  end.

(** [context[key]], packed with its key. *)
Definition read (k : Key) (c : MediaValuesContext) : Property :=
  match k with
  | K_currentTime => P_currentTime (currentTime c)
  | K_seeking => P_seeking (seeking c)
  | K_duration => P_duration (duration c)
  | K_volume => P_volume (volume c)
  | K_playbackRate => P_playbackRate (playbackRate c)
  | K_paused => P_paused (paused c)
  | K_muted => P_muted (muted c)
  | K_ended => P_ended (ended c)
  | K_status => P_status (status c)
  | K_rotate => P_rotate (rotate c)
  | K_error => P_error (error c)
  | K_buffered => P_buffered (buffered c)
  | K_autoBitrateEnabled => P_autoBitrateEnabled (autoBitrateEnabled c)
  | K_bitrateInfos => P_bitrateInfos (bitrateInfos c)
  | K_currentBirateIndex => P_currentBirateIndex (currentBirateIndex c)
  end.

(** Copying one own property onto a copy of [c], as a spread does. *)
Definition assign_property (c : MediaValuesContext) (p : Property)
  : MediaValuesContext :=
  let '(mkContext ct sk du vo pr pa mu en st ro er bu ab bi cb) := c in
  match p with
  | P_currentTime v => mkContext v sk du vo pr pa mu en st ro er bu ab bi cb
  | P_seeking v => mkContext ct v du vo pr pa mu en st ro er bu ab bi cb
  | P_duration v => mkContext ct sk v vo pr pa mu en st ro er bu ab bi cb
  | P_volume v => mkContext ct sk du v pr pa mu en st ro er bu ab bi cb
  | P_playbackRate v => mkContext ct sk du vo v pa mu en st ro er bu ab bi cb
  | P_paused v => mkContext ct sk du vo pr v mu en st ro er bu ab bi cb
  | P_muted v => mkContext ct sk du vo pr pa v en st ro er bu ab bi cb
  | P_ended v => mkContext ct sk du vo pr pa mu v st ro er bu ab bi cb
  | P_status v => mkContext ct sk du vo pr pa mu en v ro er bu ab bi cb
  | P_rotate v => mkContext ct sk du vo pr pa mu en st v er bu ab bi cb
  | P_error v => mkContext ct sk du vo pr pa mu en st ro v bu ab bi cb
  | P_buffered v => mkContext ct sk du vo pr pa mu en st ro er v ab bi cb
  | P_autoBitrateEnabled v => mkContext ct sk du vo pr pa mu en st ro er bu v bi cb
  | P_bitrateInfos v => mkContext ct sk du vo pr pa mu en st ro er bu ab v cb
  | P_currentBirateIndex v => mkContext ct sk du vo pr pa mu en st ro er bu ab bi v
  end.

(** The [context] of the machine configuration. *)
Definition initial_context : MediaValuesContext :=
  {| currentTime := of_Z 0;
     duration := of_Z 0;
     ended := false;
     error := EmptyString;
     muted := false;
     paused := true;
     playbackRate := of_Z 1;
     rotate := of_Z 0;
     seeking := false;
     status := LOADING;
     volume := of_Z 1;
     buffered := None;
     autoBitrateEnabled := true;
     bitrateInfos := [];
     currentBirateIndex := DEFAULT_AUTO_BITRATE_INDEX |}.

(** The assigner of the [updateMedia] action:
    [({ ...context, ...event.updateValues })]. *)
Definition updateMedia (context : MediaValuesContext) (updateValues : Partial)
  : MediaValuesContext :=
  fold_left assign_property updateValues context.

(** The spec's wording of a merge, kept apart from the code: in a
    left-to-right shallow merge of sources over a base, a key holds the value
    of the last source that has the key, and the base's value when none has. *)
Fixpoint last_with_key (k : Key) (ps : list Property) (found : option Property)
  : option Property :=
  match ps with
  | [] => found
  | p :: ps' =>
      last_with_key k ps' (if Key_eqb (key_of p) k then Some p else found)
  end.

Definition shallow_merge_key (k : Key) (base : MediaValuesContext)
  (sources : list Partial) : Property :=
  match last_with_key k (concat sources) None with
  | Some p => p
  | None => read k base
  end.

End MediaMachine.

(** ** The machine of @xstate/fsm

    [createMachine] gives the store one state, [ready], whose [UPDATE]
    transition has no target and one action, the assigner [updateMedia].
    A snapshot is an object: it has an identity, so objects live in a heap
    and a state holds a reference. *)
Module Fsm.
Import MediaMachine.

Inductive StateValue : Type := ready.

Inductive MediaEvent : Type :=
| UPDATE (updateValues : Partial).

(** The identity of a context object: its allocation index. *)
Definition Ref : Type := nat.

(** The context objects allocated so far, oldest first. *)
Definition Heap : Type := list MediaValuesContext.

Definition deref (h : Heap) (r : Ref) : MediaValuesContext :=
  nth r h initial_context.

Definition alloc (h : Heap) (c : MediaValuesContext) : Heap * Ref :=
  (h ++ [c], length h).

Record State : Type := mkState {
  value : StateValue;
  context : Ref;
  changed : option bool
}.

(** [machine.initialState]: it carries no [changed] property. *)
Definition initialState : Heap * State :=
  let '(h, r) := alloc [] initial_context in
  (h, {| value := ready; context := r; changed := None |}).

(** [machine.transition(state, event)].  The transition of [UPDATE] is
    targetless and runs an assign action: the assigner's result is a new
    object, and a state reached through an assign action is flagged
    [changed]. *)
Definition transition (h : Heap) (state : State) (event : MediaEvent)
  : Heap * State :=
  match value state, event with
  | ready, UPDATE updateValues =>
      let nextContext := updateMedia (deref h (context state)) updateValues in
      let '(h', r) := alloc h nextContext in
      (h', {| value := ready; context := r; changed := Some true |})
  end.

End Fsm.

(** ** MediaContext.tsx: [useMediaContext] *)
Module MediaContext.
Import JS Lodash MediaMachine Fsm.

(** The [selector] argument.  [selector === identity] is a test on the
    function object, so the default selector is a case of its own; it
    returns the context object it is given, that is a reference. *)
Inductive Selector : Type -> Type :=
| identity : Selector Ref
| select {TSelected : Type} {E : IsEqual TSelected}
    (f : MediaValuesContext -> TSelected) : Selector TSelected.

(** [selector(context)] *)
Definition apply_selector {T} (selector : Selector T) (h : Heap) (context : Ref)
  : T :=
  match selector in Selector T0 return T0 with
  | identity => context
  | select f => f (deref h context)
  end.

(** [state.changed !== true] *)
Definition not_changed (state : State) : bool :=
  match changed state with
  | Some true => false
  | _ => true
  end.

(** The callback given to [subscribe].  [service_state] is
    [mediaContext._mediaService.state] at the time of the call and [state] the
    callback's argument; the result is the argument of [setPartialState] when
    the callback calls it. *)
Definition listener {T} (selector : Selector T) (partialState : T)
  (h : Heap) (service_state : State) (state : State) : option T :=
  if not_changed state then None
  else
    match selector in Selector T0 return T0 -> option T0 with
    | identity => fun _ => Some (context state)
    | select f => fun partialState =>
        if negb (isEqual (f (deref h (context service_state))) partialState)
        then Some (f (deref h (context service_state)))
        else None
    end partialState.

(** A component that called [useMediaContext(selector)]: the state of its
    [useState] cell, and in [renders] the number of times the setter of that
    cell has changed it.  Each change makes React render the component
    again; React may commit the changes made during one event handler as a
    single render, so the renders committed are at most [renders], and at
    least one when [renders] is not zero. *)
Record Consumer : Type := mkConsumer {
  TSelected : Type;
  selector : Selector TSelected;
  partialState : TSelected;
  renders : nat
}.

(** [Object.is(next, current)], the test by which a state setter bails out.
    For the identity selector both are references to context objects.  A
    custom selector's value reaches the setter only when it is not deep-equal
    to the current one, so it is never the same value. *)
Definition Object_is {T} (selector : Selector T) : T -> T -> bool :=
  match selector in Selector T0 return T0 -> T0 -> bool with
  | identity => Nat.eqb
  | select _ => fun _ _ => false
  end.

(** [setPartialState(next)] *)
Definition setPartialState (c : Consumer) (next : TSelected c) : Consumer :=
  if Object_is (selector c) next (partialState c) then c
  else {| TSelected := TSelected c;
          selector := selector c;
          partialState := next;
          renders := S (renders c) |}.

(** One call of the consumer's subscription callback. *)
Definition notify (h : Heap) (service_state state : State) (c : Consumer)
  : Consumer :=
  match listener (selector c) (partialState c) h service_state state with
  | Some next => setPartialState c next
  | None => c
  end.

(** The first render: [useState(selector(service.state.context))]. *)
Definition first_render {T} (selector : Selector T) (h : Heap) (state : State)
  : Consumer :=
  {| TSelected := T;
     selector := selector;
     partialState := apply_selector selector h (context state);
     renders := 0 |}.

End MediaContext.

(** ** The interpreter of @xstate/fsm: [interpret(machine)] *)
Module Interpreter.
Import MediaMachine Fsm MediaContext.

Inductive InterpreterStatus : Type := NotStarted | Running | Stopped.

Record Service : Type := mkService {
  status : InterpreterStatus;
  state : State;
  heap : Heap;
  listeners : list Consumer
}.

Definition interpret : Service :=
  let '(h, s) := initialState in
  {| status := NotStarted; state := s; heap := h; listeners := [] |}.

Definition start (service : Service) : Service :=
  {| status := Running;
     state := state service;
     heap := heap service;
     listeners := listeners service |}.

(** [service.send(event)]: ignored unless the service runs; otherwise the
    state is replaced by the transition's and every listener is called with
    it, in subscription order. *)
Definition send (service : Service) (event : MediaEvent) : Service :=
  match status service with
  | Running =>
      let '(h', state') := transition (heap service) (state service) event in
      {| status := Running;
         state := state';
         heap := h';
         listeners := map (notify h' state' state') (listeners service) |}
  | _ => service
  end.

(** [service.subscribe(listener)]: the listener is added and called at once
    with the current state. *)
Definition subscribe (service : Service) (c : Consumer) : Service :=
  {| status := status service;
     state := state service;
     heap := heap service;
     listeners :=
       listeners service
       ++ [notify (heap service) (state service) (state service) c] |}.

(** [service.state.context], read. *)
Definition getSnapshot (service : Service) : MediaValuesContext :=
  deref (heap service) (context (state service)).

(** A component mounting: first render, then the effect that subscribes. *)
Definition mount {T} (selector : Selector T) (service : Service) : Service :=
  subscribe service (first_render selector (heap service) (state service)).

End Interpreter.

(** ** The media element, as far as the binder reads and writes it *)
Module HTMLMediaElement.
Import JS MediaMachine.

Record t : Type := mkElement {
  currentTime : number;
  duration : number;
  ended : bool;
  buffered : TimeRanges;
  playbackRate : number;
  muted : bool;
  volume : number;
  src : string;
  (** whether [play()] returns a promise (it returns [undefined] in IE) *)
  play_returns_promise : bool;
  (** whether [canPlayType("application/vnd.apple.mpegurl")] is non-empty *)
  canPlayType_mpegurl : bool;
  (** the playback rates this browser supports *)
  supports_playbackRate : number -> bool
}.

Definition set_currentTime (v : number) (m : t) : t :=
  mkElement v (duration m) (ended m) (buffered m) (playbackRate m) (muted m)
    (volume m) (src m) (play_returns_promise m) (canPlayType_mpegurl m)
    (supports_playbackRate m).

Definition set_playbackRate (v : number) (m : t) : t :=
  mkElement (currentTime m) (duration m) (ended m) (buffered m) v (muted m)
    (volume m) (src m) (play_returns_promise m) (canPlayType_mpegurl m)
    (supports_playbackRate m).

Definition set_muted (v : bool) (m : t) : t :=
  mkElement (currentTime m) (duration m) (ended m) (buffered m)
    (playbackRate m) v (volume m) (src m) (play_returns_promise m)
    (canPlayType_mpegurl m)
    (supports_playbackRate m).

Definition set_volume (v : number) (m : t) : t :=
  mkElement (currentTime m) (duration m) (ended m) (buffered m)
    (playbackRate m) (muted m) v (src m) (play_returns_promise m)
    (canPlayType_mpegurl m)
    (supports_playbackRate m).

Definition set_src (v : string) (m : t) : t :=
  mkElement (currentTime m) (duration m) (ended m) (buffered m)
    (playbackRate m) (muted m) (volume m) v (play_returns_promise m)
    (canPlayType_mpegurl m)
    (supports_playbackRate m).

(** The element accepts a volume only when it is a finite number of [0, 1];
    the setter throws on anything else. *)
Definition volume_accepted (v : number) : bool :=
  le (of_Z 0) v && le v (of_Z 1).

(** [currentTime] and [playbackRate] are attributes of type double: their
    setters throw a [TypeError] on [NaN], [Infinity] and [-Infinity], and
    leave the attribute as it was.  The setter of [playbackRate] throws as
    well on a rate the browser does not support. *)
Definition finite (v : number) : bool :=
  match v with
  | Fin _ => true
  | _ => false
  end.

(** The native transport calls, which the binder must order with care. *)
Inductive Call : Type := play | pause.

End HTMLMediaElement.

(** ** The streaming adapter (hls.js), as far as the binder drives it *)
Module Hls.
Import JS.

Inductive ErrorTypes : Type :=
| NETWORK_ERROR | MEDIA_ERROR | KEY_SYSTEM_ERROR | MUX_ERROR | OTHER_ERROR.

Record ErrorData : Type := mkErrorData {
  fatal : bool;
  type : ErrorTypes
}.

Record Level : Type := mkLevel {
  bitrate : number;
  width : option number;
  height : option number
}.

(** What the binder asks of the adapter: its method calls, and the
    assignment [hls.currentLevel = level], which is a call of the accessor's
    setter and asks for a switch to that level. *)
Inductive Call : Type :=
| attachMedia
| loadSource (url : string)
| startLoad
| recoverMediaError
| destroy
| assign_currentLevel (level : number).

Record t : Type := mkHls {
  (** what the accessor [currentLevel] reads: the level of the fragment being
      played, -1 while there is none.  The adapter alone moves it; an
      assignment is a request and is not read back. *)
  currentLevel : number;
  (** the requests received, oldest first *)
  calls : list Call;
  (** [destroy()] detaches every listener: no event is delivered after it *)
  destroyed : bool
}.

Definition create : t :=
  {| currentLevel := of_Z (-1); calls := []; destroyed := false |}.

Definition call (c : Call) (h : t) : t :=
  {| currentLevel := currentLevel h;
     calls := calls h ++ [c];
     destroyed := match c with destroy => true | _ => destroyed h end |}.

(** [hls.currentLevel = v] *)
Definition set_currentLevel (v : number) (h : t) : t :=
  call (assign_currentLevel v) h.

(** Playback reaches a fragment of the level [v] (-1: of none): from now on
    the accessor reads [v]. *)
Definition plays (v : number) (h : t) : t :=
  {| currentLevel := v; calls := calls h; destroyed := destroyed h |}.

End Hls.

(** ** MediaProvider.tsx: the media element binder *)
Module MediaProvider.
Import JS Lodash MediaMachine Fsm.

(** Timer ids are the positive integers [setTimeout] hands out; promise ids
    name the promises [play()] returned. *)
Definition TimerId : Type := positive.
Definition PromiseId : Type := nat.

(** The refs of the component, then the part of the event loop it uses. *)
Record World : Type := mkWorld {
  _playPromise : option PromiseId;
  _pausedRef : bool;
  _hlsRef : option Hls.t;
  _mediaRef : option HTMLMediaElement.t;
  _timeoutLoadingId : option TimerId;
  _mediaServiceRef : Interpreter.Service;
  (** the prop [initialDuration] *)
  initialDuration : number;
  (** [Hls.isSupported()] *)
  Hls_isSupported : bool;
  (** milliseconds *)
  clock : Z;
  (** pending timeouts with their due time; the one callback ever scheduled
      is [() => updateMediaService({ status: MediaStatus.LOADING })] *)
  timers : list (TimerId * Z);
  next_timer : TimerId;
  next_promise : PromiseId;
  (** settled play promises: [true] fulfilled, [false] rejected *)
  settled : list (PromiseId * bool);
  (** [setPaused] calls suspended at their [await], with the promise awaited *)
  awaiting : list PromiseId;
  (** the native transport calls issued on the element, oldest first *)
  element_calls : list HTMLMediaElement.Call;
  (** whether React holds the cleanup [releaseHlsResource] that the last run
      of the effect on [mediaSource] returned; React calls it before the next
      run of the effect and when the provider unmounts *)
  effect_cleanup : bool
}.

Definition with_playPromise (v : option PromiseId) (w : World) : World :=
  mkWorld v (_pausedRef w) (_hlsRef w) (_mediaRef w) (_timeoutLoadingId w)
    (_mediaServiceRef w) (initialDuration w) (Hls_isSupported w) (clock w)
    (timers w) (next_timer w) (next_promise w) (settled w) (awaiting w)
    (element_calls w) (effect_cleanup w).

Definition with_pausedRef (v : bool) (w : World) : World :=
  mkWorld (_playPromise w) v (_hlsRef w) (_mediaRef w) (_timeoutLoadingId w)
    (_mediaServiceRef w) (initialDuration w) (Hls_isSupported w) (clock w)
    (timers w) (next_timer w) (next_promise w) (settled w) (awaiting w)
    (element_calls w) (effect_cleanup w).

Definition with_hlsRef (v : option Hls.t) (w : World) : World :=
  mkWorld (_playPromise w) (_pausedRef w) v (_mediaRef w) (_timeoutLoadingId w)
    (_mediaServiceRef w) (initialDuration w) (Hls_isSupported w) (clock w)
    (timers w) (next_timer w) (next_promise w) (settled w) (awaiting w)
    (element_calls w) (effect_cleanup w).

Definition with_mediaRef (v : option HTMLMediaElement.t) (w : World) : World :=
  mkWorld (_playPromise w) (_pausedRef w) (_hlsRef w) v (_timeoutLoadingId w)
    (_mediaServiceRef w) (initialDuration w) (Hls_isSupported w) (clock w)
    (timers w) (next_timer w) (next_promise w) (settled w) (awaiting w)
    (element_calls w) (effect_cleanup w).

Definition with_timeoutLoadingId (v : option TimerId) (w : World) : World :=
  mkWorld (_playPromise w) (_pausedRef w) (_hlsRef w) (_mediaRef w) v
    (_mediaServiceRef w) (initialDuration w) (Hls_isSupported w) (clock w)
    (timers w) (next_timer w) (next_promise w) (settled w) (awaiting w)
    (element_calls w) (effect_cleanup w).

Definition with_mediaServiceRef (v : Interpreter.Service) (w : World) : World :=
  mkWorld (_playPromise w) (_pausedRef w) (_hlsRef w) (_mediaRef w)
    (_timeoutLoadingId w) v (initialDuration w) (Hls_isSupported w) (clock w)
    (timers w) (next_timer w) (next_promise w) (settled w) (awaiting w)
    (element_calls w) (effect_cleanup w).

Definition with_clock (v : Z) (w : World) : World :=
  mkWorld (_playPromise w) (_pausedRef w) (_hlsRef w) (_mediaRef w)
    (_timeoutLoadingId w) (_mediaServiceRef w) (initialDuration w)
    (Hls_isSupported w) v (timers w) (next_timer w) (next_promise w)
    (settled w) (awaiting w) (element_calls w) (effect_cleanup w).

Definition with_timers (v : list (TimerId * Z)) (n : TimerId) (w : World)
  : World :=
  mkWorld (_playPromise w) (_pausedRef w) (_hlsRef w) (_mediaRef w)
    (_timeoutLoadingId w) (_mediaServiceRef w) (initialDuration w)
    (Hls_isSupported w) (clock w) v n (next_promise w) (settled w)
    (awaiting w) (element_calls w) (effect_cleanup w).

Definition with_next_promise (v : PromiseId) (w : World) : World :=
  mkWorld (_playPromise w) (_pausedRef w) (_hlsRef w) (_mediaRef w)
    (_timeoutLoadingId w) (_mediaServiceRef w) (initialDuration w)
    (Hls_isSupported w) (clock w) (timers w) (next_timer w) v (settled w)
    (awaiting w) (element_calls w) (effect_cleanup w).

Definition with_settled (v : list (PromiseId * bool)) (w : World) : World :=
  mkWorld (_playPromise w) (_pausedRef w) (_hlsRef w) (_mediaRef w)
    (_timeoutLoadingId w) (_mediaServiceRef w) (initialDuration w)
    (Hls_isSupported w) (clock w) (timers w) (next_timer w) (next_promise w)
    v (awaiting w) (element_calls w) (effect_cleanup w).

Definition with_awaiting (v : list PromiseId) (w : World) : World :=
  mkWorld (_playPromise w) (_pausedRef w) (_hlsRef w) (_mediaRef w)
    (_timeoutLoadingId w) (_mediaServiceRef w) (initialDuration w)
    (Hls_isSupported w) (clock w) (timers w) (next_timer w) (next_promise w)
    (settled w) v (element_calls w) (effect_cleanup w).

Definition with_element_calls (v : list HTMLMediaElement.Call) (w : World)
  : World :=
  mkWorld (_playPromise w) (_pausedRef w) (_hlsRef w) (_mediaRef w)
    (_timeoutLoadingId w) (_mediaServiceRef w) (initialDuration w)
    (Hls_isSupported w) (clock w) (timers w) (next_timer w) (next_promise w)
    (settled w) (awaiting w) v (effect_cleanup w).

Definition with_effect_cleanup (v : bool) (w : World) : World :=
  mkWorld (_playPromise w) (_pausedRef w) (_hlsRef w) (_mediaRef w)
    (_timeoutLoadingId w) (_mediaServiceRef w) (initialDuration w)
    (Hls_isSupported w) (clock w) (timers w) (next_timer w) (next_promise w)
    (settled w) (awaiting w) (element_calls w) v.

(** The component as first rendered: [_pausedRef] starts [true], the service
    is started, the other refs are empty, and no effect has run yet. *)
Definition first_world (initialDuration : number) (isSupported : bool) : World :=
  {| _playPromise := None;
     _pausedRef := true;
     _hlsRef := None;
     _mediaRef := None;
     _timeoutLoadingId := None;
     _mediaServiceRef := Interpreter.start Interpreter.interpret;
     initialDuration := initialDuration;
     Hls_isSupported := isSupported;
     clock := 0;
     timers := [];
     next_timer := 1%positive;
     next_promise := 0%nat;
     settled := [];
     awaiting := [];
     element_calls := [];
     effect_cleanup := false |}.

(** *** Code that reads and writes the world, and may throw *)

Inductive Outcome (A : Type) : Type :=
| Returned (a : A) (w : World)
| Thrown (message : string) (w : World).
Arguments Returned {A} a w.
Arguments Thrown {A} message w.

Definition M (A : Type) : Type := World -> Outcome A.

Definition ret {A} (a : A) : M A := fun w => Returned a w.

Definition bind {A B} (c : M A) (k : A -> M B) : M B :=
  fun w =>
    match c w with
    | Returned a w' => k a w'
    | Thrown message w' => Thrown message w'
    end.

Definition throw {A} (message : string) : M A := fun w => Thrown message w.

Definition gets {A} (f : World -> A) : M A := fun w => Returned (f w) w.

Definition modify (f : World -> World) : M unit := fun w => Returned tt (f w).

Definition world_of {A} (o : Outcome A) : World :=
  match o with
  | Returned _ w => w
  | Thrown _ w => w
  end.

Definition thrown {A} (o : Outcome A) : option string :=
  match o with
  | Returned _ _ => None
  | Thrown message _ => Some message
  end.

Declare Scope binder_scope.
Delimit Scope binder_scope with binder.
Notation "x <- c ;; k" := (bind c (fun x => k))
  (at level 61, c at next level, right associativity) : binder_scope.
Notation "c ;; k" := (bind c (fun _ => k))
  (at level 61, right associativity) : binder_scope.
Open Scope binder_scope.
Open Scope string_scope.

Definition getSnapshot (w : World) : MediaValuesContext :=
  Interpreter.getSnapshot (_mediaServiceRef w).

Definition updateMediaService (updateValues : Partial) : M unit :=
  modify (fun w =>
    with_mediaServiceRef
      (Interpreter.send (_mediaServiceRef w) (UPDATE updateValues)) w).

Definition _getMedia : M HTMLMediaElement.t :=
  fun w =>
    match _mediaRef w with
    | Some media => Returned media w
    | None => Thrown "Media element is not available" w
    end.

Definition _getHls : M Hls.t :=
  fun w =>
    match _hlsRef w with
    | Some hls => Returned hls w
    | None => Thrown "HLS instance is not available" w
    end.

(** A method call or an assignment on the adapter object. *)
Definition on_hls (f : Hls.t -> Hls.t) : M unit :=
  modify (fun w => with_hlsRef (option_map f (_hlsRef w)) w).

(** An assignment to a property of the element. *)
Definition on_media (f : HTMLMediaElement.t -> HTMLMediaElement.t) : M unit :=
  modify (fun w => with_mediaRef (option_map f (_mediaRef w)) w).

Definition releaseHlsResource : M unit :=
  hls <- gets _hlsRef ;;
  match hls with
  | Some _ => on_hls (Hls.call Hls.destroy)
  | None => ret tt
  end.

(** *** The effect on [mediaSource] and the adapter's listeners *)

(** The body of [useEffect(..., [mediaSource, updateMediaService])].  The
    result tells whether the body returned the cleanup [releaseHlsResource]:
    with no source it returns nothing. *)
Definition useEffect_mediaSource (mediaSource : option string) : M bool :=
  match mediaSource with
  | None | Some EmptyString => ret false
  | Some source =>
      media <- _getMedia ;;
      releaseHlsResource ;;
      isSupported <- gets Hls_isSupported ;;
      (if isSupported then
         modify (with_hlsRef (Some Hls.create)) ;;
         on_hls (Hls.call Hls.attachMedia)
       else if HTMLMediaElement.canPlayType_mpegurl media then
         on_media (HTMLMediaElement.set_src source)
       else ret tt) ;;
      ret true
  end.

(** The cleanup React holds for the effect, called and given up. *)
Definition run_cleanup : M unit :=
  cleanup <- gets effect_cleanup ;;
  (if cleanup then releaseHlsResource else ret tt) ;;
  modify (with_effect_cleanup false).

(** React running the effect after a render with the prop [mediaSource]: the
    cleanup of the previous run first, then the body, whose cleanup is kept
    for the next time.  A body that throws leaves no cleanup. *)
Definition effect_runs (mediaSource : option string) : M unit :=
  run_cleanup ;;
  cleanup <- useEffect_mediaSource mediaSource ;;
  modify (with_effect_cleanup cleanup).

(** The provider unmounting: React calls the cleanup it holds. *)
Definition unmount : M unit := run_cleanup.

Definition on_MEDIA_ATTACHED (mediaSource : string) : M unit :=
  on_hls (Hls.call (Hls.loadSource mediaSource)).

(** [level.height || 0] *)
Definition or_zero (v : option number) : number :=
  match v with
  | Some (Fin q) => if Qeq_bool q 0 then of_Z 0 else Fin q
  | Some NaN | None => of_Z 0
  | Some n => n
  end.

Definition on_MANIFEST_PARSED (levels : list Hls.Level) : M unit :=
  let bitrateInfos :=
    map (fun level =>
           {| bitrate := Hls.bitrate level;
              height := or_zero (Hls.height level);
              width := or_zero (Hls.width level) |}) levels in
  updateMediaService [P_bitrateInfos bitrateInfos].

Definition on_LEVEL_SWITCHED (level : number) : M unit :=
  updateMediaService [P_currentBirateIndex level].

(** The listener of [Hls.Events.ERROR]. *)
Definition on_ERROR (data : Hls.ErrorData) : M unit :=
  if Hls.fatal data then
    match Hls.type data with
    | Hls.NETWORK_ERROR =>
        on_hls (Hls.call Hls.startLoad) ;;
        updateMediaService [P_status RECOVERING]
    | Hls.MEDIA_ERROR =>
        on_hls (Hls.call Hls.recoverMediaError) ;;
        updateMediaService [P_status RECOVERING]
    | _ =>
        on_hls (Hls.call Hls.destroy) ;;
        updateMediaService [P_status ERROR]
    end
  else ret tt.

(** The adapter delivering an event to a listener: an adapter that is not
    there or has been destroyed delivers nothing. *)
Definition deliver (listener : M unit) : M unit :=
  hls <- gets _hlsRef ;;
  match hls with
  | Some h => if Hls.destroyed h then ret tt else listener
  | None => ret tt
  end.

(** *** Readiness *)

(** The array the callback of [Array.from] builds, one entry per range. *)
Definition timeRange (range : number * number) : number * number :=
  let '(start, end_) := range in
  (if strict_eq (Math_floor start) (of_Z 0) then Math_floor start else start,
   end_).

Definition has_data_at (currentTime : number) (buffered : TimeRanges) : bool :=
  existsb
    (fun timeRange =>
       let '(start, end_) := timeRange in
       ge currentTime start && le currentTime end_)
    (map timeRange buffered).

Definition checkMediaHasDataToPlay : M bool :=
  media <- _getMedia ;;
  ret (has_data_at (HTMLMediaElement.currentTime media)
         (HTMLMediaElement.buffered media)).

(** *** Timers *)

Definition clearTimeout (id : TimerId) : M unit :=
  modify (fun w =>
    with_timers
      (filter (fun t => negb (Pos.eqb (fst t) id)) (timers w))
      (next_timer w) w).

(** [setTimeout(() => updateMediaService({ status: LOADING }), delay)] *)
Definition setTimeout (delay : Z) : M TimerId :=
  fun w =>
    let id := next_timer w in
    Returned id
      (with_timers (timers w ++ [(id, clock w + delay)]) (Pos.succ id) w).

Definition setLoadingStatus : M unit :=
  timeoutId <- gets _timeoutLoadingId ;;
  match timeoutId with
  | Some id => clearTimeout id
  | None => ret tt
  end ;;
  id <- setTimeout 1000 ;;
  modify (with_timeoutLoadingId (Some id)).

Definition setCanPlayStatus : M unit :=
  timeoutId <- gets _timeoutLoadingId ;;
  match timeoutId with
  | Some id => clearTimeout id
  | None => ret tt
  end ;;
  updateMediaService [P_status CAN_PLAY].

(** The timeout's callback. *)
Definition loading_callback : M unit :=
  updateMediaService [P_status LOADING].

(** *** Native transport calls *)

Definition media_pause : M unit :=
  modify (fun w =>
    with_element_calls (element_calls w ++ [HTMLMediaElement.pause]) w).

(** [media.play()]: a fresh pending promise where the browser has them. *)
Definition media_play (media : HTMLMediaElement.t) : M (option PromiseId) :=
  fun w =>
    let w1 := with_element_calls (element_calls w ++ [HTMLMediaElement.play]) w in
    if HTMLMediaElement.play_returns_promise media
    then Returned (Some (next_promise w))
           (with_next_promise (S (next_promise w)) w1)
    else Returned None w1.

(** *** Listeners of the element's events *)

Definition _onLoadedMetadata : M unit :=
  pausedRef <- gets _pausedRef ;;
  if negb pausedRef then
    media <- _getMedia ;;
    _ <- media_play media ;;
    ret tt
  else ret tt.

Definition _onSeeking : M unit :=
  media <- _getMedia ;;
  updateMediaService
    [P_seeking true;
     P_currentTime (HTMLMediaElement.currentTime media);
     P_ended (HTMLMediaElement.ended media)] ;;
  hasData <- checkMediaHasDataToPlay ;;
  if negb hasData then setLoadingStatus else ret tt.

Definition _onSeeked : M unit := updateMediaService [P_seeking false].

Definition _onRateChange : M unit :=
  media <- _getMedia ;;
  updateMediaService [P_playbackRate (HTMLMediaElement.playbackRate media)].

Definition _onVolumeChange : M unit :=
  media <- _getMedia ;;
  updateMediaService
    [P_muted (HTMLMediaElement.muted media);
     P_volume (HTMLMediaElement.volume media)].

Definition _onPause : M unit :=
  modify (with_pausedRef true) ;;
  media <- _getMedia ;;
  updateMediaService [P_paused true; P_ended (HTMLMediaElement.ended media)].

Definition _onPlay : M unit :=
  modify (with_pausedRef false) ;;
  media <- _getMedia ;;
  updateMediaService [P_paused false; P_ended (HTMLMediaElement.ended media)].

Definition _onCanPlay : M unit := setCanPlayStatus.

Definition _onProgress : M unit :=
  hasData <- checkMediaHasDataToPlay ;;
  (if hasData then setCanPlayStatus else ret tt) ;;
  media <- _getMedia ;;
  updateMediaService [P_buffered (Some (HTMLMediaElement.buffered media))].

Definition _onWaiting : M unit :=
  hasData <- checkMediaHasDataToPlay ;;
  if hasData then setCanPlayStatus else setLoadingStatus.

Definition _onTimeUpdate : M unit :=
  media <- _getMedia ;;
  updateMediaService [P_currentTime (HTMLMediaElement.currentTime media)].

Definition _onDurationChange : M unit :=
  media <- _getMedia ;;
  let duration := Math_round (HTMLMediaElement.duration media) in
  if strict_neq duration PosInfinity
  then updateMediaService [P_duration duration]
  else ret tt.

Definition _onError : M unit := updateMediaService [P_status ERROR].

(** *** Control methods *)

(** [media.currentTime = v]: the setter throws on a value that is not
    finite. *)
Definition assign_currentTime (v : number) : M unit :=
  if HTMLMediaElement.finite v
  then on_media (HTMLMediaElement.set_currentTime v)
  else throw "The provided double value is non-finite".

(** [media.playbackRate = v]: likewise, and the setter throws on a rate
    the browser does not support. *)
Definition assign_playbackRate (media : HTMLMediaElement.t) (v : number)
  : M unit :=
  if HTMLMediaElement.finite v then
    if HTMLMediaElement.supports_playbackRate media v
    then on_media (HTMLMediaElement.set_playbackRate v)
    else throw "The provided playback rate is not supported"
  else throw "The provided double value is non-finite".

Definition setCurrentTime (currentTime : number) : M unit :=
  media <- _getMedia ;;
  let newCurrentTime :=
    clamp currentTime (of_Z 0) (HTMLMediaElement.duration media) in
  assign_currentTime newCurrentTime.

Definition setPlaybackRate (playbackRate : number) : M unit :=
  media <- _getMedia ;;
  assign_playbackRate media playbackRate.

(** [media.volume = v]: the element's setter throws on a value it rejects. *)
Definition assign_volume (v : number) : M unit :=
  if HTMLMediaElement.volume_accepted v
  then on_media (HTMLMediaElement.set_volume v)
  else throw "The volume provided is outside the range [0, 1]".

Definition setVolume (volume : number) : M unit :=
  let newVolume := clamp volume (of_Z 0) (of_Z 1) in
  _ <- _getMedia ;;
  assign_volume newVolume.

Definition setMuted (muted : bool) : M unit :=
  _ <- _getMedia ;;
  on_media (HTMLMediaElement.set_muted muted).

(** What follows [await playPromise] in [setPaused], run when the awaited
    promise is fulfilled. *)
Definition setPaused_continuation : M unit :=
  modify (with_playPromise None) ;;
  pausedRef <- gets _pausedRef ;;
  if pausedRef then media_pause else ret tt.

(** [await playPromise]: the call is suspended on the promise. *)
Definition await (p : PromiseId) : M unit :=
  modify (fun w => with_awaiting (awaiting w ++ [p]) w).

(** [setPaused], up to its [await] or its end. *)
Definition setPaused (paused : bool) : M unit :=
  media <- _getMedia ;;
  modify (with_pausedRef paused) ;;
  updateMediaService [P_paused paused] ;;
  if paused then
    playPromise <- gets _playPromise ;;
    match playPromise with
    | Some p => await p
    | None => media_pause
    end
  else
    p <- media_play media ;;
    modify (with_playPromise p).

Definition setCurrentBirateIndex (bitrateIndex : number) : M unit :=
  updateMediaService
    [P_autoBitrateEnabled (strict_eq bitrateIndex DEFAULT_AUTO_BITRATE_INDEX);
     P_currentBirateIndex bitrateIndex] ;;
  hlsInstance <- _getHls ;;
  if strict_neq (Hls.currentLevel hlsInstance) bitrateIndex
  then on_hls (Hls.set_currentLevel bitrateIndex)
  else ret tt.

Definition setRotate (rotate : number) : M unit :=
  updateMediaService [P_rotate (rem rotate (of_Z 360))].

Definition _applyInitialDuration : M unit :=
  d <- gets initialDuration ;;
  updateMediaService [P_duration d].

(** *** The event loop *)

Fixpoint lookup {A} (p : PromiseId) (l : list (PromiseId * A)) : option A :=
  match l with
  | [] => None
  | (k, v) :: l' => if Nat.eqb k p then Some v else lookup p l'
  end.

Fixpoint remove_nth {A} (i : nat) (l : list A) : list A :=
  match i, l with
  | _, [] => []
  | O, _ :: l' => l'
  | S i', x :: l' => x :: remove_nth i' l'
  end.

(** A due timeout runs its callback; one that is not pending, or not yet
    due, does nothing. *)
Definition fire (id : TimerId) : M unit :=
  fun w =>
    match find (fun t => Pos.eqb (fst t) id) (timers w) with
    | Some (_, due) =>
        if Z.leb due (clock w) then (clearTimeout id ;; loading_callback) w
        else Returned tt w
    | None => Returned tt w
    end.

(** The browser settles a play promise, once. *)
Definition settle (p : PromiseId) (fulfilled : bool) : M unit :=
  fun w =>
    if (Nat.ltb p (next_promise w))
       && match lookup p (settled w) with None => true | Some _ => false end
    then Returned tt (with_settled (settled w ++ [(p, fulfilled)]) w)
    else Returned tt w.

(** The [i]-th suspended [setPaused] call is resumed, if the promise it
    awaits is settled: it runs on when the promise was fulfilled, and ends
    (the [await] throws) when it was rejected. *)
Definition resume (i : nat) : M unit :=
  fun w =>
    match nth_error (awaiting w) i with
    | Some p =>
        match lookup p (settled w) with
        | Some fulfilled =>
            let w' := with_awaiting (remove_nth i (awaiting w)) w in
            if fulfilled then setPaused_continuation w' else Returned tt w'
        | None => Returned tt w
        end
    | None => Returned tt w
    end.

(** What can happen to a mounted provider. *)
Inductive Event : Type :=
(* events of the element *)
| onLoadedMetadata | onSeeking | onSeeked | onRateChange | onVolumeChange
| onCanPlay | onWaiting | onPause | onPlay | onTimeUpdate | onProgress
| onDurationChange | onError
(* control methods called by consumers *)
| call_setCurrentTime (currentTime : number)
| call_setPlaybackRate (playbackRate : number)
| call_setVolume (volume : number)
| call_setMuted (muted : bool)
| call_setPaused (paused : bool)
| call_setCurrentBirateIndex (bitrateIndex : number)
| call_setRotate (rotate : number)
| call_applyInitialDuration
(* events of the adapter *)
| hls_MEDIA_ATTACHED (mediaSource : string)
| hls_MANIFEST_PARSED (levels : list Hls.Level)
| hls_LEVEL_SWITCHED (level : number)
| hls_ERROR (data : Hls.ErrorData)
(* the adapter's playback moving to another level *)
| hls_plays_level (level : number)
(* React and the browser *)
| effect_mediaSource (mediaSource : option string)
| provider_unmounts
| browser_element (media : HTMLMediaElement.t)
| elapse (ms : Z)
| timeout_fires (id : TimerId)
| promise_settles (p : PromiseId) (fulfilled : bool)
| continuation_resumes (i : nat).

Definition handler (e : Event) : M unit :=
  match e with
  | onLoadedMetadata => _onLoadedMetadata
  | onSeeking => _onSeeking
  | onSeeked => _onSeeked
  | onRateChange => _onRateChange
  | onVolumeChange => _onVolumeChange
  | onCanPlay => _onCanPlay
  | onWaiting => _onWaiting
  | onPause => _onPause
  | onPlay => _onPlay
  | onTimeUpdate => _onTimeUpdate
  | onProgress => _onProgress
  | onDurationChange => _onDurationChange
  | onError => _onError
  | call_setCurrentTime v => setCurrentTime v
  | call_setPlaybackRate v => setPlaybackRate v
  | call_setVolume v => setVolume v
  | call_setMuted v => setMuted v
  | call_setPaused v => setPaused v
  | call_setCurrentBirateIndex v => setCurrentBirateIndex v
  | call_setRotate v => setRotate v
  | call_applyInitialDuration => _applyInitialDuration
  | hls_MEDIA_ATTACHED source => deliver (on_MEDIA_ATTACHED source)
  | hls_MANIFEST_PARSED levels => deliver (on_MANIFEST_PARSED levels)
  | hls_LEVEL_SWITCHED level => deliver (on_LEVEL_SWITCHED level)
  | hls_ERROR data => deliver (on_ERROR data)
  | hls_plays_level level => on_hls (Hls.plays level)
  | effect_mediaSource source => effect_runs source
  | provider_unmounts => unmount
  | browser_element media => modify (with_mediaRef (Some media))
  | elapse ms => modify (fun w => with_clock (clock w + Z.max 0 ms) w)
  | timeout_fires id => fire id
  | promise_settles p fulfilled => settle p fulfilled
  | continuation_resumes i => resume i
  end.

(** One turn of the loop: what a handler did stays done when it throws. *)
Definition step (w : World) (e : Event) : World := world_of (handler e w).

Definition run (es : list Event) (w : World) : World := fold_left step es w.

(** The time that passes during a sequence of events. *)
Fixpoint elapsed (es : list Event) : Z :=
  match es with
  | [] => 0
  | elapse ms :: es' => Z.max 0 ms + elapsed es'
  | _ :: es' => elapsed es'
  end.

End MediaProvider.

(** ** App.tsx: the consumer of the sample application *)
Module App.
Import JS Lodash.

(** The object the selector of [ConnectedMediaComp] builds. *)
Record Selected : Type := mkSelected { currentTime : number }.

#[export] Instance IsEqual_Selected : IsEqual Selected :=
  {| isEqual := fun a b => isEqual (currentTime a) (currentTime b) |}.

(** [(mediaContext) => ({ currentTime: mediaContext.currentTime })] *)
Definition ConnectedMediaComp_selector
  (mediaContext : MediaMachine.MediaValuesContext) : Selected :=
  {| currentTime := MediaMachine.currentTime mediaContext |}.

(** The selector as [useMediaContext] receives it. *)
Definition ConnectedMediaComp_hook : MediaContext.Selector Selected :=
  MediaContext.select ConnectedMediaComp_selector.

End App.

(** ** Notions the properties are stated with *)
Module Spec.
Import JS MediaMachine Fsm.

(** A sequence of [update] calls on the store. *)
Definition updates (us : list Partial) (service : Interpreter.Service)
  : Interpreter.Service :=
  fold_left (fun s u => Interpreter.send s (UPDATE u)) us service.

(** The store of a session that has just started. *)
Definition started : Interpreter.Service :=
  Interpreter.start Interpreter.interpret.

(** Reachable stores hold a reference to an allocated object. *)
Definition well_formed (s : Interpreter.Service) : Prop :=
  (context (Interpreter.state s) < length (Interpreter.heap s))%nat.

(** An update whose fields are all identical to the current values. *)
Definition changes_nothing (u : Partial) (c : MediaValuesContext) : Prop :=
  forall p, In p u -> read (key_of p) c = p.

(** The provider's store runs from the first render on. *)
Definition running (w : MediaProvider.World) : Prop :=
  Interpreter.status (MediaProvider._mediaServiceRef w) = Interpreter.Running.

(** An element as the browser creates it: nothing loaded, full volume. *)
Definition new_element : HTMLMediaElement.t :=
  {| HTMLMediaElement.currentTime := of_Z 0;
     HTMLMediaElement.duration := NaN;
     HTMLMediaElement.ended := false;
     HTMLMediaElement.buffered := [];
     HTMLMediaElement.playbackRate := of_Z 1;
     HTMLMediaElement.muted := false;
     HTMLMediaElement.volume := of_Z 1;
     HTMLMediaElement.src := EmptyString;
     HTMLMediaElement.play_returns_promise := true;
     HTMLMediaElement.canPlayType_mpegurl := false;
     HTMLMediaElement.supports_playbackRate := fun _ => true |}.

(** A provider just mounted around the element [media]. *)
Definition mounted (media : HTMLMediaElement.t) : MediaProvider.World :=
  MediaProvider.with_mediaRef (Some media)
    (MediaProvider.first_world (of_Z 0) true).

Definition with_duration (d : number) (m : HTMLMediaElement.t)
  : HTMLMediaElement.t :=
  HTMLMediaElement.mkElement (HTMLMediaElement.currentTime m) d
    (HTMLMediaElement.ended m) (HTMLMediaElement.buffered m)
    (HTMLMediaElement.playbackRate m) (HTMLMediaElement.muted m)
    (HTMLMediaElement.volume m) (HTMLMediaElement.src m)
    (HTMLMediaElement.play_returns_promise m)
    (HTMLMediaElement.canPlayType_mpegurl m)
    (HTMLMediaElement.supports_playbackRate m).

(** The element at position [t] with the ranges [b] buffered. *)
Definition buffering (t : number) (b : TimeRanges) (m : HTMLMediaElement.t)
  : HTMLMediaElement.t :=
  HTMLMediaElement.mkElement t (HTMLMediaElement.duration m)
    (HTMLMediaElement.ended m) b
    (HTMLMediaElement.playbackRate m) (HTMLMediaElement.muted m)
    (HTMLMediaElement.volume m) (HTMLMediaElement.src m)
    (HTMLMediaElement.play_returns_promise m)
    (HTMLMediaElement.canPlayType_mpegurl m)
    (HTMLMediaElement.supports_playbackRate m).

(** The events the streaming adapter delivers to the binder's listeners. *)
Definition adapter_event (e : MediaProvider.Event) : bool :=
  match e with
  | MediaProvider.hls_MEDIA_ATTACHED _
  | MediaProvider.hls_MANIFEST_PARSED _
  | MediaProvider.hls_LEVEL_SWITCHED _
  | MediaProvider.hls_ERROR _ => true
  | _ => false
  end.

(** A piece of the binder keeps [I] when every world it is run from with
    [I] is left with [I], whether it returns or throws. *)
Definition preserves (I : MediaProvider.World -> Prop) {A}
  (c : MediaProvider.M A) : Prop :=
  forall w, I w -> I (MediaProvider.world_of (c w)).

(** An update that does not set the status to LOADING. *)
Definition no_loading (u : Partial) : bool :=
  forallb (fun p => match p with P_status LOADING => false | _ => true end) u.

(** The store runs and the status is not LOADING. *)
Definition calm (w : MediaProvider.World) : Prop :=
  running w /\ status (MediaProvider.getSnapshot w) <> LOADING.

(** The pending timeouts are at most the one [_timeoutLoadingId] names. *)
Definition tracked (w : MediaProvider.World) : Prop :=
  MediaProvider.timers w = []
  \/ exists id due,
       MediaProvider.timers w = [(id, due)]
       /\ MediaProvider._timeoutLoadingId w = Some id.

(** No pending timeout is due before the instant [D]. *)
Definition not_due_before (D : Z) (w : MediaProvider.World) : Prop :=
  forall id due, In (id, due) (MediaProvider.timers w) -> D <= due.

(** Inside the debounce window that closes at [D], with [b] milliseconds
    still to pass: the status is not LOADING, the clock stays short of [D]
    even after [b] more milliseconds, and a timeout scheduled from now on
    falls due at [D] or later. *)
Definition within_window (D b : Z) (w : MediaProvider.World) : Prop :=
  calm w /\ not_due_before D w
  /\ D - 1000 <= MediaProvider.clock w
  /\ 0 <= b /\ MediaProvider.clock w + b < D.

(** The status is not LOADING and no timeout is pending. *)
Definition idle (w : MediaProvider.World) : Prop :=
  calm w /\ MediaProvider.timers w = [].

(** The events that can schedule the LOADING timeout. *)
Definition schedules (e : MediaProvider.Event) : bool :=
  match e with
  | MediaProvider.onSeeking | MediaProvider.onWaiting => true
  | _ => false
  end.

Definition is_elapse (e : MediaProvider.Event) : bool :=
  match e with
  | MediaProvider.elapse _ => true
  | _ => false
  end.

(** The events that ask for a pause or report one: a call of
    [setPaused(true)] and the element's own pause event. *)
Definition no_pause_request (e : MediaProvider.Event) : bool :=
  match e with
  | MediaProvider.call_setPaused true | MediaProvider.onPause => false
  | _ => true
  end.

(** The latest request is to play, and since the calls [base] only
    [play()] has been called on the element. *)
Definition playing_since (base : list HTMLMediaElement.Call)
  (w : MediaProvider.World) : Prop :=
  MediaProvider._pausedRef w = false
  /\ exists n,
       MediaProvider.element_calls w
       = base ++ repeat HTMLMediaElement.play n.

(** Readiness as the specification words it: only the earliest range is
    normalised, its start replaced by 0 when the floor of the start is 0, and
    the position is playable when it lies within some range, bounds
    included. *)
Definition normalize_earliest (buffered : TimeRanges) : TimeRanges :=
  match buffered with
  | [] => []
  | (start, end_) :: later =>
      (if strict_eq (Math_floor start) (of_Z 0) then of_Z 0 else start, end_)
      :: later
  end.

Definition playable (currentTime : number) (buffered : TimeRanges) : bool :=
  existsb (fun r => le (fst r) currentTime && le currentTime (snd r))
    (normalize_earliest buffered).

End Spec.

(** ** utils.tsx *)
Module Utils.
Import JS MediaMachine.

(** [convertTimeRangesToSeconds]: every start is rounded down. *)
Definition convertTimeRangesToSeconds (buffered : TimeRanges) : TimeRanges :=
  map (fun range => (Math_floor (fst range), snd range)) buffered.

End Utils.

(** ** Notions for the properties of a whole session *)
Module Session.
Import JS MediaMachine.

(** The position [t] lies in the range [r], bounds included. *)
Definition inside (t : number) (r : number * number) : bool :=
  le (fst r) t && le t (snd r).

(** The listeners and control methods whose first action is [_getMedia()]. *)
Definition needs_element (e : MediaProvider.Event) : bool :=
  match e with
  | MediaProvider.onSeeking | MediaProvider.onRateChange
  | MediaProvider.onVolumeChange | MediaProvider.onWaiting
  | MediaProvider.onTimeUpdate | MediaProvider.onProgress
  | MediaProvider.onDurationChange
  | MediaProvider.call_setCurrentTime _
  | MediaProvider.call_setPlaybackRate _
  | MediaProvider.call_setVolume _
  | MediaProvider.call_setMuted _
  | MediaProvider.call_setPaused _ => true
  | _ => false
  end.

(** The event is a timeout firing. *)
Definition is_timeout (e : MediaProvider.Event) : bool :=
  match e with
  | MediaProvider.timeout_fires _ => true
  | _ => false
  end.

(** The update carries no property with key [k]. *)
Definition untouched (k : Key) (u : Partial) : bool :=
  forallb (fun p => negb (Key_eqb (key_of p) k)) u.

(** The part of the world the session invariants below are about. *)
Definition core (w : MediaProvider.World)
  : Interpreter.Service * option HTMLMediaElement.t * bool * number :=
  (MediaProvider._mediaServiceRef w, MediaProvider._mediaRef w,
   MediaProvider._pausedRef w, MediaProvider.initialDuration w).

Definition respects_core (I : MediaProvider.World -> Prop) : Prop :=
  forall w w', core w' = core w -> I w -> I w'.

(** A rotation as [% 360] leaves it: [NaN], or strictly between -360 and
    360. *)
Definition bounded_rotation (r : number) : Prop :=
  r = NaN \/ exists q, r = Fin q /\ (-360 < q)%Q /\ (q < 360)%Q.

Definition rotation_bounded (w : MediaProvider.World) : Prop :=
  Spec.running w
  /\ bounded_rotation (rotate (MediaProvider.getSnapshot w)).

(** Neither the prop [initialDuration] nor the stored duration is
    [Infinity]. *)
Definition duration_known (w : MediaProvider.World) : Prop :=
  Spec.running w
  /\ MediaProvider.initialDuration w <> PosInfinity
  /\ duration (MediaProvider.getSnapshot w) <> PosInfinity.

(** The stored volume and the element's volume are in [0, 1]. *)
Definition volume_in_range (w : MediaProvider.World) : Prop :=
  Spec.running w
  /\ within 0 1 (volume (MediaProvider.getSnapshot w))
  /\ forall m, MediaProvider._mediaRef w = Some m ->
               within 0 1 (HTMLMediaElement.volume m).

(** The browser hands over an element whose volume is in [0, 1]. *)
Definition element_volume_ok (e : MediaProvider.Event) : Prop :=
  match e with
  | MediaProvider.browser_element m => within 0 1 (HTMLMediaElement.volume m)
  | _ => True
  end.

(** The element is attached, and the snapshot's [paused] is the latest
    paused-state the binder recorded. *)
Definition paused_agrees (w : MediaProvider.World) : Prop :=
  Spec.running w
  /\ MediaProvider._mediaRef w <> None
  /\ paused (MediaProvider.getSnapshot w) = MediaProvider._pausedRef w.

(** The events whose handlers call [play()] or [pause()] on the element. *)
Definition transport_event (e : MediaProvider.Event) : bool :=
  match e with
  | MediaProvider.call_setPaused _ | MediaProvider.onLoadedMetadata
  | MediaProvider.continuation_resumes _ => true
  | _ => false
  end.

Definition is_pause (c : HTMLMediaElement.Call) : bool :=
  match c with
  | HTMLMediaElement.pause => true
  | HTMLMediaElement.play => false
  end.

(** The native pauses issued so far. *)
Definition pauses (w : MediaProvider.World) : list HTMLMediaElement.Call :=
  filter is_pause (MediaProvider.element_calls w).

Definition is_play_request (e : MediaProvider.Event) : bool :=
  match e with
  | MediaProvider.call_setPaused false => true
  | _ => false
  end.

(** The invariant behind a rejected play: the binder holds the play promise
    [p], which was rejected, every promise a suspended call awaits was
    rejected, and [issued] are the native pauses issued so far. *)
Definition holds_rejected (p : MediaProvider.PromiseId)
  (issued : list HTMLMediaElement.Call) (w : MediaProvider.World) : Prop :=
  MediaProvider._playPromise w = Some p
  /\ MediaProvider.lookup p (MediaProvider.settled w) = Some false
  /\ Forall (fun q =>
               MediaProvider.lookup q (MediaProvider.settled w) = Some false)
       (MediaProvider.awaiting w)
  /\ pauses w = issued.

(** The world after the bound adapter, if any, was told to destroy itself. *)
Definition released (w : MediaProvider.World) : MediaProvider.World :=
  match MediaProvider._hlsRef w with
  | Some hls =>
      MediaProvider.with_hlsRef (Some (Hls.call Hls.destroy hls)) w
  | None => w
  end.

(** The world after React called the cleanup it held for the effect. *)
Definition cleaned (w : MediaProvider.World) : MediaProvider.World :=
  MediaProvider.with_effect_cleanup false
    (if MediaProvider.effect_cleanup w then released w else w).

(** The requests that make the adapter load or recover. *)
Definition loads (c : Hls.Call) : bool :=
  match c with
  | Hls.loadSource _ | Hls.startLoad | Hls.recoverMediaError => true
  | _ => false
  end.

(** The bound adapter is destroyed, and [given] are the load and recovery
    requests it has received. *)
Definition abandoned (given : list Hls.Call) (w : MediaProvider.World) : Prop :=
  exists hls,
    MediaProvider._hlsRef w = Some hls
    /\ Hls.destroyed hls = true
    /\ filter loads (Hls.calls hls) = given.

(** The effect running with a source, which binds an adapter. *)
Definition binds_adapter (e : MediaProvider.Event) : bool :=
  match e with
  | MediaProvider.effect_mediaSource (Some (String _ _)) => true
  | _ => false
  end.

(** What the play and pause reconciliation reads and writes: the element,
    the latest requested paused-state, the promise held, the next promise,
    the settlements, the suspended calls and the native calls issued. *)
Definition transport (w : MediaProvider.World)
  : option HTMLMediaElement.t * bool * option MediaProvider.PromiseId
    * MediaProvider.PromiseId * list (MediaProvider.PromiseId * bool)
    * list MediaProvider.PromiseId * list HTMLMediaElement.Call :=
  (MediaProvider._mediaRef w, MediaProvider._pausedRef w,
   MediaProvider._playPromise w, MediaProvider.next_promise w,
   MediaProvider.settled w, MediaProvider.awaiting w,
   MediaProvider.element_calls w).

(** The play promise [p] is in flight: a call of [play()] returned it and
    the browser has not settled it. *)
Definition play_in_flight (p : MediaProvider.PromiseId)
  (w : MediaProvider.World) : Prop :=
  (p < MediaProvider.next_promise w)%nat
  /\ MediaProvider.lookup p (MediaProvider.settled w) = None.

(** No key of [u] is a key of [v]. *)
Definition disjoint_keys (u v : Partial) : bool :=
  forallb (fun p => untouched (key_of p) v) u.

End Session.

(** * Properties *)

(** ** The store *)
Section Store.
Import MediaMachine Fsm Interpreter.

Lemma deref_alloc (h : Heap) (c : MediaValuesContext) :
  deref (fst (alloc h c)) (snd (alloc h c)) = c.
Proof.
  unfold alloc, deref; simpl.
  rewrite app_nth2 by lia.
  now rewrite Nat.sub_diag.
Qed.

Lemma deref_alloc_old (h : Heap) (c : MediaValuesContext) (r : Ref) :
  (r < length h)%nat -> deref (fst (alloc h c)) r = deref h r.
Proof.
  intros Hr. unfold alloc, deref; simpl.
  now rewrite app_nth1.
Qed.

Lemma status_send (s : Service) (e : MediaEvent) :
  status (send s e) = status s.
Proof.
  unfold send. destruct (status s) eqn:E; try assumption.
  destruct e. unfold transition. now destruct (value (state s)).
Qed.

Lemma getSnapshot_send (s : Service) (u : Partial) :
  status s = Running ->
  getSnapshot (send s (UPDATE u)) = updateMedia (getSnapshot s) u.
Proof.
  intros Hrun. unfold send, getSnapshot. rewrite Hrun.
  unfold transition. destruct (value (state s)). simpl.
  apply (deref_alloc (heap s)).
Qed.

Lemma send_when_not_running (s : Service) (e : MediaEvent) :
  status s <> Running -> send s e = s.
Proof.
  intros Hidle. unfold send. destruct (status s); congruence.
Qed.

Lemma changed_send (s : Service) (u : Partial) :
  status s = Running -> changed (state (send s (UPDATE u))) = Some true.
Proof.
  intros Hrun. unfold send. rewrite Hrun.
  unfold transition. now destruct (value (state s)).
Qed.

Lemma status_updates (us : list Partial) (s : Service) :
  status (Spec.updates us s) = status s.
Proof.
  revert s. induction us as [|u us IH]; intros s; simpl; [reflexivity|].
  unfold Spec.updates in IH. rewrite IH. apply status_send.
Qed.

Lemma getSnapshot_updates (us : list Partial) (s : Service) :
  status s = Running ->
  getSnapshot (Spec.updates us s) = fold_left updateMedia us (getSnapshot s).
Proof.
  revert s. induction us as [|u us IH]; intros s Hrun; simpl; [reflexivity|].
  unfold Spec.updates in IH. rewrite IH.
  - now rewrite getSnapshot_send.
  - now rewrite status_send.
Qed.

Lemma fold_updateMedia_concat (us : list Partial) (c : MediaValuesContext) :
  fold_left updateMedia us c = fold_left assign_property (concat us) c.
Proof.
  revert c. induction us as [|u us IH]; intros c; simpl; [reflexivity|].
  rewrite fold_left_app. apply IH.
Qed.

Lemma read_assign_property (k : Key) (c : MediaValuesContext) (p : Property) :
  read k (assign_property c p) = if Key_eqb (key_of p) k then p else read k c.
Proof. destruct c, p, k; reflexivity. Qed.

Lemma last_with_key_found (k : Key) (ps : list Property) (found : option Property) :
  last_with_key k ps found =
  match last_with_key k ps None with
  | Some p => Some p
  | None => found
  end.
Proof.
  revert found. induction ps as [|p ps IH]; intros found; simpl; [reflexivity|].
  destruct (Key_eqb (key_of p) k).
  - rewrite (IH (Some p)). now destruct (last_with_key k ps None).
  - apply IH.
Qed.

Lemma read_fold_assign (k : Key) (ps : list Property) (c : MediaValuesContext) :
  read k (fold_left assign_property ps c) =
  match last_with_key k ps None with
  | Some p => p
  | None => read k c
  end.
Proof.
  revert c. induction ps as [|p ps IH]; intros c; simpl; [reflexivity|].
  rewrite IH, read_assign_property.
  destruct (Key_eqb (key_of p) k).
  - rewrite (last_with_key_found k ps (Some p)).
    now destruct (last_with_key k ps None).
  - reflexivity.
Qed.

Lemma heap_send_old (s : Service) (u : Partial) (r : Ref) :
  (r < length (heap s))%nat ->
  deref (heap (send s (UPDATE u))) r = deref (heap s) r.
Proof.
  intros Hr. unfold send. destruct (status s); try reflexivity.
  unfold transition. destruct (value (state s)). simpl.
  now apply (deref_alloc_old (heap s)).
Qed.

Lemma context_send_fresh (s : Service) (u : Partial) :
  status s = Running ->
  context (state (send s (UPDATE u))) = length (heap s).
Proof.
  intros Hrun. unfold send. rewrite Hrun.
  unfold transition. now destruct (value (state s)).
Qed.

Lemma well_formed_send (s : Service) (e : MediaEvent) :
  Spec.well_formed s -> Spec.well_formed (send s e).
Proof.
  unfold Spec.well_formed, send. intros Hwf.
  destruct (status s); try assumption.
  destruct e. unfold transition. destruct (value (state s)). simpl.
  rewrite length_app. simpl. lia.
Qed.

Lemma well_formed_updates (us : list Partial) (s : Service) :
  Spec.well_formed s -> Spec.well_formed (Spec.updates us s).
Proof.
  revert s. induction us as [|u us IH]; intros s Hwf; simpl; [assumption|].
  apply IH. now apply well_formed_send.
Qed.

Lemma well_formed_started : Spec.well_formed Spec.started.
Proof. unfold Spec.well_formed. simpl. lia. Qed.

End Store.

Section StoreHistory.
Import MediaMachine Fsm Interpreter.

Lemma length_heap_send (s : Service) (u : Partial) :
  status s = Running -> length (heap (send s (UPDATE u))) = S (length (heap s)).
Proof.
  intros Hrun. unfold send. rewrite Hrun.
  unfold transition. destruct (value (state s)). simpl.
  rewrite length_app. simpl. lia.
Qed.

Lemma length_heap_updates (us : list Partial) (s : Service) :
  status s = Running ->
  length (heap (Spec.updates us s)) = (length (heap s) + length us)%nat.
Proof.
  revert s. induction us as [|u us IH]; intros s Hrun; simpl; [lia|].
  unfold Spec.updates in IH. rewrite IH by now rewrite status_send.
  rewrite length_heap_send by assumption. lia.
Qed.

Lemma newest_updates (us : list Partial) (s : Service) :
  status s = Running ->
  S (context (state s)) = length (heap s) ->
  S (context (state (Spec.updates us s))) = length (heap (Spec.updates us s)).
Proof.
  revert s. induction us as [|u us IH]; intros s Hrun Hnew; simpl; [assumption|].
  apply IH.
  - now rewrite status_send.
  - rewrite context_send_fresh, length_heap_send by assumption. reflexivity.
Qed.

Lemma deref_updates_old (us : list Partial) (s : Service) (r : Ref) :
  (r < length (heap s))%nat ->
  deref (heap (Spec.updates us s)) r = deref (heap s) r.
Proof.
  revert s. induction us as [|u us IH]; intros s Hr; simpl; [reflexivity|].
  unfold Spec.updates in IH. rewrite IH.
  - now apply heap_send_old.
  - unfold send. destruct (status s); try assumption.
    unfold transition. destruct (value (state s)). simpl.
    rewrite length_app. simpl. lia.
Qed.

Lemma updates_app (us vs : list Partial) (s : Service) :
  Spec.updates (us ++ vs) s = Spec.updates vs (Spec.updates us s).
Proof. unfold Spec.updates. apply fold_left_app. Qed.

Lemma status_started : status Spec.started = Running.
Proof. reflexivity. Qed.

(** C1: after any sequence of [update] calls on a started store, the
    snapshot is the left-to-right shallow merge of the partial updates over
    the initial context: it is the fold of the spreads, and every key holds
    the value of the last update that carries the key, or the default when
    none does.  Each update makes a snapshot object that is none of the
    earlier ones, and a snapshot object obtained earlier keeps its content
    whatever updates follow. *)
Theorem C1_updates_shallow_merge :
  forall (us : list Partial),
    getSnapshot (Spec.updates us Spec.started)
    = fold_left updateMedia us initial_context
    /\ (forall k : Key,
          read k (getSnapshot (Spec.updates us Spec.started))
          = shallow_merge_key k initial_context us)
    /\ (forall (u : Partial) (later : list Partial),
          context (state (Spec.updates (us ++ u :: later) Spec.started))
          <> context (state (Spec.updates us Spec.started)))
    /\ (forall later : list Partial,
          deref (heap (Spec.updates (us ++ later) Spec.started))
            (context (state (Spec.updates us Spec.started)))
          = getSnapshot (Spec.updates us Spec.started)).
Proof.
  intros us.
  assert (Hsnap : getSnapshot (Spec.updates us Spec.started)
                  = fold_left updateMedia us initial_context).
  { rewrite getSnapshot_updates by apply status_started. reflexivity. }
  assert (Hnew : forall vs,
             S (context (state (Spec.updates vs Spec.started)))
             = (1 + length vs)%nat).
  { intros vs.
    rewrite (newest_updates vs Spec.started status_started eq_refl).
    rewrite length_heap_updates by apply status_started. reflexivity. }
  repeat split.
  - exact Hsnap.
  - intros k. rewrite Hsnap, fold_updateMedia_concat, read_fold_assign.
    reflexivity.
  - intros u later Heq.
    pose proof (Hnew (us ++ u :: later)) as H1.
    pose proof (Hnew us) as H2.
    rewrite Heq, H2, length_app in H1. simpl in H1. lia.
  - intros later. rewrite updates_app.
    apply deref_updates_old.
    pose proof (Hnew us) as H2.
    rewrite length_heap_updates by apply status_started.
    simpl. lia.
Qed.

End StoreHistory.

(** ** The binder *)
Section Binder.
Import JS Lodash MediaMachine Fsm MediaProvider Spec.

Lemma getSnapshot_updateMediaService (u : Partial) (w : World) :
  running w ->
  getSnapshot (world_of (updateMediaService u w)) = updateMedia (getSnapshot w) u.
Proof.
  intros Hrun. unfold updateMediaService, modify, getSnapshot. simpl.
  now apply getSnapshot_send.
Qed.

Lemma running_updateMediaService (u : Partial) (w : World) :
  running w -> running (world_of (updateMediaService u w)).
Proof.
  unfold running, updateMediaService, modify. simpl. intros Hrun.
  now rewrite status_send.
Qed.

Lemma Math_round_nearest (q : Q) :
  exists n : Z,
    Math_round (Fin q) = of_Z n
    /\ (inject_Z n - (1 # 2) <= q)%Q /\ (q < inject_Z n + (1 # 2))%Q.
Proof.
  exists (Qfloor (q + (1 # 2))). split; [reflexivity|].
  pose proof (Qfloor_le (q + (1 # 2))) as Hle.
  pose proof (Qlt_floor (q + (1 # 2))) as Hlt.
  rewrite inject_Z_plus in Hlt. change (inject_Z 1) with 1%Q in Hlt.
  split; lra.
Qed.


Lemma read_assign_other (k : Key) (c : MediaValuesContext) (p : Property) :
  k <> key_of p -> read k (assign_property c p) = read k c.
Proof.
  intros Hk. rewrite read_assign_property.
  destruct (Key_eqb (key_of p) k) eqn:E; [|reflexivity].
  exfalso. apply Hk. destruct p, k; simpl in E; solve [reflexivity | discriminate].
Qed.

(** C7: on a duration-change event, a reported duration of [Infinity] leaves
    the whole world, the snapshot included, as it was; any other reported
    duration changes the duration field alone, to [Math.round] of the reported
    value, which for a finite value is the nearest integer. *)
Theorem C7_duration_change :
  forall (w : World) (media : HTMLMediaElement.t),
    running w ->
    _mediaRef w = Some media ->
    let d := HTMLMediaElement.duration media in
    let w' := step w onDurationChange in
    (d = PosInfinity -> w' = w)
    /\ (d <> PosInfinity ->
        getSnapshot w' = assign_property (getSnapshot w) (P_duration (Math_round d))
        /\ duration (getSnapshot w') = Math_round d
        /\ forall k, k <> K_duration ->
                     read k (getSnapshot w') = read k (getSnapshot w))
    /\ (forall q, d = Fin q ->
        exists n : Z,
          Math_round d = of_Z n
          /\ (inject_Z n - (1 # 2) <= q)%Q /\ (q < inject_Z n + (1 # 2))%Q).
Proof.
  intros w media Hrun Href d w'.
  assert (Hstep : w' = if strict_neq (Math_round d) PosInfinity
                       then world_of (updateMediaService [P_duration (Math_round d)] w)
                       else w).
  { unfold w', step, handler, _onDurationChange, bind, _getMedia.
    rewrite Href. fold d. now destruct (strict_neq (Math_round d) PosInfinity). }
  clearbody w' d.
  split; [|split].
  - intros Hd. rewrite Hstep, Hd. reflexivity.
  - intros Hd.
    assert (Hneq : strict_neq (Math_round d) PosInfinity = true).
    { destruct d; try reflexivity. congruence. }
    rewrite Hneq in Hstep.
    assert (Hsnap : getSnapshot w'
                    = assign_property (getSnapshot w) (P_duration (Math_round d))).
    { rewrite Hstep, getSnapshot_updateMediaService by assumption. reflexivity. }
    split; [exact Hsnap|]. split.
    + rewrite Hsnap. now destruct (getSnapshot w).
    + intros k Hk. rewrite Hsnap. now apply read_assign_other.
  - intros q Hq. rewrite Hq. apply Math_round_nearest.
Qed.

Lemma C7_duration_change_witness :
  step (mounted (with_duration PosInfinity new_element)) onDurationChange
  = mounted (with_duration PosInfinity new_element)
  /\ duration
       (getSnapshot
          (step (mounted (with_duration (Fin (63 # 5)) new_element))
             onDurationChange))
     = of_Z 13.
Proof.
  split.
  - exact (proj1 (C7_duration_change
                    (mounted (with_duration PosInfinity new_element))
                    (with_duration PosInfinity new_element)
                    eq_refl eq_refl) eq_refl).
  - destruct (C7_duration_change
                (mounted (with_duration (Fin (63 # 5)) new_element))
                (with_duration (Fin (63 # 5)) new_element)
                eq_refl eq_refl) as (_ & H & _).
    destruct H as (_ & H & _); [discriminate|].
    rewrite H. reflexivity.
Defined.

(** C10: without a streaming adapter, [setCurrentBirateIndex] throws, and
    the snapshot it leaves behind already carries the requested index and the
    auto-bitrate flag computed from it; nothing else of the snapshot moved. *)
Theorem C10_setCurrentBirateIndex_without_adapter :
  forall (w : World) (bitrateIndex : number),
    running w ->
    _hlsRef w = None ->
    let outcome := setCurrentBirateIndex bitrateIndex w in
    thrown outcome = Some "HLS instance is not available"
    /\ getSnapshot (world_of outcome)
       = updateMedia (getSnapshot w)
           [P_autoBitrateEnabled
              (strict_eq bitrateIndex DEFAULT_AUTO_BITRATE_INDEX);
            P_currentBirateIndex bitrateIndex]
    /\ currentBirateIndex (getSnapshot (world_of outcome)) = bitrateIndex
    /\ autoBitrateEnabled (getSnapshot (world_of outcome))
       = strict_eq bitrateIndex DEFAULT_AUTO_BITRATE_INDEX
    /\ (forall k, k <> K_autoBitrateEnabled -> k <> K_currentBirateIndex ->
          read k (getSnapshot (world_of outcome)) = read k (getSnapshot w)).
Proof.
  intros w i Hrun Hhls outcome.
  set (u := [P_autoBitrateEnabled (strict_eq i DEFAULT_AUTO_BITRATE_INDEX);
             P_currentBirateIndex i]).
  assert (Hout : outcome
                 = Thrown "HLS instance is not available"
                     (world_of (updateMediaService u w))).
  { unfold outcome, setCurrentBirateIndex, bind, _getHls.
    fold u. unfold updateMediaService, modify. simpl. now rewrite Hhls. }
  clearbody outcome. subst outcome.
  assert (Hsnap : getSnapshot (world_of (updateMediaService u w))
                  = updateMedia (getSnapshot w) u)
    by now apply getSnapshot_updateMediaService.
  cbn [world_of thrown].
  repeat split.
  - exact Hsnap.
  - rewrite Hsnap. now destruct (getSnapshot w).
  - rewrite Hsnap. now destruct (getSnapshot w).
  - intros k Hk1 Hk2. rewrite Hsnap. unfold u, updateMedia. simpl.
    rewrite !read_assign_other; auto.
Qed.

Lemma C10_setCurrentBirateIndex_without_adapter_witness :
  thrown (setCurrentBirateIndex (of_Z 2) (mounted new_element))
  = Some "HLS instance is not available"
  /\ currentBirateIndex
       (getSnapshot
          (world_of (setCurrentBirateIndex (of_Z 2) (mounted new_element))))
     = of_Z 2
  /\ autoBitrateEnabled
       (getSnapshot
          (world_of (setCurrentBirateIndex (of_Z 2) (mounted new_element))))
     = false.
Proof.
  destruct (C10_setCurrentBirateIndex_without_adapter
              (mounted new_element) (of_Z 2) eq_refl eq_refl)
    as (H1 & _ & H2 & H3 & _).
  split; [exact H1|]. split; [exact H2|]. rewrite H3. reflexivity.
Defined.

Lemma destroyed_adapter_is_silent (w : World) (hls : Hls.t) (e : Event) :
  _hlsRef w = Some hls ->
  Hls.destroyed hls = true ->
  adapter_event e = true ->
  step w e = w.
Proof.
  intros Hhls Hdead He.
  destruct e; try discriminate;
    unfold step, handler, deliver, bind, gets; rewrite Hhls, Hdead; reflexivity.
Qed.

Lemma destroyed_adapter_stays_silent (es : list Event) (w : World) (hls : Hls.t) :
  _hlsRef w = Some hls ->
  Hls.destroyed hls = true ->
  forallb adapter_event es = true ->
  run es w = w.
Proof.
  intros Hhls Hdead. induction es as [|e es IH]; intros Hes; [reflexivity|].
  simpl in Hes. apply andb_prop in Hes as [He Hes].
  unfold run in *. simpl.
  rewrite (destroyed_adapter_is_silent w hls e Hhls Hdead He). now apply IH.
Qed.

(** *** Readiness *)

Lemma floor_is_zero (x : Q) :
  strict_eq (Math_floor (Fin x)) (of_Z 0) = true ->
  Math_floor (Fin x) = of_Z 0.
Proof.
  simpl. unfold Qeq_bool. simpl. intros H.
  apply Z.eqb_eq in H. rewrite Z.mul_1_r in H. now rewrite H.
Qed.

Lemma timeRange_earliest (r : number * number) :
  [timeRange r] = Spec.normalize_earliest [r].
Proof.
  destruct r as [start end_]. unfold timeRange, Spec.normalize_earliest.
  destruct start as [| | |x]; try reflexivity.
  destruct (strict_eq (Math_floor (Fin x)) (of_Z 0)) eqn:E; [|reflexivity].
  now rewrite (floor_is_zero x E).
Qed.

(** Where no later range starts within the first second, the code and the
    specification's wording of readiness agree. *)
Lemma readiness_agrees_when_later_ranges_start_late
  (t : number) (r : number * number) (later : TimeRanges) :
  Forall (fun r' => strict_eq (Math_floor (fst r')) (of_Z 0) = false) later ->
  has_data_at t (r :: later) = Spec.playable t (r :: later).
Proof.
  intros Hlater. unfold has_data_at, Spec.playable.
  pose proof (timeRange_earliest r) as Hr.
  destruct r as [start end_]. simpl in Hr. simpl map.
  injection Hr as Hr. rewrite Hr. simpl. unfold ge. f_equal.
  induction Hlater as [|[s e] later Hs _ IH]; [reflexivity|].
  simpl in *. rewrite Hs, IH. reflexivity.
Qed.

(** The example of the specification: with [[0.0056, 10], [15, 20]] buffered
    and the position at 0, the check answers [true], and the first range
    enters the comparison with its start at 0. *)
Lemma readiness_example :
  let buffered := [(Fin (7 # 1250), of_Z 10); (of_Z 15, of_Z 20)] in
  has_data_at (of_Z 0) buffered = true
  /\ map timeRange buffered = [(of_Z 0, of_Z 10); (of_Z 15, of_Z 20)].
Proof. split; reflexivity. Qed.

(** C2: the code gives up the claimed equivalence on a range that is not
    the earliest.  With [[0, 0.2], [0.5, 0.9]] buffered and the position at
    0.3, the second range's start 0.5 has floor 0 and is replaced by 0, so
    the check answers [true]; by the specification's wording, which
    normalises the earliest range only, the position lies in no range. *)
Theorem C2_later_range_start_is_floored :
  forall (w : World) (media : HTMLMediaElement.t),
    _mediaRef w = Some media ->
    HTMLMediaElement.currentTime media = Fin (3 # 10) ->
    HTMLMediaElement.buffered media
    = [(of_Z 0, Fin (1 # 5)); (Fin (1 # 2), Fin (9 # 10))] ->
    checkMediaHasDataToPlay w = Returned true w
    /\ Spec.playable (HTMLMediaElement.currentTime media)
         (HTMLMediaElement.buffered media) = false.
Proof.
  intros w media Href Ht Hb.
  unfold checkMediaHasDataToPlay, bind, _getMedia, ret.
  rewrite Href, Ht, Hb. split; reflexivity.
Qed.

Lemma C2_later_range_start_is_floored_witness :
  checkMediaHasDataToPlay
    (mounted (buffering (Fin (3 # 10))
                [(of_Z 0, Fin (1 # 5)); (Fin (1 # 2), Fin (9 # 10))]
                new_element))
  = Returned true
      (mounted (buffering (Fin (3 # 10))
                  [(of_Z 0, Fin (1 # 5)); (Fin (1 # 2), Fin (9 # 10))]
                  new_element))
  /\ Spec.playable (Fin (3 # 10))
       [(of_Z 0, Fin (1 # 5)); (Fin (1 # 2), Fin (9 # 10))] = false.
Proof.
  exact (C2_later_range_start_is_floored
           (mounted (buffering (Fin (3 # 10))
                       [(of_Z 0, Fin (1 # 5)); (Fin (1 # 2), Fin (9 # 10))]
                       new_element))
           (buffering (Fin (3 # 10))
              [(of_Z 0, Fin (1 # 5)); (Fin (1 # 2), Fin (9 # 10))]
              new_element)
           eq_refl eq_refl eq_refl).
Defined.

(** *** Setters *)

Lemma clamp_unit_within (v : number) :
  v <> NaN -> within 0 1 (clamp v (of_Z 0) (of_Z 1)).
Proof.
  intros Hv. destruct v as [| | |q]; [congruence| | |].
  - exists 1%Q. repeat split; [discriminate|apply Qle_refl].
  - exists 0%Q. repeat split; [apply Qle_refl|discriminate].
  - unfold clamp, baseClamp, ge, of_Z. simpl.
    rewrite (Qeq_bool_refl q).
    destruct (Qle_bool q (inject_Z 1)) eqn:Hup; simpl.
    + destruct (Qle_bool (inject_Z 0) q) eqn:Hlo.
      * exists q. apply Qle_bool_iff in Hup, Hlo. now repeat split.
      * exists 0%Q. repeat split; [apply Qle_refl|discriminate].
    + exists 1%Q. repeat split; [discriminate|apply Qle_refl].
Qed.

Lemma within_unit_accepted (v : number) :
  within 0 1 v -> HTMLMediaElement.volume_accepted v = true.
Proof.
  intros (q & -> & Hlo & Hup). unfold HTMLMediaElement.volume_accepted. simpl.
  apply andb_true_intro. split; now apply Qle_bool_iff.
Qed.

Lemma rem_360_of_nonnegative (q : Q) :
  (0 <= q)%Q -> within_open 0 360 (rem (Fin q) (of_Z 360)).
Proof.
  intros Hq. unfold rem, of_Z.
  change (Qeq_bool (inject_Z 360) 0) with false. cbv iota.
  set (x := (q / inject_Z 360)%Q).
  assert (Hx : (q == x * 360)%Q).
  { unfold x. change (inject_Z 360) with 360%Q. field. }
  assert (Hx0 : (0 <= x)%Q) by lra.
  unfold truncate. apply Qle_bool_iff in Hx0 as Hb. rewrite Hb.
  pose proof (Qfloor_le x) as Hle.
  pose proof (Qlt_floor x) as Hlt.
  rewrite inject_Z_plus in Hlt. change (inject_Z 1) with 1%Q in Hlt.
  eexists. split; [reflexivity|].
  rewrite Qred_correct. change (inject_Z 360) with 360%Q. split; lra.
Qed.

(** What the remainder does to a negative angle: the sign is kept. *)
Lemma rem_360_of_negative (q : Q) :
  (q < 0)%Q ->
  exists r, rem (Fin q) (of_Z 360) = Fin r /\ (-360 < r)%Q /\ (r <= 0)%Q.
Proof.
  intros Hq. unfold rem, of_Z.
  change (Qeq_bool (inject_Z 360) 0) with false. cbv iota.
  set (x := (q / inject_Z 360)%Q).
  assert (Hx : (q == x * 360)%Q).
  { unfold x. change (inject_Z 360) with 360%Q. field. }
  assert (Hx0 : ~ (0 <= x)%Q) by lra.
  unfold truncate.
  destruct (Qle_bool 0 x) eqn:Hb; [apply Qle_bool_iff in Hb; contradiction|].
  unfold Qceiling.
  pose proof (Qfloor_le (- x)) as Hle.
  pose proof (Qlt_floor (- x)) as Hlt.
  rewrite inject_Z_plus in Hlt. change (inject_Z 1) with 1%Q in Hlt.
  eexists. split; [reflexivity|].
  rewrite Qred_correct, inject_Z_opp. change (inject_Z 360) with 360%Q.
  split; lra.
Qed.

(** C8, as the code has it: for every argument but [NaN], [setVolume]
    assigns to the element the argument clamped into [0, 1] (1 for 1.5, 0 for
    -1), and that is the volume the snapshot stores on the volume-change
    event that follows; for every finite argument that is not negative,
    [setRotate] stores the argument modulo 360, a value of [0, 360) (10 for
    370). *)
Theorem C8_setters_normalize :
  forall (w : World) (media : HTMLMediaElement.t),
    running w ->
    _mediaRef w = Some media ->
    (forall v, v <> NaN ->
       let w1 := step w (call_setVolume v) in
       _mediaRef w1
       = Some (HTMLMediaElement.set_volume (clamp v (of_Z 0) (of_Z 1)) media)
       /\ within 0 1 (clamp v (of_Z 0) (of_Z 1))
       /\ volume (getSnapshot (step w1 onVolumeChange))
          = clamp v (of_Z 0) (of_Z 1))
    /\ clamp (Fin (3 # 2)) (of_Z 0) (of_Z 1) = of_Z 1
    /\ clamp (of_Z (-1)) (of_Z 0) (of_Z 1) = of_Z 0
    /\ (forall q, (0 <= q)%Q ->
          rotate (getSnapshot (step w (call_setRotate (Fin q))))
          = rem (Fin q) (of_Z 360)
          /\ within_open 0 360
               (rotate (getSnapshot (step w (call_setRotate (Fin q))))))
    /\ rotate (getSnapshot (step w (call_setRotate (of_Z 370)))) = of_Z 10.
Proof.
  intros w media Hrun Href.
  assert (Hrot : forall r,
             rotate (getSnapshot (step w (call_setRotate r)))
             = rem r (of_Z 360)).
  { intros r. unfold step, handler, setRotate.
    rewrite getSnapshot_updateMediaService by assumption.
    unfold updateMedia. simpl. now destruct (getSnapshot w). }
  split; [|split; [reflexivity|split; [reflexivity|split]]].
  - intros v Hv w1.
    pose proof (clamp_unit_within v Hv) as Hin.
    assert (Hw1 : w1 = with_mediaRef
                         (Some (HTMLMediaElement.set_volume
                                  (clamp v (of_Z 0) (of_Z 1)) media)) w).
    { unfold w1, step, handler, setVolume, bind, _getMedia, assign_volume.
      rewrite Href, (within_unit_accepted _ Hin).
      unfold on_media, modify. simpl. now rewrite Href. }
    clearbody w1. subst w1. split; [reflexivity|]. split; [exact Hin|].
    unfold step, handler, _onVolumeChange, bind, _getMedia. simpl.
    unfold updateMediaService, modify, getSnapshot. simpl.
    rewrite getSnapshot_send by assumption.
    unfold updateMedia. simpl.
    now destruct (Interpreter.getSnapshot (_mediaServiceRef w)).
  - intros q Hq. rewrite Hrot. split; [reflexivity|].
    now apply rem_360_of_nonnegative.
  - rewrite Hrot. reflexivity.
Qed.

Lemma C8_setters_normalize_witness :
  volume
    (getSnapshot
       (step (step (mounted new_element) (call_setVolume (Fin (3 # 2))))
          onVolumeChange))
  = of_Z 1
  /\ within_open 0 360
       (rotate
          (getSnapshot (step (mounted new_element) (call_setRotate (Fin 725))))).
Proof.
  destruct (C8_setters_normalize (mounted new_element) new_element
              eq_refl eq_refl) as (Hv & _ & _ & Hr & _).
  split.
  - destruct (Hv (Fin (3 # 2)) ltac:(discriminate)) as (_ & _ & H).
    rewrite H. reflexivity.
  - apply (Hr 725%Q). discriminate.
Defined.

(** C8, as stated, fails on a negative angle: [setRotate(-10)] stores -10. *)
Lemma C8_negative_rotate_counterexample :
  rotate (getSnapshot (step (mounted new_element) (call_setRotate (of_Z (-10)))))
  = of_Z (-10)
  /\ ~ within_open 0 360
        (rotate
           (getSnapshot
              (step (mounted new_element) (call_setRotate (of_Z (-10)))))).
Proof.
  assert (H : rotate (getSnapshot
                        (step (mounted new_element)
                           (call_setRotate (of_Z (-10)))))
              = of_Z (-10)) by reflexivity.
  split; [exact H|].
  rewrite H. intros (q & Hq & Hlo & _).
  injection Hq as <-. now apply Hlo.
Qed.

End Binder.

(** ** The selector layer *)
Section Selectors.
Import JS Lodash MediaMachine Fsm MediaContext.

Lemma same_value_zero_refl (x : number) : same_value_zero x x = true.
Proof. destruct x; try reflexivity. simpl. apply Qeq_bool_refl. Qed.

Lemma updateMedia_changes_nothing (u : Partial) (c : MediaValuesContext) :
  Spec.changes_nothing u c -> updateMedia c u = c.
Proof.
  unfold updateMedia. induction u as [|p u IH]; intros Hu; [reflexivity|].
  simpl. assert (Hp : assign_property c p = c).
  { pose proof (Hu p (or_introl eq_refl)) as Hread.
    destruct c, p; simpl in Hread; injection Hread as <-; reflexivity. }
  rewrite Hp. apply IH. intros q Hq. apply Hu. now right.
Qed.

(** What a subscribed consumer does when the store has just taken an
    update: the state it is called with is flagged, so only the selector
    decides. *)
Lemma notify_select_after_send
  (s : Interpreter.Service) (u : Partial)
  (T : Type) (E : IsEqual T) (f : MediaValuesContext -> T) (ps : T) (n : nat) :
  Interpreter.status s = Interpreter.Running ->
  let s' := Interpreter.send s (UPDATE u) in
  notify (Interpreter.heap s') (Interpreter.state s') (Interpreter.state s')
    (mkConsumer T (select f) ps n)
  = if isEqual (f (Interpreter.getSnapshot s')) ps
    then mkConsumer T (select f) ps n
    else mkConsumer T (select f) (f (Interpreter.getSnapshot s')) (S n).
Proof.
  intros Hrun s'. unfold notify, listener, not_changed. simpl.
  unfold s'. rewrite changed_send by assumption.
  fold s'. unfold Interpreter.getSnapshot.
  now destruct (isEqual (f (deref (Interpreter.heap s')
                              (context (Interpreter.state s')))) ps).
Qed.

Lemma notify_identity_after_send
  (s : Interpreter.Service) (u : Partial) (ps : Ref) (n : nat) :
  Interpreter.status s = Interpreter.Running ->
  (ps < length (Interpreter.heap s))%nat ->
  let s' := Interpreter.send s (UPDATE u) in
  notify (Interpreter.heap s') (Interpreter.state s') (Interpreter.state s')
    (mkConsumer Ref identity ps n)
  = mkConsumer Ref identity (context (Interpreter.state s')) (S n).
Proof.
  intros Hrun Hps s'. unfold notify, listener, not_changed. simpl.
  unfold s'. rewrite changed_send by assumption.
  unfold setPartialState. simpl.
  rewrite context_send_fresh by assumption.
  destruct (Nat.eqb_spec (length (Interpreter.heap s)) ps); [lia|reflexivity].
Qed.

Lemma listeners_send (s : Interpreter.Service) (u : Partial) :
  Interpreter.status s = Interpreter.Running ->
  let s' := Interpreter.send s (UPDATE u) in
  Interpreter.listeners s'
  = map (notify (Interpreter.heap s') (Interpreter.state s')
           (Interpreter.state s'))
      (Interpreter.listeners s).
Proof.
  intros Hrun. unfold Interpreter.send. rewrite Hrun.
  unfold transition. now destruct (value (Interpreter.state s)).
Qed.



(** C3, as the code has it: an update whose fields all equal the current
    values leaves the snapshot's content as it was, yet the listeners are
    called with a state flagged as changed.  A consumer with a selector of its
    own whose slice is up to date does not call its state setter, so it is not
    re-rendered; a consumer with the identity selector receives the new
    snapshot object and is re-rendered. *)
Theorem C3_update_that_changes_nothing :
  forall (s : Interpreter.Service) (u : Partial),
    Interpreter.status s = Interpreter.Running ->
    Spec.changes_nothing u (Interpreter.getSnapshot s) ->
    let s' := Interpreter.send s (UPDATE u) in
    Interpreter.getSnapshot s' = Interpreter.getSnapshot s
    /\ changed (Interpreter.state s') = Some true
    /\ (forall (T : Type) (E : IsEqual T) (f : MediaValuesContext -> T)
               (ps : T) (n : nat),
          isEqual (f (Interpreter.getSnapshot s)) ps = true ->
          notify (Interpreter.heap s') (Interpreter.state s')
            (Interpreter.state s') (mkConsumer T (select f) ps n)
          = mkConsumer T (select f) ps n)
    /\ (forall (ps : Ref) (n : nat),
          (ps < length (Interpreter.heap s))%nat ->
          notify (Interpreter.heap s') (Interpreter.state s')
            (Interpreter.state s') (mkConsumer Ref identity ps n)
          = mkConsumer Ref identity (context (Interpreter.state s')) (S n)).
Proof.
  intros s u Hrun Hu s'.
  assert (Hsnap : Interpreter.getSnapshot s' = Interpreter.getSnapshot s).
  { unfold s'. rewrite getSnapshot_send by assumption.
    now apply updateMedia_changes_nothing. }
  split; [exact Hsnap|]. split; [now apply changed_send|]. split.
  - intros T E f ps n Hsync. unfold s'.
    rewrite notify_select_after_send by assumption.
    fold s'. now rewrite Hsnap, Hsync.
  - intros ps n Hps. now apply notify_identity_after_send.
Qed.

Lemma C3_update_that_changes_nothing_witness :
  Spec.changes_nothing [P_volume (of_Z 1); P_paused true]
    (Interpreter.getSnapshot Spec.started)
  /\ Interpreter.getSnapshot
       (Interpreter.send Spec.started
          (UPDATE [P_volume (of_Z 1); P_paused true]))
     = Interpreter.getSnapshot Spec.started
  /\ changed
       (Interpreter.state
          (Interpreter.send Spec.started
             (UPDATE [P_volume (of_Z 1); P_paused true])))
     = Some true.
Proof.
  assert (Hu : Spec.changes_nothing [P_volume (of_Z 1); P_paused true]
                 (Interpreter.getSnapshot Spec.started)).
  { intros p [<-|[<-|[]]]; reflexivity. }
  split; [exact Hu|].
  destruct (C3_update_that_changes_nothing Spec.started
              [P_volume (of_Z 1); P_paused true] eq_refl Hu)
    as (H1 & H2 & _).
  split; [exact H1|exact H2].
Defined.

(** C3, as stated, fails for a consumer that uses the identity selector:
    mounted on a fresh store, it is called with [changed = true] and
    re-rendered by an update that sets the volume to the value it has. *)
Lemma C3_identity_consumer_counterexample :
  let s := Interpreter.mount identity Spec.started in
  let u := [P_volume (of_Z 1)] in
  Spec.changes_nothing u (Interpreter.getSnapshot s)
  /\ changed (Interpreter.state (Interpreter.send s (UPDATE u))) = Some true
  /\ map renders (Interpreter.listeners s) = [0%nat]
  /\ map renders (Interpreter.listeners (Interpreter.send s (UPDATE u)))
     = [1%nat].
Proof.
  repeat split. intros p [<-|[]]. reflexivity.
Qed.

End Selectors.

(** ** Keeping an invariant through the binder's code *)
Section Preservation.
Import JS Lodash MediaMachine Fsm MediaProvider Spec.

Variable I : World -> Prop.

Lemma preserves_bind {A B} (c : M A) (k : A -> M B) :
  preserves I c -> (forall a, preserves I (k a)) -> preserves I (bind c k).
Proof.
  intros Hc Hk w Hw. unfold bind. specialize (Hc w Hw).
  destruct (c w) as [a w'|msg w']; simpl in *.
  - now apply Hk.
  - assumption.
Qed.

Lemma preserves_ret {A} (a : A) : preserves I (ret a).
Proof. intros w Hw. exact Hw. Qed.

Lemma preserves_gets {A} (f : World -> A) : preserves I (gets f).
Proof. intros w Hw. exact Hw. Qed.

Lemma preserves_throw {A} (msg : string) : preserves I (@throw A msg).
Proof. intros w Hw. exact Hw. Qed.

Lemma preserves_getMedia : preserves I _getMedia.
Proof. intros w Hw. unfold _getMedia. now destruct (_mediaRef w). Qed.

Lemma preserves_getHls : preserves I _getHls.
Proof. intros w Hw. unfold _getHls. now destruct (_hlsRef w). Qed.

Lemma preserves_modify (f : World -> World) :
  (forall w, I w -> I (f w)) -> preserves I (modify f).
Proof. intros Hf w Hw. now apply Hf. Qed.

Lemma preserves_run (es : list Event) :
  (forall e, In e es -> preserves I (handler e)) ->
  forall w, I w -> I (run es w).
Proof.
  unfold run. induction es as [|e es IH]; intros Hes w Hw; [exact Hw|].
  simpl. apply IH.
  - intros e' He'. apply Hes. now right.
  - apply (Hes e (or_introl eq_refl) w Hw).
Qed.

End Preservation.

(** ** Readiness and the LOADING debounce *)
Section Debounce.
Import JS Lodash MediaMachine Fsm MediaProvider Spec.

Ltac keep_step :=
  match goal with
  | |- preserves _ (bind _ _) => apply preserves_bind; [|intros ?]
  | |- preserves _ (ret _) => apply preserves_ret
  | |- preserves _ (gets _) => apply preserves_gets
  | |- preserves _ (throw _) => apply preserves_throw
  | |- preserves _ _getMedia => apply preserves_getMedia
  | |- preserves _ _getHls => apply preserves_getHls
  | |- preserves ?I (if true then ?a else _) => change (preserves I a)
  | |- preserves ?I (if false then _ else ?b) => change (preserves I b)
  | |- preserves _ (if ?b then _ else _) => destruct b
  | |- preserves _ (match ?x with _ => _ end) => destruct x
  end.

Ltac open_handlers :=
  unfold _onLoadedMetadata, _onSeeking, _onSeeked, _onRateChange,
    _onVolumeChange, _onCanPlay, _onWaiting, _onPause, _onPlay, _onTimeUpdate,
    _onProgress, _onDurationChange, _onError, setCurrentTime, setPlaybackRate,
    setVolume, assign_volume, assign_currentTime, assign_playbackRate,
    setMuted, setPaused, setCurrentBirateIndex,
    setRotate, _applyInitialDuration, deliver, on_MEDIA_ATTACHED,
    on_MANIFEST_PARSED, on_LEVEL_SWITCHED, on_ERROR, effect_runs, unmount,
    run_cleanup, useEffect_mediaSource,
    releaseHlsResource, checkMediaHasDataToPlay, setPaused_continuation,
    loading_callback, await, media_pause, on_hls, on_media.

Lemma status_updateMedia_no_loading (u : Partial) (c : MediaValuesContext) :
  no_loading u = true -> status c <> LOADING -> status (updateMedia c u) <> LOADING.
Proof.
  unfold updateMedia, no_loading.
  revert c. induction u as [|p u IH]; intros c Hu Hc; [exact Hc|].
  simpl in *. apply andb_prop in Hu as [Hp Hu]. apply IH; [exact Hu|].
  destruct c, p; simpl in *; try assumption.
  destruct v; congruence.
Qed.

Lemma calm_updateMediaService (u : Partial) :
  no_loading u = true -> preserves calm (updateMediaService u).
Proof.
  intros Hu w [Hrun Hst]. split.
  - now apply running_updateMediaService.
  - rewrite getSnapshot_updateMediaService by assumption.
    now apply status_updateMedia_no_loading.
Qed.

Lemma elapsed_nonneg (es : list Event) : 0 <= elapsed es.
Proof.
  induction es as [|e es IH]; simpl; [lia|]. destruct e; lia.
Qed.

(** *** Timers stay tracked *)

Lemma filter_tracked (w : World) (id : TimerId) :
  tracked w -> _timeoutLoadingId w = Some id ->
  filter (fun t => negb (Pos.eqb (fst t) id)) (timers w) = [].
Proof.
  intros [Hnone|(id' & due & Hone & Hid)] Href.
  - now rewrite Hnone.
  - rewrite Hone. simpl. assert (id' = id) by congruence. subst.
    now rewrite Pos.eqb_refl.
Qed.

Lemma tracked_none (w : World) :
  tracked w -> _timeoutLoadingId w = None -> timers w = [].
Proof.
  intros [Hnone|(id' & due & _ & Hid)] Href; [assumption|congruence].
Qed.

Lemma setLoadingStatus_tracked (w : World) :
  tracked w ->
  world_of (setLoadingStatus w)
  = with_timeoutLoadingId (Some (next_timer w))
      (with_timers [(next_timer w, clock w + 1000)] (Pos.succ (next_timer w)) w).
Proof.
  intros Htr. unfold setLoadingStatus, bind, gets.
  destruct (_timeoutLoadingId w) as [id|] eqn:Hid.
  - unfold clearTimeout, modify, setTimeout. simpl.
    now rewrite (filter_tracked w id Htr Hid).
  - unfold ret, setTimeout, modify. simpl.
    now rewrite (tracked_none w Htr Hid).
Qed.

Lemma setCanPlayStatus_tracked (w : World) :
  tracked w ->
  world_of (setCanPlayStatus w)
  = world_of (updateMediaService [P_status CAN_PLAY]
                (with_timers [] (next_timer w) w)).
Proof.
  intros Htr. unfold setCanPlayStatus, bind, gets.
  destruct (_timeoutLoadingId w) as [id|] eqn:Hid.
  - unfold clearTimeout, modify. simpl.
    now rewrite (filter_tracked w id Htr Hid).
  - unfold ret. simpl.
    rewrite <- (tracked_none w Htr Hid) at 1. now destruct w.
Qed.

Lemma tracked_setLoadingStatus : preserves tracked setLoadingStatus.
Proof.
  intros w Htr. rewrite setLoadingStatus_tracked by assumption.
  right. now exists (next_timer w), (clock w + 1000).
Qed.

Lemma tracked_setCanPlayStatus : preserves tracked setCanPlayStatus.
Proof.
  intros w Htr. rewrite setCanPlayStatus_tracked by assumption. now left.
Qed.

Lemma tracked_fire (id : TimerId) : preserves tracked (fire id).
Proof.
  intros w Htr. unfold fire.
  destruct (find (fun t => Pos.eqb (fst t) id) (timers w))
    as [[id' due]|] eqn:Hfind; [|exact Htr].
  destruct (Z.leb due (clock w)); [|exact Htr].
  destruct Htr as [Hnone|(id0 & due0 & Hone & _)].
  - now rewrite Hnone in Hfind.
  - left. unfold bind, clearTimeout, modify, loading_callback,
      updateMediaService, modify. simpl.
    rewrite Hone in *. simpl in *.
    destruct (Pos.eqb id0 id); [reflexivity|discriminate].
Qed.

Lemma tracked_settle (p : PromiseId) (b : bool) : preserves tracked (settle p b).
Proof.
  intros w Htr. unfold settle.
  now destruct (Nat.ltb p (next_promise w)
                && match lookup p (settled w) with
                   | None => true
                   | Some _ => false
                   end).
Qed.

Lemma tracked_media_play (m : HTMLMediaElement.t) : preserves tracked (media_play m).
Proof.
  intros w Htr. unfold media_play.
  now destruct (HTMLMediaElement.play_returns_promise m).
Qed.

Lemma tracked_resume (i : nat) : preserves tracked (resume i).
Proof.
  intros w Htr. unfold resume.
  destruct (nth_error (awaiting w) i) as [p|]; [|exact Htr].
  destruct (lookup p (settled w)) as [[|]|]; try exact Htr.
  unfold setPaused_continuation, bind, modify, gets, media_pause, ret. simpl.
  now destruct (_pausedRef w).
Qed.

Lemma tracked_handler (e : Event) : preserves tracked (handler e).
Proof.
  destruct e; cbn [handler];
    try apply tracked_fire; try apply tracked_settle; try apply tracked_resume;
    unfold _onCanPlay, _onSeeking, _onWaiting, _onProgress, setPaused,
      _onLoadedMetadata;
    repeat first
      [ apply tracked_setLoadingStatus
      | apply tracked_setCanPlayStatus
      | apply tracked_media_play
      | keep_step
      | progress open_handlers
      | (apply preserves_modify; intros ? Htr; exact Htr)
      | (intros ? Htr; exact Htr) ].
Qed.

(** *** Inside the window no timeout fires *)

Lemma window_updateMediaService (D b : Z) (u : Partial) :
  no_loading u = true -> preserves (within_window D b) (updateMediaService u).
Proof.
  intros Hu w (Hcalm & Hrest). split; [|exact Hrest].
  now apply calm_updateMediaService.
Qed.

Lemma window_clearTimeout (D b : Z) (id : TimerId) :
  preserves (within_window D b) (clearTimeout id).
Proof.
  intros w (Hcalm & Hdue & Hrest). split; [exact Hcalm|]. split; [|exact Hrest].
  intros id' due Hin. simpl in Hin. apply filter_In in Hin as [Hin _].
  now apply (Hdue id').
Qed.

Lemma window_setTimeout (D b : Z) :
  preserves (within_window D b) (setTimeout 1000).
Proof.
  intros w (Hcalm & Hdue & Hlo & Hrest). split; [exact Hcalm|].
  split; [|split; [exact Hlo|exact Hrest]].
  intros id' due Hin. simpl in Hin. apply in_app_or in Hin as [Hin|[Hin|[]]].
  - now apply (Hdue id').
  - injection Hin as _ <-. lia.
Qed.

Lemma window_fire (D b : Z) (id : TimerId) :
  preserves (within_window D b) (fire id).
Proof.
  intros w Hw. unfold fire.
  destruct (find (fun t => Pos.eqb (fst t) id) (timers w))
    as [[id' due]|] eqn:Hfind; [|exact Hw].
  apply find_some in Hfind as [Hin _].
  destruct Hw as (Hcalm & Hdue & Hlo & Hb & Hhi).
  pose proof (Hdue id' due Hin) as Hlate.
  destruct (Z.leb_spec due (clock w)); [lia|].
  exact (conj Hcalm (conj Hdue (conj Hlo (conj Hb Hhi)))).
Qed.

Lemma window_settle (D b : Z) (p : PromiseId) (ok : bool) :
  preserves (within_window D b) (settle p ok).
Proof.
  intros w Hw. unfold settle.
  now destruct (Nat.ltb p (next_promise w)
                && match lookup p (settled w) with
                   | None => true
                   | Some _ => false
                   end).
Qed.

Lemma window_media_play (D b : Z) (m : HTMLMediaElement.t) :
  preserves (within_window D b) (media_play m).
Proof.
  intros w Hw. unfold media_play.
  now destruct (HTMLMediaElement.play_returns_promise m).
Qed.

Lemma window_resume (D b : Z) (i : nat) : preserves (within_window D b) (resume i).
Proof.
  intros w Hw. unfold resume.
  destruct (nth_error (awaiting w) i) as [p|]; [|exact Hw].
  destruct (lookup p (settled w)) as [[|]|]; try exact Hw.
  unfold setPaused_continuation, bind, modify, gets, media_pause, ret. simpl.
  now destruct (_pausedRef w).
Qed.

Lemma window_handler (D b : Z) (e : Event) :
  is_elapse e = false -> preserves (within_window D b) (handler e).
Proof.
  intros He. destruct e; try discriminate He; cbn [handler];
    try apply window_fire; try apply window_settle; try apply window_resume;
    unfold setLoadingStatus, setCanPlayStatus;
    repeat first
      [ apply window_media_play
      | apply window_clearTimeout
      | apply window_setTimeout
      | (apply window_updateMediaService; reflexivity)
      | keep_step
      | progress open_handlers
      | progress unfold setLoadingStatus, setCanPlayStatus
      | (apply preserves_modify; intros ? Hw; exact Hw)
      | (intros ? Hw; exact Hw) ].
Qed.

Lemma window_run (D : Z) (es : list Event) (w : World) :
  within_window D (elapsed es) w -> within_window D 0 (run es w).
Proof.
  unfold run. revert w. induction es as [|e es IH]; intros w Hw; [exact Hw|].
  simpl fold_left. apply IH.
  destruct (is_elapse e) eqn:He.
  - destruct e; try discriminate He. simpl in Hw.
    destruct Hw as (Hcalm & Hdue & Hlo & Hb & Hhi).
    pose proof (elapsed_nonneg es) as Hes.
    unfold step, handler, modify. simpl.
    repeat split; try apply Hcalm; try assumption; simpl; lia.
  - assert (Hsame : elapsed (e :: es) = elapsed es)
      by (destruct e; try reflexivity; discriminate He).
    rewrite Hsame in Hw. now apply (window_handler D (elapsed es) e He w).
Qed.

(** *** With no timeout pending, only a seek or a wait can bring LOADING *)

Lemma idle_updateMediaService (u : Partial) :
  no_loading u = true -> preserves idle (updateMediaService u).
Proof.
  intros Hu w (Hcalm & Hrest). split; [|exact Hrest].
  now apply calm_updateMediaService.
Qed.

Lemma idle_clearTimeout (id : TimerId) : preserves idle (clearTimeout id).
Proof.
  intros w (Hcalm & Hnone). split; [exact Hcalm|].
  simpl. now rewrite Hnone.
Qed.

Lemma idle_fire (id : TimerId) : preserves idle (fire id).
Proof.
  intros w Hw. unfold fire. destruct Hw as (Hcalm & Hnone).
  rewrite Hnone. simpl. now split.
Qed.

Lemma idle_settle (p : PromiseId) (ok : bool) : preserves idle (settle p ok).
Proof.
  intros w Hw. unfold settle.
  now destruct (Nat.ltb p (next_promise w)
                && match lookup p (settled w) with
                   | None => true
                   | Some _ => false
                   end).
Qed.

Lemma idle_media_play (m : HTMLMediaElement.t) : preserves idle (media_play m).
Proof.
  intros w Hw. unfold media_play.
  now destruct (HTMLMediaElement.play_returns_promise m).
Qed.

Lemma idle_resume (i : nat) : preserves idle (resume i).
Proof.
  intros w Hw. unfold resume.
  destruct (nth_error (awaiting w) i) as [p|]; [|exact Hw].
  destruct (lookup p (settled w)) as [[|]|]; try exact Hw.
  unfold setPaused_continuation, bind, modify, gets, media_pause, ret. simpl.
  now destruct (_pausedRef w).
Qed.

Lemma idle_handler (e : Event) :
  schedules e = false -> preserves idle (handler e).
Proof.
  intros He. destruct e; try discriminate He; cbn [handler];
    try apply idle_fire; try apply idle_settle; try apply idle_resume;
    unfold setCanPlayStatus;
    repeat first
      [ apply idle_media_play
      | apply idle_clearTimeout
      | (apply idle_updateMediaService; reflexivity)
      | keep_step
      | progress open_handlers
      | progress unfold setCanPlayStatus
      | (apply preserves_modify; intros ? Hw; exact Hw)
      | (intros ? Hw; exact Hw) ].
Qed.

Lemma idle_run (es : list Event) (w : World) :
  existsb schedules es = false -> idle w -> idle (run es w).
Proof.
  intros Hes. apply preserves_run. intros e He. apply idle_handler.
  destruct (schedules e) eqn:Hs; [|reflexivity].
  assert (existsb schedules es = true) by (apply existsb_exists; eauto).
  congruence.
Qed.

Lemma tracked_run (es : list Event) (w : World) :
  tracked w -> tracked (run es w).
Proof. apply preserves_run. intros e _. apply tracked_handler. Qed.

(** *** The store keeps running *)

Lemma running_update (u : Partial) : preserves running (updateMediaService u).
Proof. intros w Hw. now apply running_updateMediaService. Qed.

Lemma running_fire (id : TimerId) : preserves running (fire id).
Proof.
  intros w Hw. unfold fire.
  destruct (find (fun t => Pos.eqb (fst t) id) (timers w))
    as [[id' due]|]; [|exact Hw].
  destruct (Z.leb due (clock w)); [|exact Hw].
  unfold bind, clearTimeout, modify, loading_callback. cbn [world_of].
  apply (running_update [P_status LOADING]). exact Hw.
Qed.

Lemma running_settle (p : PromiseId) (ok : bool) : preserves running (settle p ok).
Proof.
  intros w Hw. unfold settle.
  now destruct (Nat.ltb p (next_promise w)
                && match lookup p (settled w) with
                   | None => true
                   | Some _ => false
                   end).
Qed.

Lemma running_media_play (m : HTMLMediaElement.t) : preserves running (media_play m).
Proof.
  intros w Hw. unfold media_play.
  now destruct (HTMLMediaElement.play_returns_promise m).
Qed.

Lemma running_resume (i : nat) : preserves running (resume i).
Proof.
  intros w Hw. unfold resume.
  destruct (nth_error (awaiting w) i) as [p|]; [|exact Hw].
  destruct (lookup p (settled w)) as [[|]|]; try exact Hw.
  unfold setPaused_continuation, bind, modify, gets, media_pause, ret. simpl.
  now destruct (_pausedRef w).
Qed.

Lemma running_handler (e : Event) : preserves running (handler e).
Proof.
  destruct e; cbn [handler];
    try apply running_fire; try apply running_settle; try apply running_resume;
    repeat first
      [ apply running_media_play
      | apply running_update
      | keep_step
      | progress open_handlers
      | progress unfold setLoadingStatus, setCanPlayStatus, clearTimeout
      | (apply preserves_modify; intros ? Hw; exact Hw)
      | (intros ? Hw; exact Hw) ].
Qed.

Lemma running_run (es : list Event) (w : World) :
  running w -> running (run es w).
Proof. apply preserves_run. intros e _. apply running_handler. Qed.

(** *** The two readiness outcomes of a seek, a wait or a progress event *)

Lemma unbuffered_seek_or_wait (w : World) (media : HTMLMediaElement.t) (e : Event) :
  running w -> tracked w ->
  _mediaRef w = Some media ->
  has_data_at (HTMLMediaElement.currentTime media)
    (HTMLMediaElement.buffered media) = false ->
  e = onSeeking \/ e = onWaiting ->
  exists w0,
    step w e
    = with_timeoutLoadingId (Some (next_timer w))
        (with_timers [(next_timer w, clock w + 1000)]
           (Pos.succ (next_timer w)) w0)
    /\ running w0
    /\ status (getSnapshot w0) = status (getSnapshot w)
    /\ clock w0 = clock w.
Proof.
  intros Hrun Htr Href Hdata [->| ->].
  - set (u := [P_seeking true;
               P_currentTime (HTMLMediaElement.currentTime media);
               P_ended (HTMLMediaElement.ended media)]).
    exists (world_of (updateMediaService u w)).
    split; [|split; [|split]].
    + unfold step, handler, _onSeeking, bind, _getMedia.
      rewrite Href. fold u. unfold updateMediaService at 1, modify at 1.
      unfold checkMediaHasDataToPlay, bind, _getMedia, ret. simpl.
      rewrite Href, Hdata. simpl.
      now rewrite setLoadingStatus_tracked.
    + now apply running_updateMediaService.
    + rewrite getSnapshot_updateMediaService by assumption.
      unfold u, updateMedia. simpl. now destruct (getSnapshot w).
    + reflexivity.
  - exists w. split; [|now repeat split].
    unfold step, handler, _onWaiting, checkMediaHasDataToPlay, bind, _getMedia,
      ret.
    rewrite Href, Hdata.
    now rewrite setLoadingStatus_tracked.
Qed.

Lemma buffered_progress_or_wait (w : World) (media : HTMLMediaElement.t) (e : Event) :
  running w -> tracked w ->
  _mediaRef w = Some media ->
  has_data_at (HTMLMediaElement.currentTime media)
    (HTMLMediaElement.buffered media) = true ->
  e = onProgress \/ e = onWaiting ->
  timers (step w e) = []
  /\ status (getSnapshot (step w e)) = CAN_PLAY
  /\ running (step w e).
Proof.
  intros Hrun Htr Href Hdata He.
  set (w0 := with_timers [] (next_timer w) w).
  assert (Hrun0 : running w0) by exact Hrun.
  assert (Hcan : status (getSnapshot
                           (world_of (updateMediaService [P_status CAN_PLAY] w0)))
                 = CAN_PLAY).
  { rewrite getSnapshot_updateMediaService by assumption.
    unfold updateMedia. simpl. now destruct (getSnapshot w0). }
  destruct He as [->| ->].
  - assert (Hstep : step w onProgress
                    = world_of
                        (updateMediaService
                           [P_buffered (Some (HTMLMediaElement.buffered media))]
                           (world_of (setCanPlayStatus w)))).
    { unfold step, handler, _onProgress, checkMediaHasDataToPlay.
      unfold bind at 1 2 3. unfold _getMedia at 1. rewrite Href.
      unfold ret at 1. rewrite Hdata.
      destruct (setCanPlayStatus w) as [[] w'|msg w'] eqn:Hcps.
      - unfold bind, _getMedia.
        assert (Href' : _mediaRef w' = Some media).
        { change w' with (world_of (Returned tt w')). rewrite <- Hcps.
          rewrite setCanPlayStatus_tracked by assumption. exact Href. }
        now rewrite Href'.
      - exfalso. unfold setCanPlayStatus, bind, gets in Hcps.
        destruct (_timeoutLoadingId w); discriminate Hcps. }
    rewrite Hstep, setCanPlayStatus_tracked by assumption. fold w0.
    set (w1 := world_of (updateMediaService [P_status CAN_PLAY] w0)) in *.
    assert (Hrun1 : running w1) by now apply running_updateMediaService.
    split; [reflexivity|]. split.
    + rewrite getSnapshot_updateMediaService by assumption.
      unfold updateMedia. simpl. rewrite <- Hcan. now destruct (getSnapshot w1).
    + now apply running_updateMediaService.
  - assert (Hstep : step w onWaiting = world_of (setCanPlayStatus w)).
    { unfold step, handler, _onWaiting, checkMediaHasDataToPlay, bind, _getMedia,
        ret.
      now rewrite Href, Hdata. }
    rewrite Hstep, setCanPlayStatus_tracked by assumption. fold w0.
    split; [reflexivity|]. split; [exact Hcan|].
    now apply running_updateMediaService.
Qed.

(** A seek or a waiting signal at a position the readiness check rejects
    only schedules the transition to LOADING, 1000 ms ahead, as the one
    pending timeout.  Whatever events follow, the status does not become
    LOADING while less than 1000 ms have passed; once 1000 ms have passed and
    the timeout fires, the status is LOADING.  A progress or waiting event at
    a position the check accepts clears the pending timeout and sets the
    status to CAN_PLAY at once, and from then on no event brings LOADING unless a new
    seek or waiting signal schedules it again. *)
Theorem loading_is_debounced_by_the_check :
  forall (w : World) (media : HTMLMediaElement.t) (e : Event),
    running w ->
    tracked w ->
    _mediaRef w = Some media ->
    has_data_at (HTMLMediaElement.currentTime media)
      (HTMLMediaElement.buffered media) = false ->
    e = onSeeking \/ e = onWaiting ->
    let w1 := step w e in
    let id := next_timer w in
    timers w1 = [(id, clock w + 1000)]
    /\ _timeoutLoadingId w1 = Some id
    /\ status (getSnapshot w1) = status (getSnapshot w)
    /\ (forall es,
          elapsed es < 1000 ->
          status (getSnapshot w) <> LOADING ->
          status (getSnapshot (run es w1)) <> LOADING)
    /\ (forall ms,
          1000 <= ms ->
          status (getSnapshot (run [elapse ms; timeout_fires id] w1)) = LOADING)
    /\ (forall es media' e',
          _mediaRef (run es w1) = Some media' ->
          has_data_at (HTMLMediaElement.currentTime media')
            (HTMLMediaElement.buffered media') = true ->
          e' = onProgress \/ e' = onWaiting ->
          let w2 := step (run es w1) e' in
          timers w2 = []
          /\ status (getSnapshot w2) = CAN_PLAY
          /\ forall es',
               existsb schedules es' = false ->
               status (getSnapshot (run es' w2)) <> LOADING).
Proof.
  intros w media e Hrun Htr Href Hdata He w1 id.
  destruct (unbuffered_seek_or_wait w media e Hrun Htr Href Hdata He)
    as (w0 & Hw1 & Hrun0 & Hst0 & Hclock0).
  fold w1 in Hw1. fold id in Hw1. clearbody w1 id.
  assert (Hrun1 : running w1) by (rewrite Hw1; exact Hrun0).
  assert (Htr1 : tracked w1).
  { rewrite Hw1. right. now exists id, (clock w + 1000). }
  assert (Hst1 : status (getSnapshot w1) = status (getSnapshot w))
    by (rewrite Hw1; exact Hst0).
  split; [now rewrite Hw1|]. split; [now rewrite Hw1|]. split; [exact Hst1|].
  split; [|split].
  - intros es Hes Hnot.
    assert (Hwin : within_window (clock w + 1000) (elapsed es) w1).
    { split; [split; [exact Hrun1|now rewrite Hst1]|].
      split.
      - intros id' due Hin. rewrite Hw1 in Hin. simpl in Hin.
        destruct Hin as [Hin|[]]. injection Hin as _ <-. lia.
      - pose proof (elapsed_nonneg es).
        rewrite Hw1. simpl. rewrite Hclock0. lia. }
    apply window_run in Hwin. apply Hwin.
  - intros ms Hms. unfold run. simpl.
    unfold step at 2. cbn [handler world_of modify].
    unfold step, handler, fire. rewrite Hw1. simpl.
    rewrite Pos.eqb_refl. simpl. rewrite Hclock0.
    destruct (Z.leb_spec (clock w + 1000) (clock w + Z.max 0 ms)); [|lia].
    unfold bind, clearTimeout, modify, loading_callback. cbn [world_of].
    rewrite getSnapshot_updateMediaService by exact Hrun0.
    unfold updateMedia. simpl.
    match goal with |- status (assign_property ?c _) = _ => now destruct c end.
  - intros es media' e' Href' Hdata' He' w2.
    pose proof (running_run es w1 Hrun1) as Hrun2.
    pose proof (tracked_run es w1 Htr1) as Htr2.
    destruct (buffered_progress_or_wait (run es w1) media' e'
                Hrun2 Htr2 Href' Hdata' He') as (Htimers & Hcan & Hrun3).
    fold w2 in Htimers, Hcan, Hrun3.
    split; [exact Htimers|]. split; [exact Hcan|].
    intros es' Hes'.
    assert (Hidle : idle w2).
    { split; [split; [exact Hrun3|]|exact Htimers]. rewrite Hcan. discriminate. }
    apply (idle_run es' w2 Hes') in Hidle. apply Hidle.
Qed.

Lemma loading_is_debounced_by_the_check_witness :
  status
    (getSnapshot
       (run [elapse 400; onTimeUpdate; elapse 500; timeout_fires 1%positive]
          (step
             (run [onCanPlay;
                   browser_element
                     (buffering (of_Z 30) [(of_Z 0, of_Z 10)] new_element)]
                (mounted new_element))
             onSeeking)))
  <> LOADING
  /\ status
       (getSnapshot
          (run [elapse 1000; timeout_fires 1%positive]
             (step
                (run [onCanPlay;
                      browser_element
                        (buffering (of_Z 30) [(of_Z 0, of_Z 10)] new_element)]
                   (mounted new_element))
                onSeeking)))
     = LOADING.
Proof.
  destruct (loading_is_debounced_by_the_check
              (run [onCanPlay;
                    browser_element
                      (buffering (of_Z 30) [(of_Z 0, of_Z 10)] new_element)]
                 (mounted new_element))
              (buffering (of_Z 30) [(of_Z 0, of_Z 10)] new_element)
              onSeeking
              eq_refl (or_introl eq_refl) eq_refl eq_refl (or_introl eq_refl))
    as (_ & _ & _ & Hearly & Hlate & _).
  split.
  - apply Hearly; [reflexivity|discriminate].
  - apply Hlate. discriminate.
Defined.

(** ** Play and pause *)

Lemma repeat_play_snoc (n : nat) :
  (repeat HTMLMediaElement.play n ++ [HTMLMediaElement.play])%list
  = repeat HTMLMediaElement.play (S n).
Proof. induction n as [|n IH]; simpl; [reflexivity|now rewrite IH]. Qed.

Lemma playing_media_play (base : list HTMLMediaElement.Call)
  (m : HTMLMediaElement.t) :
  preserves (playing_since base) (media_play m).
Proof.
  intros w (Hp & n & Hcalls). unfold media_play.
  destruct (HTMLMediaElement.play_returns_promise m); simpl;
    (split; [exact Hp|]); exists (S n);
    now rewrite Hcalls, <- app_assoc, repeat_play_snoc.
Qed.

Lemma playing_fire (base : list HTMLMediaElement.Call) (id : TimerId) :
  preserves (playing_since base) (fire id).
Proof.
  intros w Hw. unfold fire.
  destruct (find (fun t => Pos.eqb (fst t) id) (timers w))
    as [[id' due]|]; [|exact Hw].
  destruct (Z.leb due (clock w)); exact Hw.
Qed.

Lemma playing_settle (base : list HTMLMediaElement.Call)
  (p : PromiseId) (ok : bool) :
  preserves (playing_since base) (settle p ok).
Proof.
  intros w Hw. unfold settle.
  now destruct (Nat.ltb p (next_promise w)
                && match lookup p (settled w) with
                   | None => true
                   | Some _ => false
                   end).
Qed.

Lemma playing_resume (base : list HTMLMediaElement.Call) (i : nat) :
  preserves (playing_since base) (resume i).
Proof.
  intros w Hw. unfold resume.
  destruct (nth_error (awaiting w) i) as [p|]; [|exact Hw].
  destruct (lookup p (settled w)) as [[|]|]; try exact Hw.
  unfold setPaused_continuation, bind, modify, gets, media_pause, ret. simpl.
  destruct Hw as (Hp & Hcalls). rewrite Hp. simpl. now split.
Qed.

Lemma playing_handler (base : list HTMLMediaElement.Call) (e : Event) :
  no_pause_request e = true -> preserves (playing_since base) (handler e).
Proof.
  intros He. destruct e; try discriminate He;
    try match type of He with
        | no_pause_request (call_setPaused ?b) = true =>
            destruct b; [discriminate He|]
        end;
    cbn [handler];
    try apply playing_fire; try apply playing_settle; try apply playing_resume;
    repeat first
      [ apply playing_media_play
      | keep_step
      | progress open_handlers
      | progress unfold setLoadingStatus, setCanPlayStatus, clearTimeout,
          updateMediaService
      | (apply preserves_modify; intros ? Hw; exact Hw)
      | (apply preserves_modify; intros ? [_ Hw]; split; [reflexivity|exact Hw])
      | (intros ? Hw; exact Hw) ].
Qed.

Lemma playing_run (base : list HTMLMediaElement.Call) (es : list Event)
  (w : World) :
  forallb no_pause_request es = true ->
  playing_since base w -> playing_since base (run es w).
Proof.
  intros Hes. apply preserves_run. intros e He.
  apply playing_handler. rewrite forallb_forall in Hes. now apply Hes.
Qed.

(** A pause request made while the binder holds a play promise issues
    no native call; it is suspended on that promise, does nothing as long as
    the promise is unsettled, and when resumed after the promise was fulfilled
    it calls the native pause exactly if the latest requested paused-state is
    still [true].  A pause request made while no play promise is held calls
    the native pause at once.  After a play request, whatever pause requests
    were suspended before it and however the promises settle, the element
    receives no native pause until a new pause is requested. *)
Theorem pause_waits_for_the_held_promise :
  forall (w : World) (media : HTMLMediaElement.t),
    _mediaRef w = Some media ->
    (forall p,
       _playPromise w = Some p ->
       let w1 := step w (call_setPaused true) in
       element_calls w1 = element_calls w
       /\ awaiting w1 = (awaiting w ++ [p])%list
       /\ _pausedRef w1 = true)
    /\ (_playPromise w = None ->
        let w1 := step w (call_setPaused true) in
        element_calls w1 = (element_calls w ++ [HTMLMediaElement.pause])%list
        /\ awaiting w1 = awaiting w)
    /\ (forall i p,
          nth_error (awaiting w) i = Some p ->
          let w1 := step w (continuation_resumes i) in
          (lookup p (settled w) = None -> w1 = w)
          /\ (lookup p (settled w) = Some true ->
              element_calls w1
              = (element_calls w
                 ++ if _pausedRef w then [HTMLMediaElement.pause] else [])%list
              /\ _playPromise w1 = None
              /\ awaiting w1 = remove_nth i (awaiting w))
          /\ (lookup p (settled w) = Some false ->
              element_calls w1 = element_calls w
              /\ awaiting w1 = remove_nth i (awaiting w)))
    /\ (forall es,
          forallb no_pause_request es = true ->
          let w1 := step w (call_setPaused false) in
          _pausedRef w1 = false
          /\ exists n,
               element_calls (run es w1)
               = (element_calls w1 ++ repeat HTMLMediaElement.play n)%list).
Proof.
  intros w media Href.
  split; [|split; [|split]].
  - intros p Hp w1.
    unfold w1, step, handler, setPaused, bind, _getMedia, gets, modify,
      updateMediaService, await.
    rewrite Href. simpl. rewrite Hp. simpl. now repeat split.
  - intros Hp w1.
    unfold w1, step, handler, setPaused, bind, _getMedia, gets, modify,
      updateMediaService, media_pause.
    rewrite Href. simpl. rewrite Hp. simpl. now split.
  - intros i p Hi w1.
    unfold w1, step, handler, resume. rewrite Hi.
    split; [|split].
    + intros Hs. now rewrite Hs.
    + intros Hs. rewrite Hs.
      unfold setPaused_continuation, bind, modify, gets, media_pause, ret.
      simpl. destruct (_pausedRef w); simpl; repeat split.
      now rewrite app_nil_r.
    + intros Hs. rewrite Hs. simpl. now split.
  - intros es Hes w1.
    assert (Hp : _pausedRef w1 = false).
    { unfold w1, step, handler, setPaused, bind, _getMedia, modify,
        updateMediaService, media_play.
      rewrite Href. simpl.
      now destruct (HTMLMediaElement.play_returns_promise media). }
    split; [exact Hp|].
    assert (Hplaying : playing_since (element_calls w1) w1).
    { split; [exact Hp|]. exists 0%nat. simpl. now rewrite app_nil_r. }
    apply (playing_run (element_calls w1) es w1 Hes) in Hplaying.
    apply Hplaying.
Qed.

Lemma pause_waits_for_the_held_promise_witness :
  (element_calls
     (step (step (mounted new_element) (call_setPaused false))
        (call_setPaused true))
   = element_calls (step (mounted new_element) (call_setPaused false))
   /\ awaiting
        (step (step (mounted new_element) (call_setPaused false))
           (call_setPaused true))
      = (awaiting (step (mounted new_element) (call_setPaused false))
         ++ [0%nat])%list
   /\ _pausedRef
        (step (step (mounted new_element) (call_setPaused false))
           (call_setPaused true))
      = true)
  /\ (element_calls
        (step
           (run [call_setPaused false; call_setPaused true;
                 promise_settles 0%nat true]
              (mounted new_element))
           (continuation_resumes 0%nat))
      = [HTMLMediaElement.play; HTMLMediaElement.pause]
      /\ _playPromise
           (step
              (run [call_setPaused false; call_setPaused true;
                    promise_settles 0%nat true]
                 (mounted new_element))
              (continuation_resumes 0%nat))
         = None
      /\ awaiting
           (step
              (run [call_setPaused false; call_setPaused true;
                    promise_settles 0%nat true]
                 (mounted new_element))
              (continuation_resumes 0%nat))
         = remove_nth 0
             (awaiting
                (run [call_setPaused false; call_setPaused true;
                      promise_settles 0%nat true]
                   (mounted new_element))))
  /\ exists n,
       element_calls
         (run [promise_settles 0%nat true; continuation_resumes 0%nat]
            (step
               (run [call_setPaused false; call_setPaused true]
                  (mounted new_element))
               (call_setPaused false)))
       = (element_calls
            (step
               (run [call_setPaused false; call_setPaused true]
                  (mounted new_element))
               (call_setPaused false))
          ++ repeat HTMLMediaElement.play n)%list.
Proof.
  split; [|split].
  - exact (proj1 (pause_waits_for_the_held_promise
                    (step (mounted new_element) (call_setPaused false))
                    new_element eq_refl) 0%nat eq_refl).
  - exact (proj1 (proj2 (proj1 (proj2 (proj2
             (pause_waits_for_the_held_promise
                (run [call_setPaused false; call_setPaused true;
                      promise_settles 0%nat true]
                   (mounted new_element))
                new_element eq_refl))) 0%nat 0%nat eq_refl)) eq_refl).
  - exact (proj2 (proj2 (proj2 (proj2
             (pause_waits_for_the_held_promise
                (run [call_setPaused false; call_setPaused true]
                   (mounted new_element))
                new_element eq_refl)))
             [promise_settles 0%nat true; continuation_resumes 0%nat] eq_refl)).
Defined.

(** Every world the provider can reach from its first render has a running
    store and at most the one tracked timeout pending, so the assumptions of
    the properties above hold throughout a session. *)
Lemma reachable_running_tracked (initialDuration : number) (isSupported : bool)
  (es : list Event) :
  running (run es (first_world initialDuration isSupported))
  /\ tracked (run es (first_world initialDuration isSupported)).
Proof.
  split.
  - apply running_run. reflexivity.
  - apply tracked_run. now left.
Qed.

End Debounce.

(** ** Consumers through a sequence of updates *)
Section Consumers.
Import JS Lodash MediaMachine Fsm MediaContext.

Lemma last_map {A B} (f : A -> B) (l : list A) (d : A) :
  l <> [] -> last (map f l) (f d) = f (last l d).
Proof.
  induction l as [|x l IH]; intros Hl; [congruence|].
  destruct l as [|y l]; [reflexivity|].
  change (last (f x :: map f (y :: l)) (f d)) with (last (map f (y :: l)) (f d)).
  change (last (x :: y :: l) d) with (last (y :: l) d).
  apply IH. discriminate.
Qed.

Lemma last_indep {A} (l : list A) (d d' : A) :
  l <> [] -> last l d = last l d'.
Proof.
  induction l as [|x l IH]; intros Hl; [congruence|].
  destruct l as [|y l]; [reflexivity|].
  change (last (x :: y :: l) d) with (last (y :: l) d).
  change (last (x :: y :: l) d') with (last (y :: l) d').
  apply IH. discriminate.
Qed.

Lemma listeners_send_nonempty (s : Interpreter.Service) (e : MediaEvent) :
  Interpreter.listeners s <> [] ->
  Interpreter.listeners (Interpreter.send s e) <> [].
Proof.
  unfold Interpreter.send. destruct (Interpreter.status s); try easy.
  destruct e. unfold transition. destruct (value (Interpreter.state s)).
  simpl. destruct (Interpreter.listeners s); [congruence|discriminate].
Qed.

(** A consumer just mounted holds what its first render selected and has
    caused no render: the call it receives on subscribing changes nothing. *)
Lemma mount_identity_last (s : Interpreter.Service) (d : Consumer) :
  last (Interpreter.listeners (Interpreter.mount identity s)) d
  = mkConsumer Ref identity (context (Interpreter.state s)) 0.
Proof.
  unfold Interpreter.mount, Interpreter.subscribe. simpl.
  rewrite last_last. unfold notify, listener, first_render. simpl.
  destruct (not_changed (Interpreter.state s)); [reflexivity|].
  unfold setPartialState. simpl. now rewrite Nat.eqb_refl.
Qed.

Lemma identity_consumer_follows (us : list Partial) (s : Interpreter.Service)
  (d : Consumer) (n : nat) :
  Interpreter.status s = Interpreter.Running ->
  S (context (Interpreter.state s)) = length (Interpreter.heap s) ->
  Interpreter.listeners s <> [] ->
  last (Interpreter.listeners s) d
  = mkConsumer Ref identity (context (Interpreter.state s)) n ->
  last (Interpreter.listeners (Spec.updates us s)) d
  = mkConsumer Ref identity
      (context (Interpreter.state (Spec.updates us s))) (n + length us).
Proof.
  revert s n. induction us as [|u us IH]; intros s n Hrun Hnew Hne Hlast.
  - simpl. now rewrite Nat.add_0_r.
  - simpl. replace (n + S (length us))%nat with (S n + length us)%nat by lia.
    apply IH.
    + now rewrite status_send.
    + rewrite context_send_fresh, length_heap_send by assumption. reflexivity.
    + now apply listeners_send_nonempty.
    + rewrite listeners_send by assumption.
      set (s' := Interpreter.send s (UPDATE u)).
      set (f := notify (Interpreter.heap s') (Interpreter.state s')
                  (Interpreter.state s')).
      rewrite (last_indep _ d (f d))
        by (destruct (Interpreter.listeners s); [congruence|discriminate]).
      rewrite last_map by assumption. rewrite Hlast.
      unfold f, s'. apply notify_identity_after_send; [assumption|lia].
Qed.

(** A consumer that uses the identity selector, mounted on a running store,
    holds the store's current snapshot object after any sequence of updates.
    Every update hands it a new object, so its state has changed, and it is
    re-rendered, after any sequence that is not empty; it is re-rendered at
    most once per update. *)
Theorem identity_consumer_holds_the_current_snapshot :
  forall (us : list Partial) (s : Interpreter.Service) (d : Consumer),
    Interpreter.status s = Interpreter.Running ->
    S (context (Interpreter.state s)) = length (Interpreter.heap s) ->
    exists n,
      last (Interpreter.listeners
              (Spec.updates us (Interpreter.mount identity s))) d
      = mkConsumer Ref identity
          (context (Interpreter.state
                      (Spec.updates us (Interpreter.mount identity s))))
          n
      /\ (us <> [] -> 1 <= n)%nat
      /\ (n <= length us)%nat.
Proof.
  intros us s d Hrun Hnew.
  pose proof (identity_consumer_follows us (Interpreter.mount identity s) d 0)
    as H.
  simpl in H. exists (length us). split; [|split].
  - apply H.
    + exact Hrun.
    + exact Hnew.
    + destruct (Interpreter.listeners s); discriminate.
    + apply mount_identity_last.
  - destruct us; [congruence|simpl; lia].
  - lia.
Qed.

Lemma identity_consumer_holds_the_current_snapshot_witness :
  exists n,
    last
      (Interpreter.listeners
         (Spec.updates [[P_volume (Fin (1 # 2))]; []; [P_paused false]]
            (Interpreter.mount identity Spec.started)))
      (mkConsumer Ref identity 0%nat 0%nat)
    = mkConsumer Ref identity
        (context
           (Interpreter.state
              (Spec.updates [[P_volume (Fin (1 # 2))]; []; [P_paused false]]
                 (Interpreter.mount identity Spec.started))))
        n
    /\ ([[P_volume (Fin (1 # 2))]; []; [P_paused false]] <> [] -> 1 <= n)%nat
    /\ (n <= 3)%nat.
Proof.
  exact (identity_consumer_holds_the_current_snapshot
           [[P_volume (Fin (1 # 2))]; []; [P_paused false]]
           Spec.started (mkConsumer Ref identity 0%nat 0%nat)
           eq_refl eq_refl).
Defined.

Lemma mount_select_last (s : Interpreter.Service)
  (T : Type) (E : IsEqual T) (f : MediaValuesContext -> T) (d : Consumer) :
  (forall x : T, isEqual x x = true) ->
  last (Interpreter.listeners (Interpreter.mount (select f) s)) d
  = mkConsumer T (select f) (f (Interpreter.getSnapshot s)) 0.
Proof.
  intros Hrefl.
  unfold Interpreter.mount, Interpreter.subscribe. simpl.
  rewrite last_last. unfold notify, listener, first_render. simpl.
  destruct (not_changed (Interpreter.state s)); [reflexivity|].
  unfold Interpreter.getSnapshot. now rewrite Hrefl.
Qed.

Lemma select_consumer_follows (us : list Partial) (s : Interpreter.Service)
  (T : Type) (E : IsEqual T) (f : MediaValuesContext -> T)
  (d : Consumer) (ps : T) (n : nat) :
  (forall x : T, isEqual x x = true) ->
  Interpreter.status s = Interpreter.Running ->
  Interpreter.listeners s <> [] ->
  last (Interpreter.listeners s) d = mkConsumer T (select f) ps n ->
  isEqual (f (Interpreter.getSnapshot s)) ps = true ->
  exists ps' n',
    last (Interpreter.listeners (Spec.updates us s)) d
    = mkConsumer T (select f) ps' n'
    /\ isEqual (f (Interpreter.getSnapshot (Spec.updates us s))) ps' = true
    /\ (n <= n')%nat /\ (n' <= n + length us)%nat.
Proof.
  intros Hrefl. revert s ps n.
  induction us as [|u us IH]; intros s ps n Hrun Hne Hlast Hsync.
  - exists ps, n. simpl. repeat split; try assumption; lia.
  - simpl.
    set (s' := Interpreter.send s (UPDATE u)).
    assert (Hstep : last (Interpreter.listeners s') d
                    = if isEqual (f (Interpreter.getSnapshot s')) ps
                      then mkConsumer T (select f) ps n
                      else mkConsumer T (select f)
                             (f (Interpreter.getSnapshot s')) (S n)).
    { unfold s'. rewrite listeners_send by assumption. fold s'.
      set (g := notify (Interpreter.heap s') (Interpreter.state s')
                  (Interpreter.state s')).
      rewrite (last_indep _ d (g d))
        by (destruct (Interpreter.listeners s); [congruence|discriminate]).
      rewrite last_map by assumption. rewrite Hlast.
      unfold g, s'. now apply notify_select_after_send. }
    assert (Hrun' : Interpreter.status s' = Interpreter.Running)
      by (unfold s'; now rewrite status_send).
    assert (Hne' : Interpreter.listeners s' <> [])
      by now apply listeners_send_nonempty.
    destruct (isEqual (f (Interpreter.getSnapshot s')) ps) eqn:Heq.
    + destruct (IH s' ps n Hrun' Hne' Hstep Heq) as (ps' & n' & H1 & H2 & H3 & H4).
      exists ps', n'. repeat split; try assumption; lia.
    + destruct (IH s' (f (Interpreter.getSnapshot s')) (S n) Hrun' Hne' Hstep
                  (Hrefl _)) as (ps' & n' & H1 & H2 & H3 & H4).
      exists ps', n'. repeat split; try assumption; lia.
Qed.

(** A consumer with a selector of its own, mounted on a running store, holds
    after any sequence of updates a slice that is deep-equal to what its
    selector gives on the current snapshot, and it has been re-rendered at
    most once per update.  Deep equality is reflexive on the selected type. *)
Theorem select_consumer_stays_current :
  forall (us : list Partial) (s : Interpreter.Service)
         (T : Type) (E : IsEqual T) (f : MediaValuesContext -> T)
         (d : Consumer),
    (forall x : T, isEqual x x = true) ->
    Interpreter.status s = Interpreter.Running ->
    exists ps n,
      last (Interpreter.listeners
              (Spec.updates us (Interpreter.mount (select f) s))) d
      = mkConsumer T (select f) ps n
      /\ isEqual
           (f (Interpreter.getSnapshot
                 (Spec.updates us (Interpreter.mount (select f) s)))) ps
         = true
      /\ (n <= length us)%nat.
Proof.
  intros us s T E f d Hrefl Hrun.
  destruct (select_consumer_follows us (Interpreter.mount (select f) s)
              T E f d (f (Interpreter.getSnapshot s)) 0 Hrefl)
    as (ps & n & H1 & H2 & _ & H4).
  - exact Hrun.
  - unfold Interpreter.mount, Interpreter.subscribe. simpl.
    destruct (Interpreter.listeners s); discriminate.
  - now apply mount_select_last.
  - apply Hrefl.
  - exists ps, n. repeat split; try assumption.
Qed.

#[local] Existing Instance App.IsEqual_Selected.

Lemma isEqual_Selected_refl (x : App.Selected) : isEqual x x = true.
Proof. destruct x. simpl. apply same_value_zero_refl. Qed.

Lemma select_consumer_stays_current_witness :
  exists ps n,
    last (Interpreter.listeners
            (Spec.updates [[P_currentTime (of_Z 3)]; [P_volume (Fin (1 # 2))]]
               (Interpreter.mount App.ConnectedMediaComp_hook Spec.started)))
      (mkConsumer Ref identity 0%nat 0%nat)
    = mkConsumer App.Selected App.ConnectedMediaComp_hook ps n
    /\ isEqual
         (App.ConnectedMediaComp_selector
            (Interpreter.getSnapshot
               (Spec.updates
                  [[P_currentTime (of_Z 3)]; [P_volume (Fin (1 # 2))]]
                  (Interpreter.mount App.ConnectedMediaComp_hook Spec.started))))
         ps
       = true
    /\ (n <= 2)%nat.
Proof.
  exact (select_consumer_stays_current
           [[P_currentTime (of_Z 3)]; [P_volume (Fin (1 # 2))]]
           Spec.started App.Selected App.IsEqual_Selected
           App.ConnectedMediaComp_selector
           (mkConsumer Ref identity 0%nat 0%nat)
           isEqual_Selected_refl eq_refl).
Defined.

End Consumers.

(** ** The binder's methods and listeners, one at a time *)
Section Methods.
Import JS Lodash MediaMachine Fsm MediaProvider Spec Session.

(** Without a media element, every control method and every listener that
    starts by fetching the element throws "Media element is not available"
    and leaves the provider exactly as it was: no ref is written and no
    update reaches the store before the check. *)
Theorem element_is_checked_first :
  forall (w : World) (e : Event),
    _mediaRef w = None ->
    needs_element e = true ->
    handler e w = Thrown "Media element is not available" w.
Proof.
  intros w e Href He.
  destruct e; try discriminate He; cbn [handler];
    unfold _onSeeking, _onRateChange, _onVolumeChange, _onWaiting,
      _onTimeUpdate, _onProgress, _onDurationChange, setCurrentTime,
      setPlaybackRate, setVolume, setMuted, setPaused,
      checkMediaHasDataToPlay, bind, _getMedia;
    now rewrite Href.
Qed.

Lemma element_is_checked_first_witness :
  handler (call_setPaused false) (first_world (of_Z 0) true)
  = Thrown "Media element is not available" (first_world (of_Z 0) true)
  /\ handler onProgress (first_world (of_Z 0) true)
     = Thrown "Media element is not available" (first_world (of_Z 0) true).
Proof.
  split.
  - exact (element_is_checked_first (first_world (of_Z 0) true)
             (call_setPaused false) eq_refl eq_refl).
  - exact (element_is_checked_first (first_world (of_Z 0) true)
             onProgress eq_refl eq_refl).
Defined.

Lemma clamp_within (t : number) (lo hi : Q) :
  t <> NaN -> (lo <= hi)%Q -> within lo hi (clamp t (Fin lo) (Fin hi)).
Proof.
  intros Ht Hlohi.
  assert (Hlo : within lo hi (Fin lo))
    by (exists lo; repeat split; [apply Qle_refl|assumption]).
  assert (Hhi : within lo hi (Fin hi))
    by (exists hi; repeat split; [assumption|apply Qle_refl]).
  unfold clamp, baseClamp, ge. simpl strict_eq.
  rewrite (Qeq_bool_refl lo), (Qeq_bool_refl hi).
  destruct t as [| | |q]; [congruence| | |]; simpl strict_eq.
  - simpl. destruct (Qle_bool lo hi); assumption.
  - simpl. assumption.
  - rewrite (Qeq_bool_refl q). simpl.
    destruct (Qle_bool q hi) eqn:Hup; simpl.
    + destruct (Qle_bool lo q) eqn:Hlow; [|assumption].
      exists q. apply Qle_bool_iff in Hup, Hlow. now repeat split.
    + destruct (Qle_bool lo hi); assumption.
Qed.

Lemma clamp_finite (t d : number) :
  HTMLMediaElement.finite (clamp t (of_Z 0) d) = false
  <-> t = NaN \/ (t = PosInfinity /\ d = PosInfinity).
Proof.
  split.
  - destruct t as [| | |q]; [now left| | |];
      destruct d as [| | |x]; try discriminate;
      try (intros _; right; now split);
      unfold clamp, baseClamp, ge, of_Z; simpl;
      rewrite ?Qeq_bool_refl; simpl;
      repeat match goal with
             | |- context [if ?b then _ else _] => destruct b; simpl
             end;
      discriminate.
  - intros [->|[-> ->]]; reflexivity.
Qed.

(** [setCurrentTime] hands the element the requested time clamped between 0
    and the element's duration and does not touch the store: the snapshot
    learns the new position only from the element's events.  The element
    takes the clamped value when it is finite.  It is not finite exactly for
    a request of [NaN], and for a request of [Infinity] while the duration is
    [Infinity]: then the element's setter throws and the provider is left as
    it was.  For every request but [NaN] the clamped value lies in
    [0, duration] when the duration is a number, and is 0 while the duration
    is still [NaN]. *)
Theorem setCurrentTime_stays_within_duration :
  forall (w : World) (media : HTMLMediaElement.t) (t : number),
    _mediaRef w = Some media ->
    let assigned := clamp t (of_Z 0) (HTMLMediaElement.duration media) in
    (HTMLMediaElement.finite assigned = true ->
       handler (call_setCurrentTime t) w
       = Returned tt
           (with_mediaRef
              (Some (HTMLMediaElement.set_currentTime assigned media)) w))
    /\ (HTMLMediaElement.finite assigned = false ->
        handler (call_setCurrentTime t) w
        = Thrown "The provided double value is non-finite" w)
    /\ (HTMLMediaElement.finite assigned = false
        <-> t = NaN
            \/ (t = PosInfinity
                /\ HTMLMediaElement.duration media = PosInfinity))
    /\ getSnapshot (step w (call_setCurrentTime t)) = getSnapshot w
    /\ (t <> NaN ->
        forall d, HTMLMediaElement.duration media = Fin d -> (0 <= d)%Q ->
                  within 0 d assigned)
    /\ (t <> NaN ->
        HTMLMediaElement.duration media = NaN -> within 0 0 assigned).
Proof.
  intros w media t Href assigned.
  assert (Hcall : handler (call_setCurrentTime t) w
                  = if HTMLMediaElement.finite assigned
                    then Returned tt
                           (with_mediaRef
                              (Some (HTMLMediaElement.set_currentTime
                                       assigned media)) w)
                    else Thrown "The provided double value is non-finite" w).
  { cbn [handler]. unfold setCurrentTime, bind, _getMedia. rewrite Href.
    fold assigned. unfold assign_currentTime.
    destruct (HTMLMediaElement.finite assigned); [|reflexivity].
    unfold on_media, modify. now rewrite Href. }
  split; [|split; [|split; [|split; [|split]]]].
  - intros Hfin. now rewrite Hcall, Hfin.
  - intros Hfin. now rewrite Hcall, Hfin.
  - apply clamp_finite.
  - unfold step. rewrite Hcall.
    now destruct (HTMLMediaElement.finite assigned).
  - intros Ht d Hd Hpos. unfold assigned. rewrite Hd.
    now apply (clamp_within t 0 d).
  - intros Ht Hd. unfold assigned. rewrite Hd.
    apply (clamp_within t 0 0 Ht). apply Qle_refl.
Qed.

Lemma setCurrentTime_stays_within_duration_witness :
  handler (call_setCurrentTime (of_Z 120))
    (mounted (with_duration (Fin 90) new_element))
  = Returned tt
      (with_mediaRef
         (Some (HTMLMediaElement.set_currentTime (of_Z 90)
                  (with_duration (Fin 90) new_element)))
         (mounted (with_duration (Fin 90) new_element)))
  /\ handler (call_setCurrentTime PosInfinity)
       (mounted (with_duration PosInfinity new_element))
     = Thrown "The provided double value is non-finite"
         (mounted (with_duration PosInfinity new_element))
  /\ within 0 0
       (clamp (of_Z 120) (of_Z 0) (HTMLMediaElement.duration new_element)).
Proof.
  split; [|split].
  - exact (proj1 (setCurrentTime_stays_within_duration
                    (mounted (with_duration (Fin 90) new_element))
                    (with_duration (Fin 90) new_element) (of_Z 120)
                    eq_refl) eq_refl).
  - exact (proj1 (proj2 (setCurrentTime_stays_within_duration
                           (mounted (with_duration PosInfinity new_element))
                           (with_duration PosInfinity new_element)
                           PosInfinity eq_refl)) eq_refl).
  - destruct (setCurrentTime_stays_within_duration
                (mounted new_element) new_element (of_Z 120) eq_refl)
      as (_ & _ & _ & _ & _ & H).
    apply H; [discriminate|reflexivity].
Defined.




(** On loaded metadata the binder calls the native [play()] exactly when the
    latest requested state is playing, and otherwise does nothing.  The
    promise of that call is not kept: [_playPromise] and the snapshot stay as
    they were, so a pause requested next, with no promise held, reaches the
    element at once. *)
Theorem loaded_metadata_resumes_playback :
  forall (w : World) (media : HTMLMediaElement.t),
    _mediaRef w = Some media ->
    let w' := step w onLoadedMetadata in
    (_pausedRef w = true -> w' = w)
    /\ (_pausedRef w = false ->
        element_calls w' = (element_calls w ++ [HTMLMediaElement.play])%list)
    /\ _playPromise w' = _playPromise w
    /\ getSnapshot w' = getSnapshot w
    /\ (_pausedRef w = false -> _playPromise w = None ->
        element_calls (step w' (call_setPaused true))
        = (element_calls w
           ++ [HTMLMediaElement.play; HTMLMediaElement.pause])%list).
Proof.
  intros w media Href w'.
  assert (Hw' : w' = if _pausedRef w
                     then w
                     else world_of (media_play media w)).
  { unfold w', step, handler, _onLoadedMetadata, bind, gets, _getMedia.
    destruct (_pausedRef w); [reflexivity|]. simpl. rewrite Href.
    now destruct (media_play media w). }
  clearbody w'. subst w'.
  destruct (_pausedRef w) eqn:Hp.
  - repeat split; try reflexivity; discriminate.
  - assert (Hplay : forall P : World -> Prop,
               (forall n, P (with_next_promise n
                               (with_element_calls
                                  (element_calls w ++ [HTMLMediaElement.play])
                                  w))) ->
               P (with_element_calls
                    (element_calls w ++ [HTMLMediaElement.play]) w) ->
               P (world_of (media_play media w))).
    { intros P H1 H2. unfold media_play.
      destruct (HTMLMediaElement.play_returns_promise media); simpl; auto. }
    split; [discriminate|]. split; [|split; [|split]].
    + intros _. apply Hplay; intros; reflexivity.
    + apply Hplay; intros; reflexivity.
    + apply Hplay; intros; reflexivity.
    + intros _ Hnone. apply Hplay; intros;
        unfold step, handler, setPaused, bind, _getMedia, gets, modify,
          updateMediaService, media_pause; simpl; rewrite Href; simpl;
        rewrite Hnone; simpl; now rewrite <- app_assoc.
Qed.

Lemma loaded_metadata_resumes_playback_witness :
  step (mounted new_element) onLoadedMetadata = mounted new_element
  /\ element_calls
       (step (step (with_pausedRef false (mounted new_element)) onLoadedMetadata)
          (call_setPaused true))
     = [HTMLMediaElement.play; HTMLMediaElement.pause].
Proof.
  split.
  - exact (proj1 (loaded_metadata_resumes_playback
                    (mounted new_element) new_element eq_refl) eq_refl).
  - exact (proj2 (proj2 (proj2 (proj2
             (loaded_metadata_resumes_playback
                (with_pausedRef false (mounted new_element)) new_element
                eq_refl)))) eq_refl eq_refl).
Defined.

Lemma strict_eq_refl (n : number) : n <> NaN -> strict_eq n n = true.
Proof.
  destruct n; try reflexivity; [congruence|]. intros _. apply Qeq_bool_refl.
Qed.

Lemma setCurrentBirateIndex_bound (w : World) (hls : Hls.t) (i : number) :
  _hlsRef w = Some hls ->
  let w1 := world_of
              (updateMediaService
                 [P_autoBitrateEnabled (strict_eq i DEFAULT_AUTO_BITRATE_INDEX);
                  P_currentBirateIndex i] w) in
  setCurrentBirateIndex i w
  = if strict_eq (Hls.currentLevel hls) i
    then Returned tt w1
    else Returned tt (with_hlsRef (Some (Hls.set_currentLevel i hls)) w1).
Proof.
  intros Hhls w1. unfold setCurrentBirateIndex, bind, _getHls.
  unfold updateMediaService at 1, modify at 1. simpl. rewrite Hhls.
  unfold strict_neq. destruct (strict_eq (Hls.currentLevel hls) i); simpl.
  - reflexivity.
  - unfold on_hls, modify. simpl. now rewrite Hhls.
Qed.

(** With a streaming adapter bound, [setCurrentBirateIndex] does not throw:
    the snapshot takes the index and the auto-bitrate flag, and the index is
    assigned to the adapter's [currentLevel] exactly when the level the
    adapter reports differs from it.  The assignment is a request: what the
    adapter reports stays as it was, so a second call made before the adapter
    has switched assigns the index again.  When the adapter reports the
    requested level, nothing is asked of it. *)
Theorem setCurrentBirateIndex_selects_the_level :
  forall (w : World) (hls : Hls.t) (bitrateIndex : number),
    running w ->
    _hlsRef w = Some hls ->
    let outcome := setCurrentBirateIndex bitrateIndex w in
    thrown outcome = None
    /\ currentBirateIndex (getSnapshot (world_of outcome)) = bitrateIndex
    /\ autoBitrateEnabled (getSnapshot (world_of outcome))
       = strict_eq bitrateIndex DEFAULT_AUTO_BITRATE_INDEX
    /\ (strict_eq (Hls.currentLevel hls) bitrateIndex = true ->
        _hlsRef (world_of outcome) = Some hls)
    /\ (strict_eq (Hls.currentLevel hls) bitrateIndex = false ->
        _hlsRef (world_of outcome)
        = Some (Hls.call (Hls.assign_currentLevel bitrateIndex) hls)
        /\ Hls.currentLevel (Hls.call (Hls.assign_currentLevel bitrateIndex) hls)
           = Hls.currentLevel hls
        /\ _hlsRef (world_of (setCurrentBirateIndex bitrateIndex
                                (world_of outcome)))
           = Some (Hls.call (Hls.assign_currentLevel bitrateIndex)
                     (Hls.call (Hls.assign_currentLevel bitrateIndex) hls))).
Proof.
  intros w hls i Hrun Hhls outcome.
  set (u := [P_autoBitrateEnabled (strict_eq i DEFAULT_AUTO_BITRATE_INDEX);
             P_currentBirateIndex i]).
  set (w1 := world_of (updateMediaService u w)).
  assert (Hout : outcome
                 = if strict_eq (Hls.currentLevel hls) i
                   then Returned tt w1
                   else Returned tt
                          (with_hlsRef (Some (Hls.set_currentLevel i hls)) w1))
    by now apply setCurrentBirateIndex_bound.
  assert (Hsnap : getSnapshot w1 = updateMedia (getSnapshot w) u)
    by now apply getSnapshot_updateMediaService.
  assert (Hindex : currentBirateIndex (getSnapshot w1) = i)
    by (rewrite Hsnap; now destruct (getSnapshot w)).
  assert (Hauto : autoBitrateEnabled (getSnapshot w1)
                  = strict_eq i DEFAULT_AUTO_BITRATE_INDEX)
    by (rewrite Hsnap; now destruct (getSnapshot w)).
  clearbody outcome. subst outcome.
  destruct (strict_eq (Hls.currentLevel hls) i) eqn:Heq.
  - repeat split; try assumption; try discriminate.
    intros _. exact Hhls.
  - split; [reflexivity|]. split; [exact Hindex|]. split; [exact Hauto|].
    split; [discriminate|]. intros _.
    split; [reflexivity|]. split; [reflexivity|].
    cbn [world_of].
    rewrite (setCurrentBirateIndex_bound _ (Hls.set_currentLevel i hls) i)
      by reflexivity.
    change (Hls.currentLevel (Hls.set_currentLevel i hls))
      with (Hls.currentLevel hls).
    rewrite Heq. reflexivity.
Qed.

Lemma setCurrentBirateIndex_selects_the_level_witness :
  thrown
    (setCurrentBirateIndex (of_Z 2)
       (with_hlsRef (Some Hls.create) (mounted new_element)))
  = None
  /\ _hlsRef
       (world_of
          (setCurrentBirateIndex (of_Z 2)
             (with_hlsRef (Some Hls.create) (mounted new_element))))
     = Some (Hls.call (Hls.assign_currentLevel (of_Z 2)) Hls.create)
  /\ _hlsRef
       (world_of
          (setCurrentBirateIndex (of_Z 2)
             (with_hlsRef (Some (Hls.plays (of_Z 2) Hls.create))
                (mounted new_element))))
     = Some (Hls.plays (of_Z 2) Hls.create).
Proof.
  split; [|split].
  - exact (proj1 (setCurrentBirateIndex_selects_the_level
                    (with_hlsRef (Some Hls.create) (mounted new_element))
                    Hls.create (of_Z 2) eq_refl eq_refl)).
  - destruct (setCurrentBirateIndex_selects_the_level
                (with_hlsRef (Some Hls.create) (mounted new_element))
                Hls.create (of_Z 2) eq_refl eq_refl) as (_ & _ & _ & _ & H).
    exact (proj1 (H eq_refl)).
  - destruct (setCurrentBirateIndex_selects_the_level
                (with_hlsRef (Some (Hls.plays (of_Z 2) Hls.create))
                   (mounted new_element))
                (Hls.plays (of_Z 2) Hls.create) (of_Z 2) eq_refl eq_refl)
      as (_ & _ & _ & H & _).
    exact (H eq_refl).
Defined.

End Methods.

(** ** What holds throughout a session *)
Section SessionInvariants.
Import JS Lodash MediaMachine Fsm MediaProvider Spec Session.

Ltac session_step :=
  match goal with
  | |- preserves _ (bind _ _) => apply preserves_bind; [|intros ?]
  | |- preserves _ (ret _) => apply preserves_ret
  | |- preserves _ (gets _) => apply preserves_gets
  | |- preserves _ (throw _) => apply preserves_throw
  | |- preserves _ _getMedia => apply preserves_getMedia
  | |- preserves _ _getHls => apply preserves_getHls
  | |- preserves ?I (if true then ?a else _) => change (preserves I a)
  | |- preserves ?I (if false then _ else ?b) => change (preserves I b)
  | |- preserves _ (if ?b then _ else _) => destruct b
  | |- preserves _ (match ?x with _ => _ end) => destruct x
  end.

Ltac session_unfold :=
  unfold _onLoadedMetadata, _onSeeking, _onSeeked, _onRateChange,
    _onVolumeChange, _onCanPlay, _onWaiting, _onPause, _onPlay, _onTimeUpdate,
    _onProgress, _onDurationChange, _onError, setCurrentTime, setPlaybackRate,
    setVolume, assign_volume, assign_currentTime, assign_playbackRate,
    setMuted, setPaused, setCurrentBirateIndex,
    setRotate, _applyInitialDuration, deliver, on_MEDIA_ATTACHED,
    on_MANIFEST_PARSED, on_LEVEL_SWITCHED, on_ERROR, effect_runs, unmount,
    run_cleanup, useEffect_mediaSource,
    releaseHlsResource, checkMediaHasDataToPlay, setLoadingStatus,
    setCanPlayStatus, await, media_pause, on_hls.

Lemma core_settle (p : PromiseId) (ok : bool) (w : World) :
  core (world_of (settle p ok w)) = core w.
Proof.
  unfold settle.
  now destruct (Nat.ltb p (next_promise w)
                && match lookup p (settled w) with
                   | None => true
                   | Some _ => false
                   end).
Qed.

Lemma core_media_play (m : HTMLMediaElement.t) (w : World) :
  core (world_of (media_play m w)) = core w.
Proof.
  unfold media_play. now destruct (HTMLMediaElement.play_returns_promise m).
Qed.

Lemma core_resume (i : nat) (w : World) :
  core (world_of (resume i w)) = core w.
Proof.
  unfold resume.
  destruct (nth_error (awaiting w) i) as [p|]; [|reflexivity].
  destruct (lookup p (settled w)) as [[|]|]; try reflexivity.
  unfold setPaused_continuation, bind, modify, gets, media_pause, ret. simpl.
  now destruct (_pausedRef w).
Qed.

Lemma read_updateMedia_untouched (k : Key) (u : Partial) (c : MediaValuesContext) :
  untouched k u = true -> read k (updateMedia c u) = read k c.
Proof.
  unfold updateMedia, untouched. revert c.
  induction u as [|p u IH]; intros c Hu; [reflexivity|].
  simpl in *. apply andb_prop in Hu as [Hp Hu].
  rewrite IH by assumption. rewrite read_assign_property.
  now destruct (Key_eqb (key_of p) k).
Qed.

Section Framed.
Variable I : World -> Prop.
Hypothesis I_core : respects_core I.

Lemma preserves_by_core {A} (c : M A) :
  (forall w, core (world_of (c w)) = core w) -> preserves I c.
Proof. intros Hc w Hw. exact (I_core w _ (Hc w) Hw). Qed.

Lemma preserves_fire (id : TimerId) :
  preserves I (updateMediaService [P_status LOADING]) -> preserves I (fire id).
Proof.
  intros Hload w Hw. unfold fire.
  destruct (find (fun t => Pos.eqb (fst t) id) (timers w))
    as [[id' due]|]; [|exact Hw].
  destruct (Z.leb due (clock w)); [|exact Hw].
  unfold bind, clearTimeout, modify, loading_callback. cbn [world_of].
  apply Hload. apply (I_core w); [reflexivity|exact Hw].
Qed.

End Framed.

Ltac framed HI :=
  apply (preserves_by_core _ HI);
  first [ apply core_settle | apply core_media_play | apply core_resume
        | (intros ?; reflexivity) ].

(** *** LOADING comes from the timeout alone *)

Lemma calm_core : respects_core calm.
Proof.
  intros w w' Hcore [Hrun Hst]. unfold core in Hcore.
  injection Hcore as Hs _ _ _.
  unfold calm, running, getSnapshot in *. rewrite Hs. now split.
Qed.

Lemma calm_handler (e : Event) :
  is_timeout e = false -> preserves calm (handler e).
Proof.
  intros He. destruct e; try discriminate He; cbn [handler];
    repeat first
      [ (apply calm_updateMediaService; reflexivity)
      | session_step
      | progress session_unfold
      | framed calm_core
      | (unfold on_media; apply preserves_modify; intros ? Hw; exact Hw) ].
Qed.

(** Whatever happens to a provider whose status is not LOADING, the status
    becomes LOADING in one step only if that step is a timeout firing, the
    timeout was pending and its due time has come: no listener, control
    method or adapter event sets LOADING directly. *)
Theorem only_a_due_timeout_brings_loading :
  forall (w : World) (e : Event),
    running w ->
    status (getSnapshot w) <> LOADING ->
    status (getSnapshot (step w e)) = LOADING ->
    exists id due,
      e = timeout_fires id /\ In (id, due) (timers w) /\ due <= clock w.
Proof.
  intros w e Hrun Hst Hload.
  destruct (is_timeout e) eqn:He.
  - destruct e; try discriminate He. exists id.
    unfold step, handler, fire in Hload.
    destruct (find (fun t => Pos.eqb (fst t) id) (timers w))
      as [[id' due]|] eqn:Hfind; [|contradiction].
    apply find_some in Hfind as [Hin Hid]. simpl in Hid.
    apply Pos.eqb_eq in Hid. subst id'. exists due.
    destruct (Z.leb_spec due (clock w)); [|contradiction].
    now repeat split.
  - exfalso. apply (calm_handler e He w (conj Hrun Hst)). exact Hload.
Qed.

Lemma only_a_due_timeout_brings_loading_witness :
  exists id due,
    timeout_fires 1%positive = timeout_fires id
    /\ In (id, due)
         (timers
            (with_clock 2000
               (with_timers [(1%positive, 1500)] 2%positive
                  (step (mounted new_element) onCanPlay))))
    /\ due <= clock
                (with_clock 2000
                   (with_timers [(1%positive, 1500)] 2%positive
                      (step (mounted new_element) onCanPlay))).
Proof.
  exact (only_a_due_timeout_brings_loading
           (with_clock 2000
              (with_timers [(1%positive, 1500)] 2%positive
                 (step (mounted new_element) onCanPlay)))
           (timeout_fires 1%positive)
           eq_refl ltac:(discriminate) eq_refl).
Defined.

(** *** The stored rotation *)

Lemma rem_360_bounded (r : number) : bounded_rotation (rem r (of_Z 360)).
Proof.
  destruct r as [| | |q]; try (now left).
  right. destruct (Qlt_le_dec q 0) as [Hneg|Hpos].
  - destruct (rem_360_of_negative q Hneg) as (x & Hx & Hlo & Hhi).
    exists x. repeat split; [exact Hx|exact Hlo|lra].
  - destruct (rem_360_of_nonnegative q Hpos) as (x & Hx & Hlo & Hhi).
    exists x. repeat split; [exact Hx|lra|exact Hhi].
Qed.

Lemma rotate_untouched (u : Partial) (c : MediaValuesContext) :
  untouched K_rotate u = true -> rotate (updateMedia c u) = rotate c.
Proof.
  intros Hu. pose proof (read_updateMedia_untouched K_rotate u c Hu) as H.
  simpl in H. now injection H.
Qed.

Lemma rotation_core : respects_core rotation_bounded.
Proof.
  intros w w' Hcore [Hrun Hrot]. unfold core in Hcore.
  injection Hcore as Hs _ _ _.
  unfold rotation_bounded, running, getSnapshot in *. rewrite Hs. now split.
Qed.

Lemma rotation_update (u : Partial) :
  untouched K_rotate u = true ->
  preserves rotation_bounded (updateMediaService u).
Proof.
  intros Hu w [Hrun Hrot]. split.
  - now apply running_updateMediaService.
  - rewrite getSnapshot_updateMediaService by assumption.
    now rewrite rotate_untouched.
Qed.

Lemma rotation_setRotate (r : number) :
  preserves rotation_bounded (setRotate r).
Proof.
  intros w [Hrun Hrot]. unfold setRotate. split.
  - now apply running_updateMediaService.
  - rewrite getSnapshot_updateMediaService by assumption.
    unfold updateMedia. simpl.
    replace (rotate (assign_property (getSnapshot w)
                       (P_rotate (rem r (of_Z 360)))))
      with (rem r (of_Z 360)) by now destruct (getSnapshot w).
    apply rem_360_bounded.
Qed.

Lemma rotation_handler (e : Event) : preserves rotation_bounded (handler e).
Proof.
  destruct e; cbn [handler];
    try apply rotation_setRotate;
    try (apply (preserves_fire _ rotation_core); apply rotation_update;
         reflexivity);
    repeat first
      [ (apply rotation_update; reflexivity)
      | session_step
      | progress session_unfold
      | framed rotation_core
      | (unfold on_media; apply preserves_modify; intros ? Hw; exact Hw) ].
Qed.

(** Through any sequence of events, from the first render on, the stored
    rotation is [NaN] or lies strictly between -360 and 360 degrees. *)
Theorem rotation_stays_bounded :
  forall (initialDuration : number) (isSupported : bool) (es : list Event),
    bounded_rotation
      (rotate (getSnapshot (run es (first_world initialDuration isSupported)))).
Proof.
  intros d b es.
  assert (H : rotation_bounded (run es (first_world d b))).
  { apply preserves_run.
    - intros e _. apply rotation_handler.
    - split; [reflexivity|]. right. exists 0%Q. repeat split; reflexivity. }
  apply H.
Qed.

(** *** The stored duration *)

Lemma duration_untouched (u : Partial) (c : MediaValuesContext) :
  untouched K_duration u = true -> duration (updateMedia c u) = duration c.
Proof.
  intros Hu. pose proof (read_updateMedia_untouched K_duration u c Hu) as H.
  simpl in H. now injection H.
Qed.

Lemma duration_core : respects_core duration_known.
Proof.
  intros w w' Hcore (Hrun & Hinit & Hdur). unfold core in Hcore.
  injection Hcore as Hs _ _ Hi.
  unfold duration_known, running, getSnapshot in *. rewrite Hs, Hi.
  now repeat split.
Qed.

Lemma duration_update (u : Partial) :
  untouched K_duration u = true ->
  preserves duration_known (updateMediaService u).
Proof.
  intros Hu w (Hrun & Hinit & Hdur). split; [|split].
  - now apply running_updateMediaService.
  - exact Hinit.
  - rewrite getSnapshot_updateMediaService by assumption.
    now rewrite duration_untouched.
Qed.

Lemma duration_assigned (d : number) (w : World) :
  duration_known w -> d <> PosInfinity ->
  duration_known (world_of (updateMediaService [P_duration d] w)).
Proof.
  intros (Hrun & Hinit & Hdur) Hd. split; [|split].
  - now apply running_updateMediaService.
  - exact Hinit.
  - rewrite getSnapshot_updateMediaService by assumption.
    unfold updateMedia. simpl.
    replace (duration (assign_property (getSnapshot w) (P_duration d)))
      with d by now destruct (getSnapshot w).
    exact Hd.
Qed.

Lemma duration_onDurationChange : preserves duration_known _onDurationChange.
Proof.
  intros w Hw. unfold _onDurationChange, bind, _getMedia.
  destruct (_mediaRef w) as [media|]; [|exact Hw].
  destruct (strict_neq (Math_round (HTMLMediaElement.duration media))
              PosInfinity) eqn:Hneq; [|exact Hw].
  apply duration_assigned; [exact Hw|].
  intros Heq. rewrite Heq in Hneq. discriminate Hneq.
Qed.

Lemma duration_applyInitialDuration :
  preserves duration_known _applyInitialDuration.
Proof.
  intros w Hw. unfold _applyInitialDuration, bind, gets.
  apply duration_assigned; [exact Hw|]. apply Hw.
Qed.

Lemma duration_handler (e : Event) : preserves duration_known (handler e).
Proof.
  destruct e; cbn [handler];
    try apply duration_onDurationChange;
    try apply duration_applyInitialDuration;
    try (apply (preserves_fire _ duration_core); apply duration_update;
         reflexivity);
    repeat first
      [ (apply duration_update; reflexivity)
      | session_step
      | progress session_unfold
      | framed duration_core
      | (unfold on_media; apply preserves_modify; intros ? Hw; exact Hw) ].
Qed.

(** When the prop [initialDuration] is not [Infinity], the stored duration
    is never [Infinity], through any sequence of events from the first render
    on: the duration listener drops that value and nothing else writes the
    field but [_applyInitialDuration]. *)
Theorem duration_is_never_infinite :
  forall (initialDuration : number) (isSupported : bool) (es : list Event),
    initialDuration <> PosInfinity ->
    duration (getSnapshot (run es (first_world initialDuration isSupported)))
    <> PosInfinity.
Proof.
  intros d b es Hd.
  assert (H : duration_known (run es (first_world d b))).
  { apply preserves_run.
    - intros e _. apply duration_handler.
    - split; [reflexivity|]. split; [exact Hd|discriminate]. }
  apply H.
Qed.

Lemma duration_is_never_infinite_witness :
  duration
    (getSnapshot
       (run [browser_element (with_duration PosInfinity new_element);
             onDurationChange; call_applyInitialDuration]
          (first_world (of_Z 100) true)))
  <> PosInfinity.
Proof.
  apply (duration_is_never_infinite (of_Z 100) true
           [browser_element (with_duration PosInfinity new_element);
            onDurationChange; call_applyInitialDuration]).
  discriminate.
Defined.

(** *** The volume *)

Lemma volume_untouched (u : Partial) (c : MediaValuesContext) :
  untouched K_volume u = true -> volume (updateMedia c u) = volume c.
Proof.
  intros Hu. pose proof (read_updateMedia_untouched K_volume u c Hu) as H.
  simpl in H. now injection H.
Qed.

Lemma volume_core : respects_core volume_in_range.
Proof.
  intros w w' Hcore (Hrun & Hvol & Hel). unfold core in Hcore.
  injection Hcore as Hs Hm _ _.
  unfold volume_in_range, running, getSnapshot in *. rewrite Hs, Hm.
  now repeat split.
Qed.

Lemma volume_update (u : Partial) :
  untouched K_volume u = true ->
  preserves volume_in_range (updateMediaService u).
Proof.
  intros Hu w (Hrun & Hvol & Hel). split; [|split].
  - now apply running_updateMediaService.
  - rewrite getSnapshot_updateMediaService by assumption.
    now rewrite volume_untouched.
  - exact Hel.
Qed.

Lemma volume_on_media (f : HTMLMediaElement.t -> HTMLMediaElement.t) :
  (forall m, within 0 1 (HTMLMediaElement.volume m) ->
             within 0 1 (HTMLMediaElement.volume (f m))) ->
  preserves volume_in_range (on_media f).
Proof.
  intros Hf w (Hrun & Hvol & Hel). split; [exact Hrun|]. split; [exact Hvol|].
  intros m Hm. simpl in Hm.
  destruct (_mediaRef w) as [m0|]; [|discriminate].
  injection Hm as <-. apply Hf. now apply Hel.
Qed.

Lemma accepted_within (v : number) :
  HTMLMediaElement.volume_accepted v = true -> within 0 1 v.
Proof.
  unfold HTMLMediaElement.volume_accepted. intros H.
  apply andb_prop in H as [Hlo Hhi].
  destruct v as [| | |q]; try discriminate.
  exists q. simpl in Hlo, Hhi. apply Qle_bool_iff in Hlo, Hhi.
  now repeat split.
Qed.

Lemma volume_onVolumeChange : preserves volume_in_range _onVolumeChange.
Proof.
  intros w Hw. unfold _onVolumeChange, bind, _getMedia.
  destruct (_mediaRef w) as [media|] eqn:Href; [|exact Hw].
  destruct Hw as (Hrun & Hvol & Hel). split; [|split].
  - now apply running_updateMediaService.
  - rewrite getSnapshot_updateMediaService by assumption.
    unfold updateMedia. simpl.
    match goal with
    | |- within 0 1 (volume ?c) =>
        replace (volume c) with (HTMLMediaElement.volume media)
          by now destruct (getSnapshot w)
    end.
    now apply Hel.
  - exact Hel.
Qed.

Lemma volume_setVolume (v : number) : preserves volume_in_range (setVolume v).
Proof.
  unfold setVolume, assign_volume.
  apply preserves_bind; [apply preserves_getMedia|]. intros _.
  destruct (HTMLMediaElement.volume_accepted (clamp v (of_Z 0) (of_Z 1)))
    eqn:Hacc; [|apply preserves_throw].
  apply volume_on_media. intros m _. simpl. now apply accepted_within.
Qed.

Lemma volume_browser_element (media : HTMLMediaElement.t) :
  within 0 1 (HTMLMediaElement.volume media) ->
  preserves volume_in_range (modify (with_mediaRef (Some media))).
Proof.
  intros Hm w (Hrun & Hvol & _). split; [exact Hrun|]. split; [exact Hvol|].
  intros m Heq. simpl in Heq. now injection Heq as <-.
Qed.

Lemma volume_handler (e : Event) :
  element_volume_ok e -> preserves volume_in_range (handler e).
Proof.
  intros He. destruct e; cbn [handler];
    try apply volume_onVolumeChange;
    try apply volume_setVolume;
    try (apply volume_browser_element; exact He);
    try (apply (preserves_fire _ volume_core); apply volume_update;
         reflexivity);
    repeat first
      [ (apply volume_update; reflexivity)
      | (apply volume_on_media; intros ? Hm; exact Hm)
      | session_step
      | progress session_unfold
      | framed volume_core
      | (apply preserves_modify; intros ? Hw; exact Hw) ].
Qed.

(** As long as the browser only ever presents an element whose volume is in
    [0, 1], the volume the snapshot stores and the volume of the element stay
    in [0, 1] through any sequence of events: [setVolume] never hands the
    element a value outside that range, and the store takes its volume from
    the element alone. *)
Theorem volume_stays_in_range :
  forall (es : list Event) (w : World),
    volume_in_range w ->
    Forall element_volume_ok es ->
    volume_in_range (run es w).
Proof.
  intros es w Hw Hes. apply preserves_run; [|exact Hw].
  intros e He. apply volume_handler.
  rewrite Forall_forall in Hes. now apply Hes.
Qed.

Lemma volume_in_range_mounted : volume_in_range (mounted new_element).
Proof.
  split; [reflexivity|]. split.
  - exists 1%Q. repeat split; discriminate.
  - intros m Hm. injection Hm as <-. exists 1%Q. repeat split; discriminate.
Qed.

Lemma volume_stays_in_range_witness :
  volume_in_range
    (run [call_setVolume (of_Z 7); onVolumeChange; call_setVolume NaN;
          call_setVolume NegInfinity; onVolumeChange]
       (mounted new_element)).
Proof.
  apply (volume_stays_in_range
           [call_setVolume (of_Z 7); onVolumeChange; call_setVolume NaN;
            call_setVolume NegInfinity; onVolumeChange]
           (mounted new_element) volume_in_range_mounted).
  repeat constructor.
Defined.

(** *** The paused state *)

Lemma paused_untouched (u : Partial) (c : MediaValuesContext) :
  untouched K_paused u = true -> paused (updateMedia c u) = paused c.
Proof.
  intros Hu. pose proof (read_updateMedia_untouched K_paused u c Hu) as H.
  simpl in H. now injection H.
Qed.

Lemma paused_core : respects_core paused_agrees.
Proof.
  intros w w' Hcore (Hrun & Hel & Hp). unfold core in Hcore.
  injection Hcore as Hs Hm Hr _.
  unfold paused_agrees, running, getSnapshot in *. rewrite Hs, Hm, Hr.
  now repeat split.
Qed.

Lemma paused_update (u : Partial) :
  untouched K_paused u = true ->
  preserves paused_agrees (updateMediaService u).
Proof.
  intros Hu w (Hrun & Hel & Hp). split; [|split].
  - now apply running_updateMediaService.
  - exact Hel.
  - rewrite getSnapshot_updateMediaService by assumption.
    now rewrite paused_untouched.
Qed.

Lemma paused_on_media (f : HTMLMediaElement.t -> HTMLMediaElement.t) :
  preserves paused_agrees (on_media f).
Proof.
  intros w (Hrun & Hel & Hp). split; [exact Hrun|]. split; [|exact Hp].
  simpl. destruct (_mediaRef w); [discriminate|congruence].
Qed.

Lemma paused_recorded (b : bool) (rest : Partial) (w : World) :
  paused_agrees w ->
  untouched K_paused rest = true ->
  paused_agrees
    (world_of (updateMediaService (P_paused b :: rest) (with_pausedRef b w))).
Proof.
  intros (Hrun & Hel & _) Hrest. split; [|split].
  - now apply running_updateMediaService.
  - exact Hel.
  - rewrite getSnapshot_updateMediaService by exact Hrun.
    change (updateMedia (getSnapshot (with_pausedRef b w)) (P_paused b :: rest))
      with (updateMedia (assign_property (getSnapshot w) (P_paused b)) rest).
    rewrite paused_untouched by assumption.
    simpl. now destruct (getSnapshot w).
Qed.

Lemma paused_onPause : preserves paused_agrees _onPause.
Proof.
  intros w Hw. unfold _onPause, bind, modify, _getMedia. simpl.
  destruct (_mediaRef w) as [media|] eqn:Href; [|now destruct Hw as (_ & ? & _)].
  now apply (paused_recorded true).
Qed.

Lemma paused_onPlay : preserves paused_agrees _onPlay.
Proof.
  intros w Hw. unfold _onPlay, bind, modify, _getMedia. simpl.
  destruct (_mediaRef w) as [media|] eqn:Href; [|now destruct Hw as (_ & ? & _)].
  now apply (paused_recorded false).
Qed.

Lemma paused_setPaused (b : bool) : preserves paused_agrees (setPaused b).
Proof.
  intros w Hw. unfold setPaused, bind, _getMedia.
  destruct (_mediaRef w) as [media|] eqn:Href; [|exact Hw].
  unfold modify at 1. cbn iota beta.
  pose proof (paused_recorded b [] w Hw eq_refl) as H1.
  unfold updateMediaService at 1, modify at 1. cbn iota beta.
  unfold updateMediaService, modify in H1. cbn [world_of] in H1.
  destruct b.
  - unfold gets. cbn iota beta.
    match goal with
    | |- context [match _playPromise ?x with _ => _ end] =>
        destruct (_playPromise x)
    end; exact H1.
  - unfold media_play.
    destruct (HTMLMediaElement.play_returns_promise media); exact H1.
Qed.

Lemma paused_browser_element (media : HTMLMediaElement.t) :
  preserves paused_agrees (modify (with_mediaRef (Some media))).
Proof.
  intros w (Hrun & _ & Hp). split; [exact Hrun|]. split; [discriminate|exact Hp].
Qed.

Lemma paused_handler (e : Event) : preserves paused_agrees (handler e).
Proof.
  destruct e; cbn [handler];
    try apply paused_onPause; try apply paused_onPlay;
    try apply paused_setPaused; try apply paused_browser_element;
    try (apply (preserves_fire _ paused_core); apply paused_update;
         reflexivity);
    repeat first
      [ (apply paused_update; reflexivity)
      | apply paused_on_media
      | session_step
      | progress session_unfold
      | framed paused_core ].
Qed.

(** Once the element is attached, the snapshot's [paused] field equals the
    paused-state the binder last recorded, after every event of any sequence:
    a pause or play request and the element's own pause and play events
    write both together, and nothing else writes either. *)
Theorem paused_follows_the_latest_request :
  forall (es : list Event) (w : World),
    paused_agrees w -> paused_agrees (run es w).
Proof.
  intros es w Hw. apply preserves_run; [|exact Hw].
  intros e _. apply paused_handler.
Qed.

Lemma paused_follows_the_latest_request_witness :
  paused_agrees
    (run [call_setPaused false; onPlay; call_setPaused true;
          promise_settles 0%nat true; continuation_resumes 0%nat; onPause]
       (mounted new_element)).
Proof.
  apply (paused_follows_the_latest_request
           [call_setPaused false; onPlay; call_setPaused true;
            promise_settles 0%nat true; continuation_resumes 0%nat; onPause]
           (mounted new_element)).
  split; [reflexivity|]. split; [discriminate|reflexivity].
Defined.

(** *** Native transport calls *)

Lemma calls_handler (c : list HTMLMediaElement.Call) (e : Event) :
  transport_event e = false ->
  preserves (fun w => element_calls w = c) (handler e).
Proof.
  intros He. destruct e; try discriminate He; cbn [handler];
    try (intros w Hw; unfold fire;
         destruct (find (fun t => Pos.eqb (fst t) id) (timers w))
           as [[id' due]|]; [|exact Hw];
         destruct (Z.leb due (clock w)); exact Hw);
    try (intros w Hw; unfold settle;
         destruct (Nat.ltb p (next_promise w)
                   && match lookup p (settled w) with
                      | None => true
                      | Some _ => false
                      end); exact Hw);
    repeat first
      [ session_step
      | progress session_unfold
      | progress unfold on_media, clearTimeout, updateMediaService
      | (apply preserves_modify; intros ? Hw; exact Hw)
      | (intros ? Hw; exact Hw) ].
Qed.

(** The log of native calls only grows, by at most what one handler issues,
    and a native [pause()] is issued only in a step after which the latest
    recorded paused-state is [true]: whether it comes straight from a pause
    request or from a suspended one that resumes, the element is never paused
    against a play request that came later. *)
Theorem native_pause_only_when_requested :
  forall (w : World) (e : Event),
    exists issued,
      element_calls (step w e) = (element_calls w ++ issued)%list
      /\ (length issued <= 1)%nat
      /\ (In HTMLMediaElement.pause issued -> _pausedRef (step w e) = true).
Proof.
  intros w e.
  assert (Hnone : forall (cs : list HTMLMediaElement.Call) (pr : bool),
             cs = element_calls w ->
             exists issued,
               cs = (element_calls w ++ issued)%list
               /\ (length issued <= 1)%nat
               /\ (In HTMLMediaElement.pause issued -> pr = true)).
  { intros cs pr Hcs. exists []. rewrite app_nil_r.
    split; [exact Hcs|]. split; [simpl; lia|intros []]. }
  assert (Hplay : forall (pr : bool),
             exists issued,
               (element_calls w ++ [HTMLMediaElement.play])%list
               = (element_calls w ++ issued)%list
               /\ (length issued <= 1)%nat
               /\ (In HTMLMediaElement.pause issued -> pr = true)).
  { intros pr. exists [HTMLMediaElement.play].
    split; [reflexivity|]. split; [simpl; lia|].
    intros [H|[]]. discriminate H. }
  assert (Hpause : exists issued,
             (element_calls w ++ [HTMLMediaElement.pause])%list
             = (element_calls w ++ issued)%list
             /\ (length issued <= 1)%nat
             /\ (In HTMLMediaElement.pause issued -> true = true)).
  { exists [HTMLMediaElement.pause].
    split; [reflexivity|]. split; [simpl; lia|reflexivity]. }
  destruct (transport_event e) eqn:He.
  - destruct e; try discriminate He; unfold step; cbn [handler].
    + unfold _onLoadedMetadata, bind, gets, _getMedia.
      destruct (_pausedRef w) eqn:Hp; simpl; [now apply Hnone|].
      destruct (_mediaRef w) as [media|]; simpl; [|now apply Hnone].
      unfold media_play.
      destruct (HTMLMediaElement.play_returns_promise media); simpl;
        apply Hplay.
    + unfold setPaused, bind, _getMedia.
      destruct (_mediaRef w) as [media|]; simpl; [|now apply Hnone].
      destruct paused0; simpl.
      * destruct (_playPromise w); simpl; [now apply Hnone|apply Hpause].
      * unfold media_play.
        destruct (HTMLMediaElement.play_returns_promise media); simpl;
          apply Hplay.
    + unfold resume.
      destruct (nth_error (awaiting w) i) as [p|]; [|now apply Hnone].
      destruct (lookup p (settled w)) as [[|]|]; simpl; try now apply Hnone.
      unfold setPaused_continuation, bind, modify, gets, media_pause, ret.
      simpl. destruct (_pausedRef w) eqn:Hp; simpl.
      * rewrite Hp. apply Hpause.
      * now apply Hnone.
  - apply Hnone.
    exact (calls_handler (element_calls w) e He w eq_refl).
Qed.

(** *** Errors and readiness *)

Lemma due_timeout_sets_loading (w : World) (id : TimerId) (due : Z) :
  running w ->
  timers w = [(id, due)] ->
  due <= clock w ->
  status (getSnapshot (step w (timeout_fires id))) = LOADING.
Proof.
  intros Hrun Ht Hdue. unfold step, handler, fire. rewrite Ht. simpl.
  rewrite Pos.eqb_refl.
  destruct (Z.leb_spec due (clock w)); [|lia].
  unfold bind, clearTimeout, modify, loading_callback. cbn [world_of].
  rewrite getSnapshot_updateMediaService by exact Hrun.
  unfold updateMedia. simpl.
  match goal with |- status (assign_property ?c _) = _ => now destruct c end.
Qed.

(** An error event of the element sets the status to ERROR but leaves a
    pending LOADING timeout in place: when that timeout falls due and fires,
    the status goes from ERROR to LOADING. *)
Theorem element_error_keeps_the_pending_timeout :
  forall (w : World) (id : TimerId) (due : Z),
    running w ->
    timers w = [(id, due)] ->
    let w1 := step w onError in
    status (getSnapshot w1) = ERROR
    /\ timers w1 = [(id, due)]
    /\ forall ms,
         due <= clock w + Z.max 0 ms ->
         status (getSnapshot (run [elapse ms; timeout_fires id] w1)) = LOADING.
Proof.
  intros w id due Hrun Htimers w1.
  assert (Hw1 : w1 = world_of (updateMediaService [P_status ERROR] w))
    by reflexivity.
  assert (Hrun1 : running w1)
    by (rewrite Hw1; now apply running_updateMediaService).
  split; [|split].
  - rewrite Hw1, getSnapshot_updateMediaService by assumption.
    unfold updateMedia. simpl. now destruct (getSnapshot w).
  - rewrite Hw1. exact Htimers.
  - intros ms Hms.
    change (run [elapse ms; timeout_fires id] w1)
      with (step (with_clock (clock w1 + Z.max 0 ms) w1) (timeout_fires id)).
    apply (due_timeout_sets_loading _ id due).
    + exact Hrun1.
    + rewrite Hw1. exact Htimers.
    + rewrite Hw1. exact Hms.
Qed.

Lemma element_error_keeps_the_pending_timeout_witness :
  status
    (getSnapshot
       (run [elapse 500; timeout_fires 1%positive]
          (step (with_timers [(1%positive, 300)] 2%positive
                   (mounted new_element))
             onError)))
  = LOADING.
Proof.
  destruct (element_error_keeps_the_pending_timeout
              (with_timers [(1%positive, 300)] 2%positive (mounted new_element))
              1%positive 300 eq_refl eq_refl) as (_ & _ & H).
  apply (H 500). discriminate.
Defined.

(** A can-play event sets the status to CAN_PLAY and clears the pending
    LOADING timeout whatever is buffered at the position, also from ERROR or
    RECOVERING, and LOADING cannot follow until a seek or a waiting signal
    schedules it again. *)
Theorem can_play_cancels_loading :
  forall (w : World),
    running w ->
    tracked w ->
    let w1 := step w onCanPlay in
    status (getSnapshot w1) = CAN_PLAY
    /\ timers w1 = []
    /\ forall es,
         existsb schedules es = false ->
         status (getSnapshot (run es w1)) <> LOADING.
Proof.
  intros w Hrun Htr w1.
  assert (Hw1 : w1 = world_of (updateMediaService [P_status CAN_PLAY]
                                 (with_timers [] (next_timer w) w))).
  { unfold w1, step, handler, _onCanPlay.
    now apply setCanPlayStatus_tracked. }
  assert (Hrun1 : running w1).
  { rewrite Hw1. apply running_updateMediaService. exact Hrun. }
  assert (Hcan : status (getSnapshot w1) = CAN_PLAY).
  { rewrite Hw1, getSnapshot_updateMediaService by exact Hrun.
    unfold updateMedia. simpl.
    match goal with |- status (assign_property ?c _) = _ => now destruct c end. }
  assert (Ht : timers w1 = []) by (rewrite Hw1; reflexivity).
  split; [exact Hcan|]. split; [exact Ht|].
  intros es Hes.
  assert (Hidle : idle w1).
  { split; [split; [exact Hrun1|]|exact Ht]. rewrite Hcan. discriminate. }
  apply (idle_run es w1 Hes) in Hidle. apply Hidle.
Qed.

Lemma can_play_cancels_loading_witness :
  status
    (getSnapshot
       (run [elapse 5000; timeout_fires 1%positive]
          (step (with_timeoutLoadingId (Some 1%positive)
                   (with_timers [(1%positive, 300)] 2%positive
                      (mounted new_element)))
             onCanPlay)))
  <> LOADING.
Proof.
  destruct (can_play_cancels_loading
              (with_timeoutLoadingId (Some 1%positive)
                 (with_timers [(1%positive, 300)] 2%positive
                    (mounted new_element)))
              eq_refl
              (or_intror (ex_intro _ 1%positive
                            (ex_intro _ 300 (conj eq_refl eq_refl)))))
    as (_ & _ & H).
  apply (H [elapse 5000; timeout_fires 1%positive]). reflexivity.
Defined.

(** *** A rejected play promise *)

Lemma lookup_app_found {A} (q : PromiseId) (l l' : list (PromiseId * A)) (v : A) :
  lookup q l = Some v -> lookup q (l ++ l') = Some v.
Proof.
  induction l as [|[k x] l IH]; simpl; [discriminate|].
  destruct (Nat.eqb k q); [auto|exact IH].
Qed.

Lemma pauses_after_play (w : World) (cs : list HTMLMediaElement.Call) :
  filter is_pause (cs ++ [HTMLMediaElement.play]) = filter is_pause cs.
Proof. rewrite filter_app. simpl. apply app_nil_r. Qed.

Lemma rejected_settle (p : PromiseId) (issued : list HTMLMediaElement.Call)
  (q : PromiseId) (ok : bool) :
  preserves (holds_rejected p issued) (settle q ok).
Proof.
  intros w Hw. unfold settle.
  destruct (Nat.ltb q (next_promise w)
            && match lookup q (settled w) with
               | None => true
               | Some _ => false
               end); [|exact Hw].
  destruct Hw as (Hp & Hrej & Hall & Hcalls).
  split; [exact Hp|]. split; [|split; [|exact Hcalls]].
  - simpl. now apply lookup_app_found.
  - simpl. eapply Forall_impl; [|exact Hall].
    intros a Ha. now apply lookup_app_found.
Qed.

Lemma rejected_fire (p : PromiseId) (issued : list HTMLMediaElement.Call)
  (id : TimerId) :
  preserves (holds_rejected p issued) (fire id).
Proof.
  intros w Hw. unfold fire.
  destruct (find (fun t => Pos.eqb (fst t) id) (timers w))
    as [[id' due]|]; [|exact Hw].
  destruct (Z.leb due (clock w)); exact Hw.
Qed.

Lemma Forall_remove_nth {A} (P : A -> Prop) (i : nat) (l : list A) :
  Forall P l -> Forall P (remove_nth i l).
Proof.
  revert i. induction l as [|x l IH]; intros i Hl; [now destruct i|].
  inversion Hl; subst. destruct i; simpl; [assumption|].
  constructor; [assumption|now apply IH].
Qed.

Lemma rejected_resume (p : PromiseId) (issued : list HTMLMediaElement.Call)
  (i : nat) :
  preserves (holds_rejected p issued) (resume i).
Proof.
  intros w Hw. unfold resume.
  destruct (nth_error (awaiting w) i) as [q|] eqn:Hi; [|exact Hw].
  destruct Hw as (Hp & Hrej & Hall & Hcalls).
  assert (Hq : lookup q (settled w) = Some false).
  { rewrite Forall_forall in Hall. apply Hall.
    now apply nth_error_In with i. }
  rewrite Hq. simpl.
  split; [exact Hp|]. split; [exact Hrej|]. split; [|exact Hcalls].
  simpl. now apply Forall_remove_nth.
Qed.

Lemma rejected_media_play (p : PromiseId)
  (issued : list HTMLMediaElement.Call) (m : HTMLMediaElement.t) :
  preserves (holds_rejected p issued) (media_play m).
Proof.
  intros w (Hp & Hrej & Hall & Hcalls). unfold media_play.
  destruct (HTMLMediaElement.play_returns_promise m); simpl;
    (split; [exact Hp|]; split; [exact Hrej|]; split; [exact Hall|]);
    unfold pauses; simpl; now rewrite (pauses_after_play w).
Qed.

Lemma rejected_pause_request (p : PromiseId)
  (issued : list HTMLMediaElement.Call) :
  preserves (holds_rejected p issued) (setPaused true).
Proof.
  intros w Hw. unfold setPaused, bind, _getMedia.
  destruct (_mediaRef w) as [media|]; [|exact Hw].
  destruct Hw as (Hp & Hrej & Hall & Hcalls).
  unfold modify, updateMediaService, modify, gets. simpl. rewrite Hp. simpl.
  split; [exact Hp|]. split; [exact Hrej|]. split; [|exact Hcalls].
  simpl. apply Forall_app. split; [exact Hall|]. now constructor.
Qed.

Lemma rejected_handler (p : PromiseId) (issued : list HTMLMediaElement.Call)
  (e : Event) :
  is_play_request e = false ->
  preserves (holds_rejected p issued) (handler e).
Proof.
  intros He. destruct e; try discriminate He;
    try match type of He with
        | is_play_request (call_setPaused ?b) = false =>
            destruct b; [|discriminate He]
        end;
    cbn [handler];
    try apply rejected_fire; try apply rejected_settle;
    try apply rejected_resume; try apply rejected_pause_request;
    repeat first
      [ apply rejected_media_play
      | session_step
      | progress session_unfold
      | progress unfold on_media, clearTimeout, updateMediaService
      | (apply preserves_modify; intros ? Hw; exact Hw)
      | (intros ? Hw; exact Hw) ].
Qed.

(** When the play promise the binder holds was rejected, as when the browser
    refuses to start playback, and every suspended [setPaused] call awaits a
    rejected promise too (as when none is suspended), every pause request
    is suspended on the held promise and ends without calling the element:
    whatever else happens, no native [pause()] is issued and the promise
    stays held until a new play request replaces it. *)
Theorem rejected_play_swallows_pause_requests :
  forall (es : list Event) (w : World) (p : PromiseId),
    _playPromise w = Some p ->
    lookup p (settled w) = Some false ->
    Forall (fun q => lookup q (settled w) = Some false) (awaiting w) ->
    existsb is_play_request es = false ->
    pauses (run es w) = pauses w /\ _playPromise (run es w) = Some p.
Proof.
  intros es w p Hheld Hrejected Hsuspended Hes.
  assert (H : holds_rejected p (pauses w) (run es w)).
  { apply preserves_run.
    - intros e He. apply rejected_handler.
      destruct (is_play_request e) eqn:Hp; [|reflexivity].
      assert (existsb is_play_request es = true)
        by (apply existsb_exists; eauto).
      congruence.
    - now repeat split. }
  split; apply H.
Qed.

Lemma rejected_play_swallows_pause_requests_witness :
  pauses
    (run [call_setPaused true; continuation_resumes 0%nat;
          call_setPaused true; continuation_resumes 0%nat]
       (run [call_setPaused false; promise_settles 0%nat false]
          (mounted new_element)))
  = pauses
      (run [call_setPaused false; promise_settles 0%nat false]
         (mounted new_element)).
Proof.
  apply (proj1 (rejected_play_swallows_pause_requests
                  [call_setPaused true; continuation_resumes 0%nat;
                   call_setPaused true; continuation_resumes 0%nat]
                  (run [call_setPaused false; promise_settles 0%nat false]
                     (mounted new_element))
                  0%nat eq_refl eq_refl (Forall_nil _) eq_refl)).
Defined.

(** *** The adapter's life cycle *)

(** Releasing the adapter destroys it, after which no adapter event changes
    the provider any more; with no adapter bound, releasing does nothing.
    The ref keeps pointing at the destroyed adapter. *)
Theorem released_adapter_is_silent :
  forall (w : World),
    let w1 := world_of (releaseHlsResource w) in
    (_hlsRef w = None -> w1 = w)
    /\ (forall hls, _hlsRef w = Some hls ->
          _hlsRef w1 = Some (Hls.call Hls.destroy hls)
          /\ getSnapshot w1 = getSnapshot w
          /\ forall es, forallb adapter_event es = true -> run es w1 = w1).
Proof.
  intros w w1. split.
  - intros Hnone. unfold w1, releaseHlsResource, bind, gets.
    now rewrite Hnone.
  - intros hls Hhls.
    assert (Hw1 : w1 = with_hlsRef (Some (Hls.call Hls.destroy hls)) w).
    { unfold w1, releaseHlsResource, bind, gets. rewrite Hhls.
      unfold on_hls, modify. simpl. now rewrite Hhls. }
    rewrite Hw1. split; [reflexivity|]. split; [reflexivity|].
    intros es Hes.
    now apply (destroyed_adapter_stays_silent es _ (Hls.call Hls.destroy hls)).
Qed.

Lemma released_adapter_is_silent_witness :
  run [hls_ERROR (Hls.mkErrorData true Hls.NETWORK_ERROR);
       hls_LEVEL_SWITCHED (of_Z 1)]
    (world_of
       (releaseHlsResource (with_hlsRef (Some Hls.create) (mounted new_element))))
  = world_of
      (releaseHlsResource (with_hlsRef (Some Hls.create) (mounted new_element))).
Proof.
  destruct (released_adapter_is_silent
              (with_hlsRef (Some Hls.create) (mounted new_element)))
    as (_ & H).
  destruct (H Hls.create eq_refl) as (_ & _ & Hsilent).
  apply Hsilent. reflexivity.
Defined.

Lemma releaseHlsResource_released (w : World) :
  releaseHlsResource w = Returned tt (released w).
Proof.
  unfold releaseHlsResource, released, bind, gets, on_hls, modify.
  destruct (_hlsRef w) as [hls|] eqn:Hhls; [|reflexivity].
  simpl. now rewrite Hhls.
Qed.

Lemma released_frame (w : World) :
  getSnapshot (released w) = getSnapshot w
  /\ _mediaRef (released w) = _mediaRef w
  /\ Hls_isSupported (released w) = Hls_isSupported w.
Proof. unfold released. now destruct (_hlsRef w). Qed.

Lemma cleaned_frame (w : World) :
  getSnapshot (cleaned w) = getSnapshot w
  /\ _mediaRef (cleaned w) = _mediaRef w
  /\ Hls_isSupported (cleaned w) = Hls_isSupported w.
Proof.
  unfold cleaned. destruct (effect_cleanup w); [|now repeat split].
  exact (released_frame w).
Qed.

Lemma run_cleanup_cleaned (w : World) :
  run_cleanup w = Returned tt (cleaned w).
Proof.
  unfold run_cleanup, cleaned, bind, gets, modify.
  destruct (effect_cleanup w); [|reflexivity].
  now rewrite releaseHlsResource_released.
Qed.

(** The effect on the source, with the element attached and hls.js
    supported.  A run with a source calls the cleanup the previous run left,
    releases the adapter that is bound, and only then binds a new adapter,
    attached and not destroyed; the snapshot is not reset, so the status and
    the bitrate ladder of the previous source stay until events of the new
    one replace them.  The run leaves its cleanup with React, so the next run
    of the effect, with or without a source, and the unmounting of the
    provider destroy the adapter bound now.  A run without a source binds
    nothing, and changes nothing when no cleanup is held. *)
Theorem source_change_binds_a_fresh_adapter :
  forall (w : World) (media : HTMLMediaElement.t) (mediaSource : string),
    _mediaRef w = Some media ->
    Hls_isSupported w = true ->
    mediaSource <> EmptyString ->
    let fresh := Hls.call Hls.attachMedia Hls.create in
    let w1 := step w (effect_mediaSource (Some mediaSource)) in
    w1 = with_effect_cleanup true
           (with_hlsRef (Some fresh) (released (cleaned w)))
    /\ (forall hls, _hlsRef w = Some hls ->
          exists hls', _hlsRef (released (cleaned w)) = Some hls'
                       /\ Hls.destroyed hls' = true)
    /\ _hlsRef w1 = Some fresh
    /\ Hls.destroyed fresh = false
    /\ getSnapshot w1 = getSnapshot w
    /\ _mediaRef w1 = Some media
    /\ (forall source,
          source = None \/ source = Some EmptyString ->
          step w1 (effect_mediaSource source)
          = with_effect_cleanup false
              (with_hlsRef (Some (Hls.call Hls.destroy fresh)) w1))
    /\ step w1 provider_unmounts
       = with_effect_cleanup false
           (with_hlsRef (Some (Hls.call Hls.destroy fresh)) w1)
    /\ (effect_cleanup w = false ->
        step w (effect_mediaSource None) = w
        /\ step w (effect_mediaSource (Some EmptyString)) = w
        /\ step w provider_unmounts = w).
Proof.
  intros w media [|c rest] Href Hsup Hsrc fresh w1; [congruence|].
  destruct (cleaned_frame w) as (Hc1 & Hc2 & Hc3).
  destruct (released_frame (cleaned w)) as (Hr1 & Hr2 & Hr3).
  assert (Hmedia : _mediaRef (cleaned w) = Some media) by congruence.
  assert (Hsup' : Hls_isSupported (released (cleaned w)) = true) by congruence.
  assert (Hw1 : w1 = with_effect_cleanup true
                       (with_hlsRef (Some fresh) (released (cleaned w)))).
  { unfold w1, step. cbn [handler]. unfold effect_runs, bind.
    rewrite run_cleanup_cleaned. unfold useEffect_mediaSource, bind, _getMedia.
    rewrite Hmedia, releaseHlsResource_released.
    unfold gets. cbn iota beta. rewrite Hsup'. reflexivity. }
  assert (Hsnap : getSnapshot (released (cleaned w)) = getSnapshot w
                  /\ _mediaRef (released (cleaned w)) = Some media)
    by (split; congruence).
  assert (Hend : run_cleanup w1
                 = Returned tt
                     (with_effect_cleanup false
                        (with_hlsRef (Some (Hls.call Hls.destroy fresh)) w1))).
  { rewrite run_cleanup_cleaned, Hw1. reflexivity. }
  split; [exact Hw1|]. split; [|split; [|split; [|split; [|split]]]].
  - intros hls Hhls. unfold cleaned, released. simpl.
    destruct (effect_cleanup w); simpl; rewrite Hhls; simpl;
      eexists; split; reflexivity.
  - now rewrite Hw1.
  - reflexivity.
  - rewrite Hw1. apply Hsnap.
  - rewrite Hw1. apply Hsnap.
  - split; [|split].
    + intros source [->| ->]; unfold step; cbn [handler];
        unfold effect_runs, bind; rewrite Hend; reflexivity.
    + unfold step. cbn [handler]. unfold unmount. now rewrite Hend.
    + intros Hclean.
      assert (Hsame : cleaned w = w).
      { unfold cleaned. rewrite Hclean. destruct w. simpl in Hclean.
        now subst. }
      unfold step. cbn [handler]. unfold effect_runs, unmount, bind.
      rewrite run_cleanup_cleaned, Hsame. simpl.
      assert (Hid : with_effect_cleanup false w = w)
        by (destruct w; simpl in Hclean; now subst).
      rewrite Hid. now repeat split.
Qed.

Lemma source_change_binds_a_fresh_adapter_witness :
  _hlsRef
    (step (run [browser_element new_element; effect_mediaSource (Some "a.m3u8")]
             (first_world (of_Z 0) true))
       (effect_mediaSource (Some "b.m3u8")))
  = Some (Hls.call Hls.attachMedia Hls.create)
  /\ _hlsRef
       (step
          (step (run [browser_element new_element;
                      effect_mediaSource (Some "a.m3u8")]
                   (first_world (of_Z 0) true))
             (effect_mediaSource (Some "b.m3u8")))
          provider_unmounts)
     = Some (Hls.call Hls.destroy (Hls.call Hls.attachMedia Hls.create)).
Proof.
  destruct (source_change_binds_a_fresh_adapter
              (run [browser_element new_element;
                    effect_mediaSource (Some "a.m3u8")]
                 (first_world (of_Z 0) true))
              new_element "b.m3u8" eq_refl eq_refl ltac:(discriminate))
    as (_ & _ & Hbound & _ & _ & _ & _ & Hunmount & _).
  split; [exact Hbound|]. rewrite Hunmount. reflexivity.
Defined.

(** *** The buffered ranges shown to the user *)

Lemma le_floor_left (s t : number) :
  le s t = true -> le (Math_floor s) t = true.
Proof.
  destruct s as [| | |x]; try (intros H; exact H).
  destruct t as [| | |y]; simpl; try (intros H; exact H).
  intros H. apply Qle_bool_iff in H. apply Qle_bool_iff.
  pose proof (Qfloor_le x). lra.
Qed.

Lemma le_timeRange_start (r : number * number) (t : number) :
  le (fst (timeRange r)) t = true -> le (Math_floor (fst r)) t = true.
Proof.
  destruct r as [s e]. simpl.
  destruct (strict_eq (Math_floor s) (of_Z 0)); [intros H; exact H|].
  apply le_floor_left.
Qed.

(** [convertTimeRangesToSeconds] keeps the number and the ends of the ranges
    and only moves starts down: a position inside a buffered range is inside
    the converted range, and every position the readiness check accepts lies
    in one of the converted ranges. *)
Theorem converted_ranges_cover_the_buffer :
  forall (buffered : TimeRanges) (t : number),
    length (Utils.convertTimeRangesToSeconds buffered) = length buffered
    /\ map snd (Utils.convertTimeRangesToSeconds buffered) = map snd buffered
    /\ (existsb (inside t) buffered = true ->
        existsb (inside t) (Utils.convertTimeRangesToSeconds buffered) = true)
    /\ (has_data_at t buffered = true ->
        existsb (inside t) (Utils.convertTimeRangesToSeconds buffered) = true).
Proof.
  intros buffered t. unfold Utils.convertTimeRangesToSeconds.
  split; [apply length_map|]. split; [now rewrite map_map|]. split.
  - intros H. apply existsb_exists in H as (r & Hin & Hr).
    apply existsb_exists. exists (Math_floor (fst r), snd r). split.
    + apply in_map_iff. now exists r.
    + unfold inside in *. simpl. apply andb_prop in Hr as [H1 H2].
      apply andb_true_intro. split; [now apply le_floor_left|exact H2].
  - unfold has_data_at. intros H.
    apply existsb_exists in H as (r' & Hin & Hr).
    apply in_map_iff in Hin as (r & <- & Hin).
    apply existsb_exists. exists (Math_floor (fst r), snd r). split.
    + apply in_map_iff. now exists r.
    + unfold inside. simpl.
      destruct (timeRange r) as [s e] eqn:Htr.
      apply andb_prop in Hr as [H1 H2]. unfold ge in H1.
      apply andb_true_intro. split.
      * apply le_timeRange_start. now rewrite Htr.
      * destruct r as [s0 e0]. simpl in *. injection Htr as _ <-. exact H2.
Qed.

Lemma converted_ranges_cover_the_buffer_witness :
  existsb (inside (of_Z 16))
    (Utils.convertTimeRangesToSeconds
       [(Fin (7 # 1250), of_Z 10); (Fin (31 # 2), of_Z 20)])
  = true.
Proof.
  apply (proj1 (proj2 (proj2 (converted_ranges_cover_the_buffer
                                [(Fin (7 # 1250), of_Z 10);
                                 (Fin (31 # 2), of_Z 20)]
                                (of_Z 16))))).
  reflexivity.
Defined.

Lemma native_pause_only_when_requested_witness :
  exists issued,
    element_calls (step (mounted new_element) (call_setPaused true))
    = (element_calls (mounted new_element) ++ issued)%list
    /\ (length issued <= 1)%nat
    /\ (In HTMLMediaElement.pause issued ->
        _pausedRef (step (mounted new_element) (call_setPaused true)) = true).
Proof.
  exact (native_pause_only_when_requested (mounted new_element)
           (call_setPaused true)).
Defined.

(** A seek to a position that is buffered marks the snapshot as seeking and
    schedules nothing, but it does not cancel a LOADING timeout that an
    earlier seek or waiting signal left pending: when that timeout falls due
    and fires, the status becomes LOADING although the position is
    buffered. *)
Theorem buffered_seek_keeps_the_pending_timeout :
  forall (w : World) (media : HTMLMediaElement.t) (id : TimerId) (due : Z),
    running w ->
    _mediaRef w = Some media ->
    has_data_at (HTMLMediaElement.currentTime media)
      (HTMLMediaElement.buffered media) = true ->
    timers w = [(id, due)] ->
    let w1 := step w onSeeking in
    seeking (getSnapshot w1) = true
    /\ status (getSnapshot w1) = status (getSnapshot w)
    /\ timers w1 = [(id, due)]
    /\ forall ms,
         due <= clock w + Z.max 0 ms ->
         status (getSnapshot (run [elapse ms; timeout_fires id] w1)) = LOADING.
Proof.
  intros w media id due Hrun Href Hdata Htimers w1.
  set (u := [P_seeking true;
             P_currentTime (HTMLMediaElement.currentTime media);
             P_ended (HTMLMediaElement.ended media)]).
  assert (Hw1 : w1 = world_of (updateMediaService u w)).
  { unfold w1, step, handler, _onSeeking, bind, _getMedia.
    rewrite Href. fold u. unfold updateMediaService at 1, modify at 1.
    unfold checkMediaHasDataToPlay, bind, _getMedia, ret. simpl.
    now rewrite Href, Hdata. }
  assert (Hrun1 : running w1)
    by (rewrite Hw1; now apply running_updateMediaService).
  assert (Hsnap : getSnapshot w1 = updateMedia (getSnapshot w) u)
    by (rewrite Hw1; now apply getSnapshot_updateMediaService).
  split; [|split; [|split]].
  - rewrite Hsnap. unfold u, updateMedia. simpl. now destruct (getSnapshot w).
  - rewrite Hsnap. unfold u, updateMedia. simpl. now destruct (getSnapshot w).
  - rewrite Hw1. exact Htimers.
  - intros ms Hms.
    change (run [elapse ms; timeout_fires id] w1)
      with (step (with_clock (clock w1 + Z.max 0 ms) w1) (timeout_fires id)).
    apply (due_timeout_sets_loading _ id due).
    + exact Hrun1.
    + rewrite Hw1. exact Htimers.
    + rewrite Hw1. exact Hms.
Qed.

Lemma buffered_seek_keeps_the_pending_timeout_witness :
  status
    (getSnapshot
       (run [elapse 100; timeout_fires 1%positive]
          (step (with_timers [(1%positive, 50)] 2%positive
                   (mounted (buffering (of_Z 5) [(of_Z 0, of_Z 10)]
                               new_element)))
             onSeeking)))
  = LOADING.
Proof.
  destruct (buffered_seek_keeps_the_pending_timeout
              (with_timers [(1%positive, 50)] 2%positive
                 (mounted (buffering (of_Z 5) [(of_Z 0, of_Z 10)] new_element)))
              (buffering (of_Z 5) [(of_Z 0, of_Z 10)] new_element)
              1%positive 50 eq_refl eq_refl eq_refl eq_refl) as (_ & _ & _ & H).
  apply (H 100). discriminate.
Defined.

(** When a pause request is suspended on a fulfilled promise and a play
    request follows before it resumes, the resumed call issues no pause but
    empties [_playPromise], dropping the promise the play request had just
    stored: the next pause request finds no promise and calls the native
    [pause()] at once, while that newer promise is still unsettled. *)
Theorem resumed_pause_forgets_the_newer_promise :
  forall (w : World) (media : HTMLMediaElement.t) (p : PromiseId),
    _mediaRef w = Some media ->
    HTMLMediaElement.play_returns_promise media = true ->
    _playPromise w = Some p ->
    lookup p (settled w) = Some true ->
    lookup (next_promise w) (settled w) = None ->
    awaiting w = [] ->
    let w1 := run [call_setPaused true; call_setPaused false;
                   continuation_resumes 0%nat] w in
    let w2 := step w1 (call_setPaused true) in
    _playPromise w1 = None
    /\ element_calls w1 = (element_calls w ++ [HTMLMediaElement.play])%list
    /\ lookup (next_promise w) (settled w2) = None
    /\ element_calls w2
       = (element_calls w
          ++ [HTMLMediaElement.play; HTMLMediaElement.pause])%list.
Proof.
  intros w media p Href Hprom Hp Hsettled Hfresh Hawait w1 w2.
  unfold w2, w1, run. simpl fold_left.
  unfold step, handler, setPaused, resume, setPaused_continuation, bind,
    _getMedia, gets, modify, updateMediaService, await, media_play,
    media_pause, ret.
  rewrite Href. simpl. rewrite Hp. simpl. rewrite Href. simpl.
  rewrite Hprom. simpl. rewrite Hawait. simpl. rewrite Hsettled. simpl.
  rewrite Href. simpl.
  repeat split; try assumption.
  now rewrite <- app_assoc.
Qed.

Lemma resumed_pause_forgets_the_newer_promise_witness :
  element_calls
    (step
       (run [call_setPaused true; call_setPaused false;
             continuation_resumes 0%nat]
          (with_next_promise 1%nat
             (with_settled [(0%nat, true)]
                (with_playPromise (Some 0%nat) (mounted new_element)))))
       (call_setPaused true))
  = ([] ++ [HTMLMediaElement.play; HTMLMediaElement.pause])%list.
Proof.
  exact (proj2 (proj2 (proj2
           (resumed_pause_forgets_the_newer_promise
              (with_next_promise 1%nat
                 (with_settled [(0%nat, true)]
                    (with_playPromise (Some 0%nat) (mounted new_element))))
              new_element 0%nat eq_refl eq_refl eq_refl eq_refl eq_refl
              eq_refl)))).
Defined.

(** *** After the adapter was given up *)

Lemma abandoned_on_hls (given : list Hls.Call) (f : Hls.t -> Hls.t) :
  (forall h, Hls.destroyed h = true ->
             Hls.destroyed (f h) = true
             /\ filter loads (Hls.calls (f h)) = filter loads (Hls.calls h)) ->
  preserves (abandoned given) (on_hls f).
Proof.
  intros Hf w (h & Hh & Hd & Hc). exists (f h). simpl. rewrite Hh.
  destruct (Hf h Hd) as [Hd' Hc']. repeat split; congruence.
Qed.

Lemma abandoned_call (c : Hls.Call) (h : Hls.t) :
  loads c = false ->
  Hls.destroyed h = true ->
  Hls.destroyed (Hls.call c h) = true
  /\ filter loads (Hls.calls (Hls.call c h)) = filter loads (Hls.calls h).
Proof.
  intros Hc Hd. split.
  - simpl. now destruct c.
  - simpl. rewrite filter_app. simpl. rewrite Hc. apply app_nil_r.
Qed.

Lemma abandoned_deliver (given : list Hls.Call) (listener : M unit) :
  preserves (abandoned given) (deliver listener).
Proof.
  intros w Hw. unfold deliver, bind, gets.
  destruct Hw as (h & Hh & Hd & Hc) eqn:E. rewrite Hh, Hd. exact Hw.
Qed.

Lemma abandoned_by_ref (given : list Hls.Call) {A} (c : M A) :
  (forall w, _hlsRef (world_of (c w)) = _hlsRef w) ->
  preserves (abandoned given) c.
Proof.
  intros Hc w (h & Hh & Hd & Hg). exists h. rewrite Hc. now repeat split.
Qed.

Lemma hlsRef_fire (id : TimerId) (w : World) :
  _hlsRef (world_of (fire id w)) = _hlsRef w.
Proof.
  unfold fire.
  destruct (find (fun t => Pos.eqb (fst t) id) (timers w))
    as [[id' due]|]; [|reflexivity].
  now destruct (Z.leb due (clock w)).
Qed.

Lemma hlsRef_settle (p : PromiseId) (ok : bool) (w : World) :
  _hlsRef (world_of (settle p ok w)) = _hlsRef w.
Proof.
  unfold settle.
  now destruct (Nat.ltb p (next_promise w)
                && match lookup p (settled w) with
                   | None => true
                   | Some _ => false
                   end).
Qed.

Lemma hlsRef_media_play (m : HTMLMediaElement.t) (w : World) :
  _hlsRef (world_of (media_play m w)) = _hlsRef w.
Proof.
  unfold media_play. now destruct (HTMLMediaElement.play_returns_promise m).
Qed.

Lemma hlsRef_resume (i : nat) (w : World) :
  _hlsRef (world_of (resume i w)) = _hlsRef w.
Proof.
  unfold resume.
  destruct (nth_error (awaiting w) i) as [p|]; [|reflexivity].
  destruct (lookup p (settled w)) as [[|]|]; try reflexivity.
  unfold setPaused_continuation, bind, modify, gets, media_pause, ret. simpl.
  now destruct (_pausedRef w).
Qed.

Lemma abandoned_handler (given : list Hls.Call) (e : Event) :
  binds_adapter e = false -> preserves (abandoned given) (handler e).
Proof.
  intros He. destruct e; cbn [handler];
    try apply abandoned_deliver;
    try (apply abandoned_by_ref; first [ apply hlsRef_fire | apply hlsRef_settle
                                       | apply hlsRef_resume ]);
    try match type of He with
        | binds_adapter (effect_mediaSource ?src) = false =>
            destruct src as [[|c rest]|]; [|discriminate He|]
        end;
    repeat first
      [ (apply abandoned_by_ref; apply hlsRef_media_play)
      | (apply abandoned_on_hls; intros h Hd;
         first [ (apply abandoned_call; [reflexivity|exact Hd])
               | (split; [exact Hd|reflexivity]) ])
      | session_step
      | progress session_unfold
      | progress unfold on_media, clearTimeout, updateMediaService
      | (apply preserves_modify; intros ? Hw; exact Hw)
      | (intros ? Hw; exact Hw) ].
Qed.

Lemma abandoned_run (given : list Hls.Call) (es : list Event) (w : World) :
  existsb binds_adapter es = false ->
  abandoned given w -> abandoned given (run es w).
Proof.
  intros Hes. apply preserves_run. intros e He. apply abandoned_handler.
  destruct (binds_adapter e) eqn:Hb; [|reflexivity].
  assert (existsb binds_adapter es = true) by (apply existsb_exists; eauto).
  congruence.
Qed.

Lemma can_play_sets_the_status (w : World) :
  running w -> status (getSnapshot (step w onCanPlay)) = CAN_PLAY.
Proof.
  intros Hrun. unfold step. cbn [handler].
  unfold _onCanPlay, setCanPlayStatus, bind, gets.
  destruct (_timeoutLoadingId w) as [id|];
    unfold clearTimeout, modify, ret; cbn iota beta;
    rewrite getSnapshot_updateMediaService by exact Hrun;
    unfold updateMedia; simpl;
    match goal with |- status (assign_property ?c _) = _ => now destruct c end.
Qed.

(** C4, as the code has it: the listener of the adapter's error event.  A
    fatal network error calls [startLoad] and sets the status to RECOVERING;
    a fatal media error calls [recoverMediaError] and sets the status to
    RECOVERING; any other fatal error calls [destroy] and sets the status to
    ERROR; a non-fatal error leaves the world, the snapshot included, as it
    was.  In the three fatal cases only the status field of the snapshot
    changes.  After [destroy] no event of the adapter has any effect, and
    whatever else happens the destroyed adapter stays bound and is asked to
    load or recover no more, until the effect binds a new adapter.  The
    status ERROR itself does not last: the next can-play event sets CAN_PLAY,
    and a LOADING timeout that was pending sets LOADING when it fires. *)
Theorem C4_adapter_error_policy :
  forall (w : World) (hls : Hls.t) (data : Hls.ErrorData),
    running w ->
    _hlsRef w = Some hls ->
    Hls.destroyed hls = false ->
    let w' := step w (hls_ERROR data) in
    (Hls.fatal data = true -> Hls.type data = Hls.NETWORK_ERROR ->
       _hlsRef w' = Some (Hls.call Hls.startLoad hls)
       /\ getSnapshot w' = assign_property (getSnapshot w) (P_status RECOVERING))
    /\ (Hls.fatal data = true -> Hls.type data = Hls.MEDIA_ERROR ->
       _hlsRef w' = Some (Hls.call Hls.recoverMediaError hls)
       /\ getSnapshot w' = assign_property (getSnapshot w) (P_status RECOVERING))
    /\ (Hls.fatal data = true ->
        Hls.type data <> Hls.NETWORK_ERROR ->
        Hls.type data <> Hls.MEDIA_ERROR ->
       _hlsRef w' = Some (Hls.call Hls.destroy hls)
       /\ getSnapshot w' = assign_property (getSnapshot w) (P_status ERROR)
       /\ (forall es, forallb adapter_event es = true -> run es w' = w')
       /\ (forall es,
             existsb binds_adapter es = false ->
             abandoned (filter loads (Hls.calls hls)) (run es w'))
       /\ status (getSnapshot (step w' onCanPlay)) = CAN_PLAY
       /\ (forall id due ms,
             timers w = [(id, due)] ->
             due <= clock w + Z.max 0 ms ->
             status (getSnapshot (run [elapse ms; timeout_fires id] w'))
             = LOADING))
    /\ (Hls.fatal data = false -> w' = w).
Proof.
  intros w hls [fatal type] Hrun Hhls Halive w'.
  assert (Hstep : w' = world_of (on_ERROR (Hls.mkErrorData fatal type) w)).
  { unfold w', step, handler, deliver, bind, gets. now rewrite Hhls, Halive. }
  clearbody w'. subst w'. simpl Hls.fatal. simpl Hls.type.
  assert (Hupd : forall (c : Hls.Call) (s : MediaStatus),
             let w1 := world_of ((on_hls (Hls.call c) ;;
                                  updateMediaService [P_status s]) w) in
             _hlsRef w1 = Some (Hls.call c hls)
             /\ getSnapshot w1 = assign_property (getSnapshot w) (P_status s)
             /\ running w1 /\ timers w1 = timers w /\ clock w1 = clock w).
  { intros c s. unfold on_hls, bind, modify. simpl. rewrite Hhls.
    split; [reflexivity|]. split; [|split; [|split; reflexivity]].
    - unfold updateMediaService, modify, getSnapshot. simpl.
      now rewrite getSnapshot_send.
    - unfold running. simpl. now rewrite status_send. }
  split; [|split; [|split]].
  - intros -> ->. destruct (Hupd Hls.startLoad RECOVERING) as (H1 & H2 & _).
    now split.
  - intros -> ->.
    destruct (Hupd Hls.recoverMediaError RECOVERING) as (H1 & H2 & _).
    now split.
  - intros -> Hnet Hmed.
    set (w' := world_of (on_ERROR (Hls.mkErrorData true type) w)).
    assert (Hw' : w' = world_of ((on_hls (Hls.call Hls.destroy) ;;
                                  updateMediaService [P_status ERROR]) w))
      by (unfold w', on_ERROR; cbn [Hls.fatal Hls.type];
          destruct type; solve [reflexivity | congruence]).
    clearbody w'.
    destruct (Hupd Hls.destroy ERROR) as (Href & Hsnap & Hrun' & Ht & Hc).
    rewrite <- Hw' in Href, Hsnap, Hrun', Ht, Hc.
    split; [exact Href|]. split; [exact Hsnap|].
    split; [|split; [|split]].
    + intros es Hes.
      now apply (destroyed_adapter_stays_silent es _ _ Href).
    + intros es Hes. apply abandoned_run; [exact Hes|].
      exists (Hls.call Hls.destroy hls). split; [exact Href|].
      split; [reflexivity|]. simpl. rewrite filter_app. apply app_nil_r.
    + now apply can_play_sets_the_status.
    + intros id due ms Htimers Hdue.
      change (run [elapse ms; timeout_fires id] w')
        with (step (with_clock (clock w' + Z.max 0 ms) w') (timeout_fires id)).
      apply (due_timeout_sets_loading _ id due).
      * exact Hrun'.
      * simpl. now rewrite Ht.
      * simpl. now rewrite Hc.
  - intros ->. reflexivity.
Qed.

Lemma C4_adapter_error_policy_witness :
  status
    (getSnapshot
       (step (with_hlsRef (Some Hls.create) (mounted new_element))
          (hls_ERROR (Hls.mkErrorData true Hls.NETWORK_ERROR))))
  = RECOVERING
  /\ status
       (getSnapshot
          (step (with_hlsRef (Some Hls.create) (mounted new_element))
             (hls_ERROR (Hls.mkErrorData true Hls.OTHER_ERROR))))
     = ERROR
  /\ status
       (getSnapshot
          (step
             (step (with_hlsRef (Some Hls.create) (mounted new_element))
                (hls_ERROR (Hls.mkErrorData true Hls.OTHER_ERROR)))
             onCanPlay))
     = CAN_PLAY
  /\ step (with_hlsRef (Some Hls.create) (mounted new_element))
       (hls_ERROR (Hls.mkErrorData false Hls.NETWORK_ERROR))
     = with_hlsRef (Some Hls.create) (mounted new_element).
Proof.
  split; [|split; [|split]].
  - destruct (C4_adapter_error_policy
                (with_hlsRef (Some Hls.create) (mounted new_element))
                Hls.create (Hls.mkErrorData true Hls.NETWORK_ERROR)
                eq_refl eq_refl eq_refl) as (H & _).
    destruct (H eq_refl eq_refl) as (_ & Hs). rewrite Hs. reflexivity.
  - destruct (C4_adapter_error_policy
                (with_hlsRef (Some Hls.create) (mounted new_element))
                Hls.create (Hls.mkErrorData true Hls.OTHER_ERROR)
                eq_refl eq_refl eq_refl) as (_ & _ & H & _).
    destruct (H eq_refl ltac:(discriminate) ltac:(discriminate))
      as (_ & Hs & _).
    rewrite Hs. reflexivity.
  - destruct (C4_adapter_error_policy
                (with_hlsRef (Some Hls.create) (mounted new_element))
                Hls.create (Hls.mkErrorData true Hls.OTHER_ERROR)
                eq_refl eq_refl eq_refl) as (_ & _ & H & _).
    destruct (H eq_refl ltac:(discriminate) ltac:(discriminate))
      as (_ & _ & _ & _ & Hs & _).
    exact Hs.
  - exact (proj2 (proj2 (proj2
             (C4_adapter_error_policy
                (with_hlsRef (Some Hls.create) (mounted new_element))
                Hls.create (Hls.mkErrorData false Hls.NETWORK_ERROR)
                eq_refl eq_refl eq_refl))) eq_refl).
Defined.

(** C4, as stated, fails on the word terminal: after a fatal error that is
    neither a network nor a media error the status is ERROR, and the next
    can-play event of the element makes it CAN_PLAY; with a seek to an
    unbuffered position before the error, the LOADING timeout of that seek
    makes it LOADING a second later. *)
Lemma C4_error_is_not_terminal_counterexample :
  status
    (getSnapshot
       (run [browser_element new_element;
             effect_mediaSource (Some "a.m3u8");
             hls_ERROR (Hls.mkErrorData true Hls.OTHER_ERROR)]
          (first_world (of_Z 0) true)))
  = ERROR
  /\ status
       (getSnapshot
          (run [browser_element new_element;
                effect_mediaSource (Some "a.m3u8");
                hls_ERROR (Hls.mkErrorData true Hls.OTHER_ERROR);
                onCanPlay]
             (first_world (of_Z 0) true)))
     = CAN_PLAY
  /\ status
       (getSnapshot
          (run [browser_element new_element;
                effect_mediaSource (Some "a.m3u8");
                onCanPlay;
                onSeeking;
                hls_ERROR (Hls.mkErrorData true Hls.OTHER_ERROR);
                elapse 1000;
                timeout_fires 1%positive]
             (first_world (of_Z 0) true)))
     = LOADING.
Proof. repeat split. Qed.

(** *** Where the debounce follows the check and not the buffer *)

(** C5: the debounce goes by the readiness check of the code, which accepts
    a position below a later range that starts within the first second.
    With [[0, 0.2], [0.5, 0.9]] buffered, a seek to 0.3 is a seek to a
    position outside every buffered range, yet it schedules no transition to
    LOADING and leaves the timeout of an earlier seek pending, so the status
    becomes LOADING as soon as that timeout is due, however shortly after
    this seek; a waiting signal at that position sets CAN_PLAY at once. *)
Theorem C5_seek_below_a_later_range_is_not_debounced :
  forall (w : World) (media : HTMLMediaElement.t) (id : TimerId) (due : Z),
    running w ->
    _mediaRef w = Some media ->
    HTMLMediaElement.currentTime media = Fin (3 # 10) ->
    HTMLMediaElement.buffered media
    = [(of_Z 0, Fin (1 # 5)); (Fin (1 # 2), Fin (9 # 10))] ->
    timers w = [(id, due)] ->
    let w1 := step w onSeeking in
    Spec.playable (HTMLMediaElement.currentTime media)
      (HTMLMediaElement.buffered media) = false
    /\ timers w1 = [(id, due)]
    /\ clock w1 = clock w
    /\ (forall ms,
          due <= clock w + Z.max 0 ms ->
          status (getSnapshot (run [elapse ms; timeout_fires id] w1)) = LOADING)
    /\ status (getSnapshot (step w onWaiting)) = CAN_PLAY.
Proof.
  intros w media id due Hrun Href Ht Hb Htimers w1.
  assert (Hdata : has_data_at (HTMLMediaElement.currentTime media)
                    (HTMLMediaElement.buffered media) = true)
    by now rewrite Ht, Hb.
  set (u := [P_seeking true;
             P_currentTime (HTMLMediaElement.currentTime media);
             P_ended (HTMLMediaElement.ended media)]).
  assert (Hw1 : w1 = world_of (updateMediaService u w)).
  { unfold w1, step, handler, _onSeeking, bind, _getMedia.
    rewrite Href. fold u. unfold updateMediaService at 1, modify at 1.
    unfold checkMediaHasDataToPlay, bind, _getMedia, ret. simpl.
    now rewrite Href, Hdata. }
  assert (Hrun1 : running w1)
    by (rewrite Hw1; now apply running_updateMediaService).
  split; [now rewrite Ht, Hb|]. split; [now rewrite Hw1|].
  split; [now rewrite Hw1|]. split.
  - intros ms Hms.
    change (run [elapse ms; timeout_fires id] w1)
      with (step (with_clock (clock w1 + Z.max 0 ms) w1) (timeout_fires id)).
    apply (due_timeout_sets_loading _ id due).
    + exact Hrun1.
    + rewrite Hw1. exact Htimers.
    + rewrite Hw1. exact Hms.
  - assert (Hstep : step w onWaiting = world_of (setCanPlayStatus w)).
    { unfold step, handler, _onWaiting, checkMediaHasDataToPlay, bind,
        _getMedia, ret.
      now rewrite Href, Hdata. }
    rewrite Hstep. now apply can_play_sets_the_status.
Qed.

Lemma C5_seek_below_a_later_range_is_not_debounced_witness :
  clock
    (run [onCanPlay; onSeeking; elapse 900;
          browser_element
            (buffering (Fin (3 # 10))
               [(of_Z 0, Fin (1 # 5)); (Fin (1 # 2), Fin (9 # 10))]
               new_element)]
       (mounted
          (buffering (of_Z 30)
             [(of_Z 0, Fin (1 # 5)); (Fin (1 # 2), Fin (9 # 10))]
             new_element)))
  = 900
  /\ status
       (getSnapshot
          (run [elapse 100; timeout_fires 1%positive]
             (step
                (run [onCanPlay; onSeeking; elapse 900;
                      browser_element
                        (buffering (Fin (3 # 10))
                           [(of_Z 0, Fin (1 # 5)); (Fin (1 # 2), Fin (9 # 10))]
                           new_element)]
                   (mounted
                      (buffering (of_Z 30)
                         [(of_Z 0, Fin (1 # 5)); (Fin (1 # 2), Fin (9 # 10))]
                         new_element)))
                onSeeking)))
     = LOADING.
Proof.
  split; [reflexivity|].
  destruct (C5_seek_below_a_later_range_is_not_debounced
              (run [onCanPlay; onSeeking; elapse 900;
                    browser_element
                      (buffering (Fin (3 # 10))
                         [(of_Z 0, Fin (1 # 5)); (Fin (1 # 2), Fin (9 # 10))]
                         new_element)]
                 (mounted
                    (buffering (of_Z 30)
                       [(of_Z 0, Fin (1 # 5)); (Fin (1 # 2), Fin (9 # 10))]
                       new_element)))
              (buffering (Fin (3 # 10))
                 [(of_Z 0, Fin (1 # 5)); (Fin (1 # 2), Fin (9 # 10))]
                 new_element)
              1%positive 1000 eq_refl eq_refl eq_refl eq_refl eq_refl)
    as (_ & _ & _ & H & _).
  apply (H 100). discriminate.
Defined.

(** *** A pause that overtakes a play *)

Lemma lookup_snoc_found {A} (p : PromiseId) (l : list (PromiseId * A)) (v : A) :
  lookup p l = None -> lookup p (l ++ [(p, v)]) = Some v.
Proof.
  induction l as [|[k x] l IH]; simpl.
  - intros _. now rewrite Nat.eqb_refl.
  - destruct (Nat.eqb k p); [discriminate|exact IH].
Qed.

Lemma lookup_snoc_other {A} (p q : PromiseId) (l : list (PromiseId * A)) (v : A) :
  p <> q -> lookup q l = None -> lookup q (l ++ [(p, v)]) = None.
Proof.
  intros Hpq. induction l as [|[k x] l IH]; simpl.
  - intros _. destruct (Nat.eqb_spec p q); [contradiction|reflexivity].
  - destruct (Nat.eqb k q); [discriminate|exact IH].
Qed.

Lemma transport_play_request (w : World) (media : HTMLMediaElement.t)
  (pr : bool) (pp : option PromiseId) (n : PromiseId)
  (st : list (PromiseId * bool)) (aw : list PromiseId)
  (cs : list HTMLMediaElement.Call) :
  transport w = (Some media, pr, pp, n, st, aw, cs) ->
  HTMLMediaElement.play_returns_promise media = true ->
  transport (step w (call_setPaused false))
  = (Some media, false, Some n, S n, st, aw,
     (cs ++ [HTMLMediaElement.play])%list).
Proof.
  intros H Hprom. destruct w. unfold transport in H. simpl in H.
  injection H as -> -> -> -> -> -> ->.
  unfold transport, step. cbn [handler].
  unfold setPaused, bind, _getMedia, modify, updateMediaService, media_play.
  simpl. rewrite Hprom. reflexivity.
Qed.

Lemma transport_pause_request (w : World) (media : HTMLMediaElement.t)
  (pr : bool) (pp : option PromiseId) (n : PromiseId)
  (st : list (PromiseId * bool)) (aw : list PromiseId)
  (cs : list HTMLMediaElement.Call) :
  transport w = (Some media, pr, pp, n, st, aw, cs) ->
  transport (step w (call_setPaused true))
  = match pp with
    | Some p => (Some media, true, pp, n, st, (aw ++ [p])%list, cs)
    | None =>
        (Some media, true, None, n, st, aw,
         (cs ++ [HTMLMediaElement.pause])%list)
    end.
Proof.
  intros H. destruct w. unfold transport in H. simpl in H.
  injection H as -> -> -> -> -> -> ->.
  unfold transport, step. cbn [handler].
  unfold setPaused, bind, _getMedia, modify, updateMediaService, gets, await,
    media_pause.
  simpl. now destruct pp.
Qed.

Lemma transport_settles (w : World) (m : option HTMLMediaElement.t)
  (pr : bool) (pp : option PromiseId) (n : PromiseId)
  (st : list (PromiseId * bool)) (aw : list PromiseId)
  (cs : list HTMLMediaElement.Call) (p : PromiseId) (ok : bool) :
  transport w = (m, pr, pp, n, st, aw, cs) ->
  (p < n)%nat ->
  lookup p st = None ->
  transport (step w (promise_settles p ok))
  = (m, pr, pp, n, (st ++ [(p, ok)])%list, aw, cs).
Proof.
  intros H Hlt Hnone. destruct w. unfold transport in H. simpl in H.
  injection H as -> -> -> -> -> -> ->.
  unfold transport, step. cbn [handler]. unfold settle. simpl.
  apply Nat.ltb_lt in Hlt. now rewrite Hlt, Hnone.
Qed.

Lemma transport_resumes (w : World) (m : option HTMLMediaElement.t)
  (pr : bool) (pp : option PromiseId) (n : PromiseId)
  (st : list (PromiseId * bool)) (aw : list PromiseId)
  (cs : list HTMLMediaElement.Call) (i : nat) (p : PromiseId) :
  transport w = (m, pr, pp, n, st, aw, cs) ->
  nth_error aw i = Some p ->
  lookup p st = Some true ->
  transport (step w (continuation_resumes i))
  = (m, pr, None, n, st, remove_nth i aw,
     (cs ++ if pr then [HTMLMediaElement.pause] else [])%list).
Proof.
  intros H Hi Hp. destruct w. unfold transport in H. simpl in H.
  injection H as -> -> -> -> -> -> ->.
  unfold transport, step. cbn [handler]. unfold resume. simpl.
  rewrite Hi, Hp.
  unfold setPaused_continuation, bind, modify, gets, media_pause, ret. simpl.
  destruct pr; simpl; [reflexivity|]. now rewrite app_nil_r.
Qed.

(** C6: the pause request that overtakes a play.  On an element whose
    [play()] returns promises: a play request, a pause request, which is
    suspended on the first play promise, and a second play request, which
    stores a second promise.  When the first promise is fulfilled the
    suspended pause resumes: the latest request is to play, so it does not
    pause, but it empties [_playPromise], which by now holds the second
    promise.  The next pause request finds no promise and calls the native
    [pause()] at once, while the second play is still in flight. *)
Theorem C6_pause_overtakes_the_newer_play :
  forall (w : World) (media : HTMLMediaElement.t),
    _mediaRef w = Some media ->
    HTMLMediaElement.play_returns_promise media = true ->
    awaiting w = [] ->
    (forall p, (next_promise w <= p)%nat -> lookup p (settled w) = None) ->
    let first := next_promise w in
    let w1 := run [call_setPaused false; call_setPaused true;
                   call_setPaused false; promise_settles first true;
                   continuation_resumes 0%nat] w in
    let w2 := step w1 (call_setPaused true) in
    play_in_flight (S first) w1
    /\ _pausedRef w1 = false
    /\ _playPromise w1 = None
    /\ element_calls w1
       = (element_calls w
          ++ [HTMLMediaElement.play; HTMLMediaElement.play])%list
    /\ element_calls w2
       = (element_calls w
          ++ [HTMLMediaElement.play; HTMLMediaElement.play;
              HTMLMediaElement.pause])%list
    /\ awaiting w2 = []
    /\ play_in_flight (S first) w2.
Proof.
  intros w media Href Hprom Hawait Hfresh first w1 w2.
  assert (Hfirst : lookup first (settled w) = None)
    by (apply Hfresh; unfold first; lia).
  assert (Hsecond : lookup (S first) (settled w) = None)
    by (apply Hfresh; unfold first; lia).
  assert (H0 : transport w
               = (Some media, _pausedRef w, _playPromise w, first, settled w,
                  [], element_calls w))
    by (unfold transport; now rewrite Href, Hawait).
  pose proof (transport_play_request _ _ _ _ _ _ _ _ H0 Hprom) as H1.
  pose proof (transport_pause_request _ _ _ _ _ _ _ _ H1) as H2.
  cbn iota in H2.
  pose proof (transport_play_request _ _ _ _ _ _ _ _ H2 Hprom) as H3.
  pose proof (transport_settles _ _ _ _ _ _ _ _ first true H3
                ltac:(lia) Hfirst) as H4.
  pose proof (transport_resumes _ _ _ _ _ _ _ _ 0%nat first H4 eq_refl
                (lookup_snoc_found first (settled w) true Hfirst)) as H5.
  cbn [remove_nth app] in H5.
  pose proof (transport_pause_request _ _ _ _ _ _ _ _ H5) as H6.
  cbn iota in H6.
  change (transport w1
          = (Some media, false, None, S (S first),
             (settled w ++ [(first, true)])%list, [],
             (((element_calls w ++ [HTMLMediaElement.play])
               ++ [HTMLMediaElement.play]) ++ [])%list)) in H5.
  change (transport w2
          = (Some media, true, None, S (S first),
             (settled w ++ [(first, true)])%list, [],
             ((((element_calls w ++ [HTMLMediaElement.play])
                ++ [HTMLMediaElement.play]) ++ [])
              ++ [HTMLMediaElement.pause])%list)) in H6.
  clearbody w1 w2. unfold transport in H5, H6.
  injection H5 as _ Hp1 Hpp1 Hn1 Hs1 _ Hc1.
  injection H6 as _ _ _ Hn2 Hs2 Ha2 Hc2.
  assert (Hunsettled : lookup (S first) (settled w ++ [(first, true)]) = None)
    by (apply lookup_snoc_other; [lia|exact Hsecond]).
  unfold play_in_flight.
  rewrite Hn1, Hs1, Hn2, Hs2, Hc1, Hc2, app_nil_r, <- !app_assoc.
  repeat split; try assumption; lia.
Qed.

Lemma C6_pause_overtakes_the_newer_play_witness :
  play_in_flight 1%nat
    (run [call_setPaused false; call_setPaused true; call_setPaused false;
          promise_settles 0%nat true; continuation_resumes 0%nat]
       (mounted new_element))
  /\ element_calls
       (step
          (run [call_setPaused false; call_setPaused true;
                call_setPaused false; promise_settles 0%nat true;
                continuation_resumes 0%nat]
             (mounted new_element))
          (call_setPaused true))
     = ([] ++ [HTMLMediaElement.play; HTMLMediaElement.play;
               HTMLMediaElement.pause])%list.
Proof.
  destruct (C6_pause_overtakes_the_newer_play (mounted new_element) new_element
              eq_refl eq_refl eq_refl (fun p _ => eq_refl))
    as (Hflight & _ & _ & _ & Hcalls & _).
  split; [exact Hflight|exact Hcalls].
Defined.

End SessionInvariants.

(** ** Updates as an algebra *)
Section Updates.
Import JS MediaMachine Fsm Session.

Lemma read_extensional (a b : MediaValuesContext) :
  (forall k, read k a = read k b) -> a = b.
Proof.
  intros H. destruct a, b.
  pose proof (H K_currentTime). pose proof (H K_seeking).
  pose proof (H K_duration). pose proof (H K_volume).
  pose proof (H K_playbackRate). pose proof (H K_paused).
  pose proof (H K_muted). pose proof (H K_ended). pose proof (H K_status).
  pose proof (H K_rotate). pose proof (H K_error). pose proof (H K_buffered).
  pose proof (H K_autoBitrateEnabled). pose proof (H K_bitrateInfos).
  pose proof (H K_currentBirateIndex).
  clear H. simpl in *.
  repeat match goal with
         | E : _ = _ |- _ => injection E as E; subst
         end.
  reflexivity.
Qed.

Lemma read_updateMedia (k : Key) (u : Partial) (c : MediaValuesContext) :
  read k (updateMedia c u)
  = match last_with_key k u None with
    | Some p => p
    | None => read k c
    end.
Proof. apply read_fold_assign. Qed.

Lemma Key_eqb_eq (a b : Key) : Key_eqb a b = true -> a = b.
Proof. destruct a, b; simpl; intros H; solve [reflexivity | discriminate]. Qed.

Lemma last_with_key_untouched (k : Key) (u : Partial) :
  untouched k u = true -> last_with_key k u None = None.
Proof.
  unfold untouched. induction u as [|p u IH]; intros Hu; [reflexivity|].
  simpl in *. apply andb_prop in Hu as [Hp Hu].
  destruct (Key_eqb (key_of p) k); [discriminate|]. now apply IH.
Qed.

Lemma last_with_key_in (k : Key) (u : Partial) (found : option Property)
  (p : Property) :
  last_with_key k u found = Some p ->
  (In p u /\ key_of p = k) \/ found = Some p.
Proof.
  revert found. induction u as [|q u IH]; intros found H; [now right|].
  simpl in H. apply IH in H as [[Hin Hk]|H].
  - left. split; [now right|exact Hk].
  - destruct (Key_eqb (key_of q) k) eqn:Hq.
    + injection H as <-. left. split; [now left|now apply Key_eqb_eq].
    + now right.
Qed.

(** The snapshot a sequence of updates leaves behind depends on the updates
    only through the last value given to each key: sending the same update
    twice gives the snapshot content of sending it once, and two updates
    with no key in common give the same snapshot content in either order. *)
Theorem updates_compose :
  forall (c : MediaValuesContext) (u v : Partial),
    updateMedia (updateMedia c u) u = updateMedia c u
    /\ (disjoint_keys u v = true ->
        updateMedia (updateMedia c u) v = updateMedia (updateMedia c v) u).
Proof.
  intros c u v. split.
  - apply read_extensional. intros k. rewrite !read_updateMedia.
    now destruct (last_with_key k u None).
  - intros Hdis. apply read_extensional. intros k. rewrite !read_updateMedia.
    destruct (last_with_key k u None) as [p|] eqn:Hu; [|reflexivity].
    apply last_with_key_in in Hu as [[Hin Hk]|Hu]; [|discriminate].
    unfold disjoint_keys in Hdis. rewrite forallb_forall in Hdis.
    specialize (Hdis p Hin). rewrite Hk in Hdis.
    now rewrite (last_with_key_untouched k v Hdis).
Qed.

Lemma updates_compose_witness :
  updateMedia
    (updateMedia initial_context [P_volume (Fin (1 # 2)); P_muted true])
    [P_currentTime (of_Z 3)]
  = updateMedia
      (updateMedia initial_context [P_currentTime (of_Z 3)])
      [P_volume (Fin (1 # 2)); P_muted true].
Proof.
  apply (proj2 (updates_compose initial_context
                  [P_volume (Fin (1 # 2)); P_muted true]
                  [P_currentTime (of_Z 3)])).
  reflexivity.
Defined.

End Updates.
